(** * japa-openapi-assertions: a shallow embedding of the validation core

    The development follows the TypeScript sources:
    - [src/path_matcher.ts]      (matchPath, tryMatch),
    - [src/schema_builder.ts]    (resolveRefsInObject, resolveLocalRef,
                                  removeInvalidIds, compileSchema,
                                  buildPathValidators),
    - [src/response_validator.ts] (validateResponse, parseResponse, ...),
    - [src/coverage.ts]          (CoverageTracker),
    - [src/openapi_assertions.ts] (OpenApiAssertions.isValidResponse).

    Conventions of the embedding.
    - A JavaScript string is a [string]: a text outside ASCII stands as
      its UTF-8 bytes.  The operations the sources use on strings (split at
      an ASCII character, comparison, [startsWith], the character classes
      of the two regular expressions, concatenation) give the same on the
      bytes as on the code units.  Case conversion and the division of a
      text into its code units, which a spread or [Object.entries] of a
      string enumerates, are those of the language, parameters
      ([toUpperCase], [toLowerCase], [code_units] of [JsRuntime]).
    - A JavaScript object is an ordinary object with the prototype
      [Object.prototype], given as the list of its own enumerable
      string-keyed properties in enumeration order ([Object.entries]): the
      array indices in ascending order first, then the other keys in the
      order of their creation.  A write [o[k] = v] and a read [o[k]] with a
      computed key are modelled with the members an object inherits:
      writing [__proto__] creates no property, and a read that finds an
      inherited member either throws as the code does
      ([validateResponse]) or is marked as such ([Inherited]), the value
      of an inherited member being no value of the model.
    - A JavaScript number is [NaN], an infinity, or a decimal ([jsnum]);
      [string_of_number] is [Number::toString].
    - The conversions [Number] and [String], which run code of the value
      converted and can throw, the constructor [URL], and the external
      schema engine (AJV), whose instance has a state, are parameters
      ([JsRuntime], [SchemaEngine]).
    - An exception is a value of type [error] inside [outcome].  Where
      the code runs code of its input that the embedding does not describe
      (the methods of a url that is an object, a conversion of a value
      outside those of the examples), the result is [Outside]: no theorem
      says what the code does there. *)

From Stdlib Require Import String Ascii List ZArith Lia Bool DecimalString Sorted.
From stdpp Require Import base option list gmap strings.

Set Warnings "-register-all".

Open Scope string_scope.
Open Scope list_scope.
Open Scope Z_scope.

(* ================================================================== *)
(** * Part I.  Definitions                                             *)
(* ================================================================== *)

(** ** Strings *)

(** [s.split(sep)] for a one-character separator. *)
Fixpoint split (sep : ascii) (s : string) : list string :=
  match s with
  | EmptyString => [EmptyString]
  | String c s' =>
      if Ascii.eqb c sep then EmptyString :: split sep s'
      else match split sep s' with
           | [] => [String c EmptyString]
           | piece :: pieces => String c piece :: pieces
           end
  end.

Definition nonempty (s : string) : bool :=
  match s with EmptyString => false | String _ _ => true end.

(** [s.split('/').filter(Boolean)] *)
Definition segments (s : string) : list string :=
  List.filter nonempty (split "/" s).

(** [s.replace(/\/$/, '')]: one trailing slash is removed. *)
Fixpoint strip_trailing_slash (s : string) : string :=
  match s with
  | EmptyString => EmptyString
  | String c EmptyString => if Ascii.eqb c "/" then EmptyString else s
  | String c s' => String c (strip_trailing_slash s')
  end.

(** [a || b] on strings: the empty string is falsy. *)
Definition or_else (a b : string) : string :=
  if nonempty a then a else b.

Definition is_upper (c : ascii) : bool :=
  (("A" <=? c) && (c <=? "Z"))%char.
Definition is_lower (c : ascii) : bool :=
  (("a" <=? c) && (c <=? "z"))%char.
Definition is_digit (c : ascii) : bool :=
  (("0" <=? c) && (c <=? "9"))%char.

(** The class [\w] of a JavaScript regular expression without flags. *)
Definition is_word_char (c : ascii) : bool :=
  is_upper c || is_lower c || is_digit c || Ascii.eqb c "_".

Definition upper_char (c : ascii) : ascii :=
  if is_lower c then ascii_of_N (N_of_ascii c - 32) else c.
Definition lower_char (c : ascii) : ascii :=
  if is_upper c then ascii_of_N (N_of_ascii c + 32) else c.

Fixpoint map_string (f : ascii -> ascii) (s : string) : string :=
  match s with
  | EmptyString => EmptyString
  | String c s' => String (f c) (map_string f s')
  end.

(** Case conversion on ASCII letters, which is what [toUpperCase] and
    [toLowerCase] do on an ASCII string. *)
Definition ascii_upper : string -> string := map_string upper_char.
Definition ascii_lower : string -> string := map_string lower_char.

Fixpoint string_forallb (p : ascii -> bool) (s : string) : bool :=
  match s with
  | EmptyString => true
  | String c s' => p c && string_forallb p s'
  end.

Fixpoint string_existsb (p : ascii -> bool) (s : string) : bool :=
  match s with
  | EmptyString => false
  | String c s' => p c || string_existsb p s'
  end.

(** [s.startsWith(p)] *)
Definition startsWith (p s : string) : bool := String.prefix p s.

(** The decimal digits of an integer, with a minus sign when it is
    negative. *)
Definition string_of_Z (z : Z) : string :=
  NilZero.string_of_int (Z.to_int z).

Definition string_of_nat (n : nat) : string :=
  NilZero.string_of_uint (Nat.to_uint n).

(** [s.slice(0, n)] and [s.slice(n)] *)
Fixpoint slice_to (n : nat) (s : string) : string :=
  match n, s with
  | S n', String c s' => String c (slice_to n' s')
  | _, _ => EmptyString
  end.

Fixpoint slice_from (n : nat) (s : string) : string :=
  match n, s with
  | O, _ => s
  | S n', String _ s' => slice_from n' s'
  | S _, EmptyString => EmptyString
  end.

(** [n] zeros. *)
Fixpoint zeros (n : nat) : string :=
  match n with
  | O => EmptyString
  | S n' => String "0" (zeros n')
  end.

(** The text without its trailing zeros. *)
Fixpoint strip_zeros (s : string) : string :=
  match s with
  | EmptyString => EmptyString
  | String c s' =>
      match strip_zeros s' with
      | EmptyString => if Ascii.eqb c "0" then EmptyString else String c EmptyString
      | rest => String c rest
      end
  end.

(** An array index: the canonical decimal text of an integer from 0 to
    2^32 - 2.  The keys of this form are enumerated first. *)
Definition array_index (k : string) : option N :=
  match NilZero.uint_of_string k with
  | Some d =>
      let n := N.of_uint d in
      if String.eqb (NilZero.string_of_uint (N.to_uint n)) k
         && (n <=? 4294967294)%N
      then Some n else None
  | None => None
  end.

(** ** JavaScript values *)

(** A number, by the digits [Number::toString] writes for it.  [Int z] is
    an integer all of whose digits are significant: every integer up to
    2^53 in absolute value is one.  [Decimal negative s n] is any other
    finite number, by the triple [n], [k], [s] of [Number::toString]: [s]
    are its significant digits, [k] their number, and its absolute value
    is [s * 10^(n - k)]; so 2^60 is [Decimal false 1152921504606847 19]
    and 200.5 is [Decimal false 2005 3]. *)
Inductive jsnum :=
| NaN
| Int (z : Z)
| Infinity (negative : bool)
| Decimal (negative : bool) (s : positive) (n : Z).

Definition minus_sign (negative : bool) : string :=
  if negative then "-" else "".

(** The exponent part of a number text: [e+21], [e-7]. *)
Definition exponent_text (e : Z) : string :=
  "e" +:+ (if e <? 0 then "-" else "+") +:+ string_of_Z (Z.abs e).

(** Steps 9 and 10 of [Number::toString]: the digits [ds], with the
    decimal point after the first one, and the exponent [n - 1]. *)
Definition exponential (ds : string) (n : Z) : string :=
  match ds with
  | EmptyString => EmptyString
  | String d EmptyString => String d (exponent_text (n - 1))
  | String d rest => String d ("." +:+ rest +:+ exponent_text (n - 1))
  end.

(** Steps 6 to 10 of [Number::toString] for the digits [ds] and the
    position [n] of the decimal point. *)
Definition decimal_text (ds : string) (n : Z) : string :=
  let k := Z.of_nat (String.length ds) in
  if (k <=? n) && (n <=? 21) then ds +:+ zeros (Z.to_nat (n - k))
  else if (0 <? n) && (n <=? 21)
       then slice_to (Z.to_nat n) ds +:+ "." +:+ slice_from (Z.to_nat n) ds
  else if (-6 <? n) && (n <=? 0) then "0." +:+ zeros (Z.to_nat (- n)) +:+ ds
  else exponential ds n.

(** [String(x)] for a number [x] ([Number::toString] with radix 10): an
    integer below 10^21 is written with all its digits. *)
Definition string_of_number (x : jsnum) : string :=
  match x with
  | NaN => "NaN"
  | Infinity negative => minus_sign negative +:+ "Infinity"
  | Int z =>
      if Z.abs z <? 10 ^ 21 then string_of_Z z
      else
        let ds := string_of_Z (Z.abs z) in
        minus_sign (z <? 0)
        +:+ exponential (strip_zeros ds) (Z.of_nat (String.length ds))
  | Decimal negative s n =>
      minus_sign negative +:+ decimal_text (string_of_Z (Z.pos s)) n
  end.

(** [JFun returns value] is a function value: called without arguments
    (the body accessor of an api-client response) it returns [value] when
    [returns] holds and throws [value] otherwise. *)
Inductive jsval :=
| JUndefined
| JNull
| JBool (b : bool)
| JNum (n : jsnum)
| JStr (s : string)
| JArr (items : list jsval)
| JObj (fields : list (string * jsval))
| JFun (returns : bool) (value : jsval).

(** Induction on a value, with the hypothesis for every item of an array
    and every property of an object. *)
Section ValueInduction.
Variable P : jsval -> Prop.
Hypothesis P_undefined : P JUndefined.
Hypothesis P_null : P JNull.
Hypothesis P_bool : forall b, P (JBool b).
Hypothesis P_num : forall n, P (JNum n).
Hypothesis P_str : forall s, P (JStr s).
Hypothesis P_arr : forall items, Forall P items -> P (JArr items).
Hypothesis P_obj : forall fields, Forall (fun kv => P (snd kv)) fields -> P (JObj fields).
Hypothesis P_fun : forall t r, P r -> P (JFun t r).

Fixpoint jsval_induction (v : jsval) : P v :=
  match v with
  | JUndefined => P_undefined
  | JNull => P_null
  | JBool b => P_bool b
  | JNum n => P_num n
  | JStr s => P_str s
  | JArr items =>
      P_arr items
        ((fix all (l : list jsval) : Forall P l :=
            match l with
            | [] => @List.Forall_nil _ P
            | x :: l' => @List.Forall_cons _ P x l' (jsval_induction x) (all l')
            end) items)
  | JObj fields =>
      P_obj fields
        ((fix all (l : list (string * jsval)) : Forall (fun kv => P (snd kv)) l :=
            match l with
            | [] => @List.Forall_nil _ (fun kv => P (snd kv))
            | kv :: l' =>
                @List.Forall_cons _ (fun kv => P (snd kv)) kv l'
                                  (jsval_induction (snd kv)) (all l')
            end) fields)
  | JFun t r => P_fun t r (jsval_induction r)
  end.
End ValueInduction.

(** src/types.ts: [ValidationError] and [ValidationResult]; an optional
    property is an [option].  Every error of the sources has the property
    [actual]: [err_actual] is [Some v] for its value [v], and [None] says
    that the value is a member inherited from a prototype, which is no
    value of the model. *)
Record ValidationError := {
  err_path : string;
  err_message : string;
  err_keyword : option string;
  err_expected : option jsval;
  err_actual : option jsval
}.

Record ValidationResult := {
  valid : bool;
  errors : option (list ValidationError)
}.

(** What a [throw] carries: [new Error(message)], a [TypeError] of the
    language, the [AssertionError] of [isValidResponse] with its [actual]
    property (its message text is not modelled), and a value thrown by
    code of the response (a conversion, the body accessor). *)
Inductive error :=
| JsError (message : string)
| JsTypeError
| JsAssertionError (actual : option (list ValidationError))
| JsThrown (value : jsval).

Inductive outcome (A : Type) :=
| Ok (a : A)
| Throw (e : error)
| Outside.
Arguments Ok {A} a.
Arguments Throw {A} e.
Arguments Outside {A}.

(** Sequencing: the first exception ends the computation.  With these
    instances [x ← m; k] is stdpp's notation for it. *)
#[export] Instance outcome_ret : MRet outcome := fun A a => Ok a.
#[export] Instance outcome_bind : MBind outcome := fun A B k m =>
  match m with
  | Ok a => k a
  | Throw e => Throw e
  | Outside => Outside
  end.

(** A loop whose body can throw: the first exception ends it. *)
Fixpoint fold_outcome {A B} (f : A -> B -> outcome A) (l : list B) (a : A)
    : outcome A :=
  match l with
  | [] => Ok a
  | x :: l' => a' ← f a x; fold_outcome f l' a'
  end.

Definition map_outcome {A B} (f : A -> outcome B) : list A -> outcome (list B) :=
  fix go (l : list A) : outcome (list B) :=
    match l with
    | [] => Ok []
    | x :: l' => y ← f x; ys ← go l'; Ok (y :: ys)
    end.

(** An outcome whose exception, if it is one, satisfies [P]. *)
Definition throws_only {A} (P : error -> Prop) (o : outcome A) : Prop :=
  match o with
  | Throw e => P e
  | _ => True
  end.

(** *** Objects as property lists *)

(** The names of the members of [Object.prototype], which every ordinary
    object inherits. *)
Definition object_prototype_names : list string :=
  ["constructor"; "__defineGetter__"; "__defineSetter__"; "hasOwnProperty";
   "__lookupGetter__"; "__lookupSetter__"; "isPrototypeOf";
   "propertyIsEnumerable"; "toString"; "valueOf"; "__proto__";
   "toLocaleString"].

Definition inherited_name (k : string) : bool :=
  existsb (String.eqb k) object_prototype_names.

(** In the enumeration order, a new key [k] comes before the key [k'] that
    is there: an array index before every key that is none and before
    every greater index. *)
Definition comes_before (k k' : string) : bool :=
  match array_index k with
  | Some n =>
      match array_index k' with
      | Some n' => (n <? n')%N
      | None => true
      end
  | None => false
  end.

Section Objects.
Context {V : Type}.

(** [o[k]] on own properties. *)
Fixpoint obj_get (o : list (string * V)) (k : string) : option V :=
  match o with
  | [] => None
  | (k', v) :: o' => if String.eqb k' k then Some v else obj_get o' k
  end.

(** [Object.keys(o)] *)
Definition obj_keys (o : list (string * V)) : list string := map fst o.

(** [k in o] on own properties. *)
Definition obj_has (o : list (string * V)) (k : string) : bool :=
  match obj_get o k with Some _ => true | None => false end.

(** The value of an existing property is replaced where it is. *)
Fixpoint obj_update (k : string) (v : V) (o : list (string * V))
    : list (string * V) :=
  match o with
  | [] => []
  | (k', v') :: o' =>
      if String.eqb k' k then (k, v) :: o' else (k', v') :: obj_update k v o'
  end.

(** A new property takes its place in the enumeration order. *)
Fixpoint obj_insert (k : string) (v : V) (o : list (string * V))
    : list (string * V) :=
  match o with
  | [] => [(k, v)]
  | (k', v') :: o' =>
      if comes_before k k' then (k, v) :: o
      else (k', v') :: obj_insert k v o'
  end.

(** Defining the own property [k] of [o] with the value [v], as an object
    literal and the spread syntax do. *)
Definition obj_set (k : string) (v : V) (o : list (string * V))
    : list (string * V) :=
  if obj_has o k then obj_update k v o else obj_insert k v o.

(** The assignment [o[k] = v] with a computed key.  When [o] has no own
    property [__proto__], assigning to that key runs the setter inherited
    from [Object.prototype], which creates no property. *)
Definition obj_assign (k : string) (v : V) (o : list (string * V))
    : list (string * V) :=
  if String.eqb k "__proto__" && negb (obj_has o k) then o
  else obj_set k v o.

(** The rest pattern [{ k: _, ...rest } = o]. *)
Definition obj_without (k : string) (o : list (string * V))
    : list (string * V) :=
  List.filter (fun kv => negb (String.eqb (fst kv) k)) o.

(** [{ ...o, ...extra }] *)
Definition obj_merge (o extra : list (string * V)) : list (string * V) :=
  fold_left (fun acc kv => obj_set (fst kv) (snd kv) acc) extra o.
End Objects.

(** The index properties ["0"], ["1"], ... of an array or of a string. *)
Definition indexed {A} (l : list A) : list (string * A) :=
  zip (map string_of_nat (seq 0 (length l))) l.

Definition is_function (v : jsval) : bool :=
  match v with JFun _ _ => true | _ => false end.

(** The own property [k] of a value with [typeof v === 'object']: the
    properties of an object; the items and the [length] of an array. *)
Definition own_property (v : jsval) (k : string) : option jsval :=
  match v with
  | JObj fields => obj_get fields k
  | JArr items =>
      if String.eqb k "length" then Some (JNum (Int (Z.of_nat (length items))))
      else obj_get (indexed items) k
  | _ => None
  end.

(** What [k in v] and [v[k]] find for a computed key [k]. *)
Inductive member :=
| Own (value : jsval)
| Absent
| Inherited.

(** [k in v] together with [v[k]] for an object or an array [v].  A key
    that is no own property is inherited when [Object.prototype] has it.
    Of the prototype of an array the model only says that no name made of
    digits is in it: every other key that an array does not own counts as
    inherited. *)
Definition read_member (v : jsval) (k : string) : member :=
  match own_property v k with
  | Some value => Own value
  | None =>
      match v with
      | JObj _ => if inherited_name k then Inherited else Absent
      | JArr _ => if string_forallb is_digit k then Absent else Inherited
      | _ => Absent
      end
  end.

(** [!!v] *)
Definition truthy (v : jsval) : bool :=
  match v with
  | JUndefined | JNull => false
  | JBool b => b
  | JNum NaN => false
  | JNum (Int z) => negb (z =? 0)
  | JNum (Infinity _) | JNum (Decimal _ _ _) => true
  | JStr s => nonempty s
  | JArr _ | JObj _ | JFun _ _ => true
  end.

(** [typeof v === 'object'] *)
Definition typeof_object (v : jsval) : bool :=
  match v with
  | JNull | JArr _ | JObj _ => true
  | _ => false
  end.

(** [a || b] *)
Definition js_or (a b : jsval) : jsval := if truthy a then a else b.

(** [a ?? b] *)
Definition js_nullish (a b : jsval) : jsval :=
  match a with
  | JUndefined | JNull => b
  | _ => a
  end.

(** [o.k] where [o] is a property list; an absent property reads as
    [undefined]. *)
Definition field (o : list (string * jsval)) (k : string) : jsval :=
  default JUndefined (obj_get o k).

(** [v.k] for one of the property names the sources read ([method], [url],
    [path]): a [TypeError] on [undefined] and [null], the own property of an
    object, [undefined] on every other value. *)
Definition get_member (v : jsval) (k : string) : outcome jsval :=
  match v with
  | JUndefined | JNull => Throw JsTypeError
  | JObj fields => Ok (field fields k)
  | _ => Ok JUndefined
  end.

(** The built-ins the sources call. *)
Class JsRuntime := {
  (** [Number(v)], which can run code of [v] and throw. *)
  ToNumber : jsval -> outcome jsnum;
  (** [String(v)], which can run code of [v] and throw. *)
  ToString : jsval -> outcome string;
  (** [s.toUpperCase()] and [s.toLowerCase()] *)
  toUpperCase : string -> string;
  toLowerCase : string -> string;
  (** The code units of a text, each as a text: [s[0]], [s[1]], ... *)
  code_units : string -> list string;
  (** [new URL(s).pathname], or the exception of the constructor. *)
  url_pathname : string -> outcome string
}.

(** [Object.entries(v)], which is also what [{ ...v }] copies. *)
Definition entries `{JsRuntime} (v : jsval) : list (string * jsval) :=
  match v with
  | JObj fields => fields
  | JArr items => indexed items
  | JStr s => indexed (map JStr (code_units s))
  | _ => []
  end.

(** A compiled validator, called on a body: the boolean it returns and the
    [errors] property it leaves behind ([None] for [null]). *)
Record AjvError := {
  instancePath : string;
  ajv_message : option string;
  ajv_keyword : string;
  ajv_params : jsval
}.

Definition ValidateFunction : Type := jsval -> bool * option (list AjvError).

(** The schema engine.  One instance serves a whole build and keeps what
    it has compiled: [Ajv] is its state, [ajv_new] the state of
    [new Ajv2020(...)] after [addFormats], and [ajv_compile] the call
    [ajv.compile(schema)], which changes the state and returns the
    validator, or [None] when it throws. *)
Class SchemaEngine := {
  Ajv : Type;
  ajv_new : Ajv;
  ajv_compile : Ajv -> jsval -> Ajv * option ValidateFunction
}.

(** ** src/path_matcher.ts *)

(** The intermediate result of [tryMatch]. *)
Record Candidate := {
  specPath : string;
  cand_params : gmap string string;
  score : Z
}.

Record PathMatchResult := {
  matched : string;
  params : gmap string string
}.

(** The tail of [/^\{(\w+)\}$/] after the opening brace: the word
    characters read so far are returned when the closing brace ends the
    segment. *)
Fixpoint word_then_close (s : string) : option string :=
  match s with
  | EmptyString => None
  | String c EmptyString => if Ascii.eqb c "}" then Some EmptyString else None
  | String c s' =>
      if is_word_char c then String c <$> word_then_close s' else None
  end.

(** [specSegment.match(/^\{(\w+)\}$/)]; the result is capture group 1. *)
Definition paramMatch (specSegment : string) : option string :=
  match specSegment with
  | String c rest =>
      if Ascii.eqb c "{" then
        match word_then_close rest with
        | Some (String d name) => Some (String d name)
        | _ => None
        end
      else None
  | EmptyString => None
  end.

(** [params[name] = requestSegment] on the object [params], which starts
    as [{}]: the name [__proto__] reaches the setter inherited from
    [Object.prototype], which ignores a string and binds nothing. *)
Definition bind_param (name requestSegment : string) (ps : gmap string string)
    : gmap string string :=
  if String.eqb name "__proto__" then ps else <[name := requestSegment]> ps.

(** The body of the [for] loop of [tryMatch], over the segments at equal
    indices; [None] is the early [return null]. *)
Fixpoint tryMatch_loop (pairs : list (string * string))
    (ps : gmap string string) (sc : Z) : option (gmap string string * Z) :=
  match pairs with
  | [] => Some (ps, sc)
  | (specSegment, requestSegment) :: rest =>
      match paramMatch specSegment with
      | Some name => tryMatch_loop rest (bind_param name requestSegment ps) (sc + 1)
      | None =>
          if String.eqb specSegment requestSegment
          then tryMatch_loop rest ps (sc + 10)
          else None
      end
  end.

Definition tryMatch (requestPath specPath : string) : option Candidate :=
  let requestSegments := segments requestPath in
  let specSegments := segments specPath in
  if negb (Nat.eqb (length requestSegments) (length specSegments)) then None
  else
    match tryMatch_loop (zip specSegments requestSegments) ∅ 0 with
    | Some (ps, sc) =>
        Some {| specPath := specPath; cand_params := ps; score := sc |}
    | None => None
    end.

(** [matches.sort((a, b) => b.score - a.score)].  The sort of an array is
    stable, and the stable arrangement by decreasing score is unique: it is
    the one this insertion sort computes. *)
Fixpoint insert_by_score (m : Candidate) (l : list Candidate) : list Candidate :=
  match l with
  | [] => [m]
  | y :: l' =>
      if score m <? score y then y :: insert_by_score m l' else m :: l
  end.

Fixpoint sort_by_score (l : list Candidate) : list Candidate :=
  match l with
  | [] => []
  | m :: l' => insert_by_score m (sort_by_score l')
  end.

Definition cleanPath (requestPath : string) : string :=
  or_else (strip_trailing_slash (List.hd "" (split "?" requestPath))) "/".

Definition matchPath (requestPath : string) (specPaths : list string)
    : option PathMatchResult :=
  let matches := omap (tryMatch (cleanPath requestPath)) specPaths in
  match matches with
  | [] => None
  | _ :: _ =>
      match sort_by_score matches with
      | best :: _ =>
          Some {| matched := specPath best; params := cand_params best |}
      | [] => None
      end
  end.


(** ** src/schema_builder.ts *)

(** *** Reference resolution *)

(** [s.replace(/ab/g, r)] for a two-character pattern [ab]. *)
Fixpoint replace_pair (a b r : ascii) (s : string) : string :=
  match s with
  | EmptyString => EmptyString
  | String c t =>
      match t with
      | String d t' =>
          if Ascii.eqb c a && Ascii.eqb d b
          then String r (replace_pair a b r t')
          else String c (replace_pair a b r t)
      | EmptyString => String c EmptyString
      end
  end.

(** [segment.replace(/~1/g, '/').replace(/~0/g, '~')] *)
Definition decode_pointer_segment (segment : string) : string :=
  replace_pair "~" "0" "~" (replace_pair "~" "1" "/" segment).

(** [ref.slice(2)] *)
Definition slice2 (s : string) : string :=
  match s with
  | String _ (String _ s') => s'
  | _ => EmptyString
  end.

(** The loop of [resolveLocalRef]: [Own v] when it returns [v], [Absent]
    when it returns [undefined] at a segment that is not in the value
    reached, [Inherited] when a segment names an inherited member, which
    the loop of the source follows and the model does not. *)
Fixpoint walk_pointer (path : list string) (current : jsval) : member :=
  match path with
  | [] => Own current
  | segment :: path' =>
      let decoded := decode_pointer_segment segment in
      if truthy current && typeof_object current then
        match read_member current decoded with
        | Own next => walk_pointer path' next
        | Absent => Absent
        | Inherited => Inherited
        end
      else Absent
  end.

Definition resolveLocalRef (ref : string) (root : jsval) : member :=
  walk_pointer (split "/" (slice2 ref)) root.

Definition is_undefined (v : jsval) : bool :=
  match v with JUndefined => true | _ => false end.

(** What the [$ref] of a record leads to: [Own resolved] when the record
    is resolved in place of its reference ([$ref] is a string, starts with
    [#/] and the pointer leads to a value that is not [undefined]),
    [Absent] when the record is treated as any other object, [Inherited]
    when the pointer goes through an inherited member. *)
Definition ref_target (record : list (string * jsval)) (root : jsval)
    : member :=
  match obj_get record "$ref" with
  | Some (JStr ref) =>
      if startsWith "#/" ref then
        match resolveLocalRef ref root with
        | Own resolved => if is_undefined resolved then Absent else Own resolved
        | Absent => Absent
        | Inherited => Inherited
        end
      else Absent
  | _ => Absent
  end.

(** A value that the setter of [__proto__] takes as the new prototype: an
    object or [null]. *)
Definition sets_prototype (v : jsval) : bool :=
  match v with
  | JNull | JArr _ | JObj _ | JFun _ _ => true
  | _ => false
  end.

(** [resolveRefsInObject(obj, root)].  The recursion follows references
    into [root], so it is not structural: [fuel] bounds the depth of the
    calls.  [None] stands for a run the embedding does not describe: one
    that needs more fuel (a reference cycle never returns), one that
    follows a pointer through an inherited member, or one that gives the
    result another prototype.  The loop that copies an object assigns
    [result[key]] for every key: the keys of an object are distinct and
    enumerated in order, so the properties of the result are those
    assigned, in the same order, except for the key [__proto__], whose
    assignment creates no property and, for an object or [null], changes
    the prototype of the result. *)
Fixpoint resolveRefsInObject `{JsRuntime} (fuel : nat) (obj root : jsval)
    : option jsval :=
  match fuel with
  | O => None
  | S fuel' =>
      match obj with
      | JArr items =>
          JArr <$> mapM (fun item => resolveRefsInObject fuel' item root) items
      | JObj record =>
          match ref_target record root with
          | Own resolved =>
              let rest := obj_without "$ref" record in
              match resolveRefsInObject fuel' resolved root with
              | Some resolved' =>
                  if (0 <? length rest)%nat
                  then Some (JObj (obj_merge (entries resolved') rest))
                  else Some resolved'
              | None => None
              end
          | Absent =>
              match mapM (fun kv =>
                            pair (fst kv) <$> resolveRefsInObject fuel' (snd kv) root)
                         record with
              | Some copied =>
                  if sets_prototype (field copied "__proto__") then None
                  else Some (JObj (obj_without "__proto__" copied))
              | None => None
              end
          | Inherited => None
          end
      | _ => Some obj
      end
  end.


(** *** Schema compilation *)

(** [id.match(/^[^#]*#?$/)] *)
Fixpoint id_pattern (s : string) : bool :=
  match s with
  | EmptyString => true
  | String c EmptyString => true
  | String c s' => negb (Ascii.eqb c "#") && id_pattern s'
  end.

Definition invalid_id (record : list (string * jsval)) : bool :=
  match obj_get record "$id" with
  | Some (JStr id) => string_existsb (Ascii.eqb "#") id && negb (id_pattern id)
  | _ => false
  end.

(** [removeInvalidIds(obj)], as the value the argument holds afterwards.
    The deleted [$id] is a string, which the recursion leaves alone, so
    deleting after the recursion gives what deleting before it gives. *)
Fixpoint removeInvalidIds (obj : jsval) : jsval :=
  match obj with
  | JArr items => JArr (map removeInvalidIds items)
  | JObj record =>
      let record' := map (fun kv => (fst kv, removeInvalidIds (snd kv))) record in
      JObj (if invalid_id record then obj_without "$id" record' else record')
  | _ => obj
  end.

(** [JSON.stringify(v)] read back by [JSON.parse]: [Ok None] when [v] has
    no JSON text ([undefined], a function).  A property without JSON text
    is dropped, an array item without one is [null], and so are [NaN] and
    the infinities.  An object that brings a function [toJSON] has it
    called, which is outside the embedding. *)
Fixpoint json_value (v : jsval) : outcome (option jsval) :=
  match v with
  | JUndefined | JFun _ _ => Ok None
  | JNum NaN | JNum (Infinity _) => Ok (Some JNull)
  | JArr items =>
      items' ← map_outcome (fun x => r ← json_value x; Ok (default JNull r)) items;
      Ok (Some (JArr items'))
  | JObj record =>
      if is_function (field record "toJSON") then Outside
      else
        record' ← map_outcome
                    (fun kv =>
                       r ← json_value (snd kv);
                       Ok (option_map (pair (fst kv)) r))
                    record;
        Ok (Some (JObj (omap id record')))
  | _ => Ok (Some v)
  end.

(** [compileSchema(ajv, schema, _schemaId)]: the state of the engine
    afterwards and the validator, [None] when the call throws: in
    [JSON.parse], for a schema without JSON text, or in the engine. *)
Definition compileSchema `{SchemaEngine} (ajv : Ajv) (schema : jsval)
    : outcome (Ajv * option ValidateFunction) :=
  match json_value schema with
  | Ok (Some schemaCopy) => Ok (ajv_compile ajv (removeInvalidIds schemaCopy))
  | Ok None | Throw _ => Ok (ajv, None)
  | Outside => Outside
  end.

(** *** The validator table (src/types.ts) *)

Record MediaTypeObject := {
  schema : option jsval
}.

Record OpenAPIResponse := {
  content : option (list (string * MediaTypeObject))
}.

Record OpenAPIOperation := {
  op_responses : option (list (string * OpenAPIResponse))
}.

Record OpenAPIPathItem := {
  item_get : option OpenAPIOperation;
  item_post : option OpenAPIOperation;
  item_put : option OpenAPIOperation;
  item_patch : option OpenAPIOperation;
  item_delete : option OpenAPIOperation;
  item_options : option OpenAPIOperation;
  item_head : option OpenAPIOperation;
  item_trace : option OpenAPIOperation
}.

(** A path of the document may hold [null], which the builder skips. *)
Record OpenAPIDocument := {
  paths : option (list (string * option OpenAPIPathItem))
}.

Record ResponseValidators := {
  body : option ValidateFunction
}.

Record OperationValidators := {
  responses : list (string * ResponseValidators)
}.

Definition CompiledValidators : Type :=
  list (string * list (string * OperationValidators)).

Record CoverageEntry := {
  route : string;
  method : string;
  statuses : list string
}.

Definition HTTP_METHODS : list string :=
  ["get"; "post"; "put"; "patch"; "delete"; "options"; "head"; "trace"].

(** [pathItem[method]] for a method of [HTTP_METHODS]. *)
Definition operation_of (pathItem : OpenAPIPathItem) (m : string)
    : option OpenAPIOperation :=
  if String.eqb m "get" then item_get pathItem
  else if String.eqb m "post" then item_post pathItem
  else if String.eqb m "put" then item_put pathItem
  else if String.eqb m "patch" then item_patch pathItem
  else if String.eqb m "delete" then item_delete pathItem
  else if String.eqb m "options" then item_options pathItem
  else if String.eqb m "head" then item_head pathItem
  else if String.eqb m "trace" then item_trace pathItem
  else None.

(** *** buildPathValidators *)

Section Builder.
Context `{JsRuntime} `{SchemaEngine}.

(** What the builder has written so far: the two arrays it is given, the
    lines sent to [console.warn], and the state of the engine it is
    given. *)
Record BuildState := {
  validators : CompiledValidators;
  coverageEntries : list CoverageEntry;
  warnings : list string;
  engine : Ajv
}.

(** [response.content?.['application/json']] and then [jsonContent?.schema],
    kept when it is truthy. *)
Definition json_schema (response : OpenAPIResponse) : option jsval :=
  match content response with
  | Some media =>
      match obj_get media "application/json" with
      | Some jsonContent =>
          match schema jsonContent with
          | Some sch => if truthy sch then Some sch else None
          | None => None
          end
      | None => None
      end
  | None => None
  end.

Definition compile_warning (m path statusCode : string) : string :=
  "Warning: Failed to compile schema for " +:+ toUpperCase m +:+ " "
  +:+ path +:+ " " +:+ statusCode +:+ ":".

(** The body of the loop over [Object.entries(operation.responses)]: the
    [responses] object of the operation, the local [statuses], the
    warnings, the engine. *)
Definition build_response (path m : string)
    (acc : list (string * ResponseValidators) * list string * list string * Ajv)
    (entry : string * OpenAPIResponse)
    : outcome (list (string * ResponseValidators) * list string * list string * Ajv) :=
  let '(table, sts, warns, ajv) := acc in
  let statusCode := fst entry in
  let sts := sts ++ [statusCode] in
  match json_schema (snd entry) with
  | Some sch =>
      compiled ← compileSchema ajv sch;
      match compiled with
      | (ajv', Some bodyValidator) =>
          Ok (obj_assign statusCode {| body := Some bodyValidator |} table,
              sts, warns, ajv')
      | (ajv', None) =>
          Ok (table, sts, warns ++ [compile_warning m path statusCode], ajv')
      end
  | None => Ok (obj_assign statusCode {| body := None |} table, sts, warns, ajv)
  end.

(** The body of the loop over [HTTP_METHODS].  The object stored under
    [validators[path][method]] is written once the loop over the responses
    has filled it: nothing reads it in between.  [validators[path]] is the
    own property that the loop over the paths has assigned. *)
Definition build_method (path : string)
    (pathItem : OpenAPIPathItem) (st : BuildState) (m : string)
    : outcome BuildState :=
  match operation_of pathItem m with
  | Some operation =>
      match op_responses operation with
      | Some declared =>
          acc ← fold_outcome (build_response path m) declared
                             ([], [], warnings st, engine st);
          let '(table, sts, warns, ajv) := acc in
          Ok {| validators :=
                  obj_set path
                    (obj_set m {| responses := table |}
                             (default [] (obj_get (validators st) path)))
                    (validators st);
                coverageEntries :=
                  if (0 <? length sts)%nat
                  then coverageEntries st
                         ++ [{| route := path; method := toUpperCase m;
                                statuses := sts |}]
                  else coverageEntries st;
                warnings := warns;
                engine := ajv |}
      | None => Ok st
      end
  | None => Ok st
  end.

(** The first statement of the loop over the paths:
    [validators[path] = validators[path] || {}], for a path that is not
    the name of an inherited member: [validators[path]] reads an own
    property or [undefined]. *)
Definition open_path (path : string) (st : BuildState) : BuildState :=
  {| validators :=
       obj_set path (default [] (obj_get (validators st) path)) (validators st);
     coverageEntries := coverageEntries st;
     warnings := warnings st;
     engine := engine st |}.

(** The body of the loop over [Object.entries(spec.paths)].  For a path
    with the name of an inherited member the assignments go to that
    member, or into [Object.prototype]: this is outside the embedding. *)
Definition build_path (st : BuildState)
    (entry : string * option OpenAPIPathItem) : outcome BuildState :=
  match snd entry with
  | None => Ok st
  | Some pathItem =>
      let path := fst entry in
      if inherited_name path then Outside
      else fold_outcome (build_method path pathItem) HTTP_METHODS
                        (open_path path st)
  end.

Definition buildPathValidators (spec : OpenAPIDocument)
    (st : BuildState) : outcome BuildState :=
  match paths spec with
  | None => Ok st
  | Some declared => fold_outcome build_path declared st
  end.

(** The state at the start of [buildValidatorsSync]. *)
Definition empty_build : BuildState :=
  {| validators := []; coverageEntries := []; warnings := [];
     engine := ajv_new |}.
End Builder.

(** ** src/response_validator.ts *)

Record ParsedResponse := {
  res_method : string;
  res_path : string;
  res_status : jsnum;
  res_headers : list (string * string);
  res_body : jsval
}.

(** [n || 0] for a number [n] *)
Definition number_or_zero (n : jsnum) : jsnum :=
  if truthy (JNum n) then n else Int 0.

(** [statusCode[0]] inside a template literal. *)
Definition first_char (s : string) : string :=
  match s with
  | String c _ => String c EmptyString
  | EmptyString => "undefined"
  end.

(** [typeof v === 'function' ? v() : v] *)
Definition call_if_function (v : jsval) : outcome jsval :=
  match v with
  | JFun true value => Ok value
  | JFun false value => Throw (JsThrown value)
  | _ => Ok v
  end.

Section ResponseValidator.
Context `{JsRuntime}.

(** [extractPath(url)].  A value that is no string has no [startsWith] and
    no [split], unless it is an object that brings one of them as a
    function, whose calls are outside the embedding: on any other value
    the call in the [try] block throws, and so does the one in the [catch]
    block. *)
Definition extractPath (url : jsval) : outcome string :=
  match url with
  | JStr s =>
      if startsWith "http://" s || startsWith "https://" s then
        match url_pathname s with
        | Ok pathname => Ok pathname
        | Throw _ => Ok (List.hd "" (split "?" s))
        | Outside => Outside
        end
      else Ok (List.hd "" (split "?" s))
  | JObj fields =>
      if is_function (field fields "startsWith") || is_function (field fields "split")
      then Outside
      else Throw JsTypeError
  | _ => Throw JsTypeError
  end.

(** [normalizeHeaders(headers)]: the loop stops at the first [String]
    that throws. *)
Definition normalizeHeaders (headers : jsval) : outcome (list (string * string)) :=
  fold_left
    (fun acc kv =>
       result ← acc;
       text ← ToString (snd kv);
       Ok (obj_assign (toLowerCase (fst kv)) text result))
    (entries headers) (Ok []).

Definition unknown_format : string :=
  "Unknown response format: could not extract method, path, status, or body".

(** The object literal that the four shapes return, its properties
    evaluated in the order in which they are written: [m] is the value
    whose text is the method, [read_url] reads the url, [st] is the value
    converted to the status. *)
Definition parsed_from (m : outcome jsval) (read_url : outcome jsval)
    (st : jsval) (headers : jsval) (body : outcome jsval)
    : outcome ParsedResponse :=
  m ← m;
  method_text ← ToString (js_or m (JStr "GET"));
  url ← read_url;
  p ← extractPath url;
  status ← ToNumber st;
  hs ← normalizeHeaders (js_or headers (JObj []));
  b ← body;
  Ok {| res_method := toUpperCase method_text;
        res_path := p;
        res_status := number_or_zero status;
        res_headers := hs;
        res_body := b |}.

(** [member.url || '/'] after [member.method] has been read. *)
Definition url_or_root (v : jsval) (k : string) : outcome jsval :=
  url ← get_member v k;
  Ok (js_or url (JStr "/")).

(** The four shapes tried once the wrapper test has failed, in the order
    of the source; [res] holds the own properties of the response. *)
Definition parse_shapes (res : list (string * jsval)) : outcome ParsedResponse :=
  if obj_has res "request" && obj_has res "statusCode" then
    let request := field res "request" in
    parsed_from (get_member request "method") (url_or_root request "url")
                (field res "statusCode") (field res "headers")
                (call_if_function (field res "body"))
  else if obj_has res "data" && obj_has res "config" && obj_has res "status" then
    let config := field res "config" in
    parsed_from (get_member config "method") (url_or_root config "url")
                (field res "status") (field res "headers")
                (Ok (field res "data"))
  else if obj_has res "body" && obj_has res "req" && obj_has res "statusCode" then
    let req := field res "req" in
    parsed_from (get_member req "method") (url_or_root req "path")
                (field res "statusCode") (field res "headers")
                (Ok (field res "body"))
  else if obj_has res "status" || obj_has res "statusCode" then
    parsed_from (Ok (field res "method"))
                (Ok (js_or (field res "url") (js_or (field res "path") (JStr "/"))))
                (js_or (field res "status") (field res "statusCode"))
                (field res "headers")
                (Ok (js_nullish (field res "body")
                                (js_nullish (field res "data") JNull)))
  else Throw (JsError unknown_format).

(** [parseResponse(response)].  The inner loop finds the own property
    [response] of the argument; the recursive call is on its value. *)
Fixpoint parseResponse (response : jsval) : outcome ParsedResponse :=
  match response with
  | JObj res =>
      (fix find_wrapper (l : list (string * jsval)) : outcome ParsedResponse :=
         match l with
         | [] => parse_shapes res
         | (k, inner) :: l' =>
             if String.eqb k "response" then
               if truthy inner && typeof_object inner
               then parseResponse inner
               else parse_shapes res
             else find_wrapper l'
         end) res
  | JArr items => parse_shapes (indexed items)
  | _ => Throw (JsError "Invalid response: expected an object")
  end.

(** The loop of [getValueAtPath]; [None] when a part names an inherited
    member, whose value is no value of the model. *)
Fixpoint walk_parts (parts : list string) (current : jsval) : option jsval :=
  match parts with
  | [] => Some current
  | part :: parts' =>
      match current with
      | JNull | JUndefined => Some JUndefined
      | _ =>
          if typeof_object current then
            match read_member current part with
            | Own next => walk_parts parts' next
            | Absent => walk_parts parts' JUndefined
            | Inherited => None
            end
          else Some JUndefined
      end
  end.

Definition getValueAtPath (obj : jsval) (path : string) : option jsval :=
  if negb (nonempty path) then Some obj
  else if negb (truthy obj) || negb (typeof_object obj) then Some JUndefined
  else walk_parts (segments path) obj.

(** [responses[statusCode] || responses['default'] ||
     responses[`${statusCode[0]}XX`]]: an entry is an object, hence
    truthy, so [||] falls through exactly on an absent key. *)
Definition select_response (table : list (string * ResponseValidators))
    (statusCode : string) : option ResponseValidators :=
  match obj_get table statusCode with
  | Some rv => Some rv
  | None =>
      match obj_get table "default" with
      | Some rv => Some rv
      | None => obj_get table (first_char statusCode +:+ "XX")
      end
  end.

Definition body_error (parsed_body : jsval) (err : AjvError) : ValidationError :=
  {| err_path := or_else (instancePath err) "";
     err_message :=
       match ajv_message err with
       | Some msg => or_else msg "Validation failed"
       | None => "Validation failed"
       end;
     err_keyword := Some (ajv_keyword err);
     err_expected := Some (ajv_params err);
     err_actual :=
       getValueAtPath parsed_body (or_else (instancePath err) "") |}.

(** The last step of [validateResponse]: the body validator, if any. *)
Definition validate_body (responseValidator : ResponseValidators)
    (parsed_body : jsval) : ValidationResult :=
  match body responseValidator with
  | Some validate =>
      match validate parsed_body with
      | (false, Some errs) =>
          {| valid := false; errors := Some (map (body_error parsed_body) errs) |}
      | _ => {| valid := true; errors := None |}
      end
  | None => {| valid := true; errors := None |}
  end.

Definition strings (l : list string) : jsval := JArr (map JStr l).

(** [validators[path]?.[method]] as [validateResponse] uses it: the path
    is a key of the table.  A method that is no own property but the name
    of an inherited member reads that member, which is truthy and has no
    [responses]: the lookup of the status in it throws. *)
Definition lookup_operation (validators : CompiledValidators) (path m : string)
    : outcome (option OperationValidators) :=
  match obj_get validators path with
  | Some methods =>
      match obj_get methods m with
      | Some pathValidators => Ok (Some pathValidators)
      | None => if inherited_name m then Throw JsTypeError else Ok None
      end
  | None => Ok None
  end.

(** [validateResponse] from the parsed response on. *)
Definition validate_parsed (parsed : ParsedResponse)
    (validators : CompiledValidators) : outcome ValidationResult :=
  let specPaths := obj_keys validators in
  match matchPath (res_path parsed) specPaths with
  | None =>
      Ok {| valid := false;
            errors := Some [
              {| err_path := "";
                 err_message :=
                   "No matching path found in OpenAPI spec for "
                   +:+ res_method parsed +:+ " " +:+ res_path parsed;
                 err_keyword := None;
                 err_expected := Some (strings specPaths);
                 err_actual := Some (JStr (res_path parsed)) |}] |}
  | Some pathMatch =>
      let m := toLowerCase (res_method parsed) in
      let statusCode := string_of_number (res_status parsed) in
      operation ← lookup_operation validators (matched pathMatch) m;
      match operation with
      | None =>
          Ok {| valid := false;
                errors := Some [
                  {| err_path := "";
                     err_message :=
                       "No " +:+ res_method parsed +:+ " operation defined for "
                       +:+ matched pathMatch;
                     err_keyword := None;
                     err_expected := None;
                     err_actual := Some (JStr m) |}] |}
      | Some pathValidators =>
          match select_response (responses pathValidators) statusCode with
          | None =>
              Ok {| valid := false;
                    errors := Some [
                      {| err_path := "";
                         err_message :=
                           "No response schema defined for " +:+ res_method parsed
                           +:+ " " +:+ matched pathMatch +:+ " with status "
                           +:+ statusCode;
                         err_keyword := None;
                         err_expected :=
                           Some (strings (obj_keys (responses pathValidators)));
                         err_actual := Some (JStr statusCode) |}] |}
          | Some responseValidator =>
              Ok (validate_body responseValidator (res_body parsed))
          end
      end
  end.

Definition validateResponse (response : jsval)
    (validators : CompiledValidators) : outcome ValidationResult :=
  parsed ← parseResponse response;
  validate_parsed parsed validators.
End ResponseValidator.

(** ** src/coverage.ts *)

Record CoverageRecord := {
  rec_route : string;
  rec_method : string;
  rec_status : string
}.

(** The fields of the class [CoverageTracker]. *)
Record CoverageTracker := {
  allEndpoints : list CoverageRecord;
  covered : gset string;
  reportOnExit : bool;
  exportOnExit : bool;
  exitHandlerRegistered : bool
}.

(** [new CoverageTracker()] *)
Definition new_tracker : CoverageTracker :=
  {| allEndpoints := []; covered := ∅; reportOnExit := false;
     exportOnExit := false; exitHandlerRegistered := false |}.

Definition makeKey `{JsRuntime} (r m st : string) : string :=
  toUpperCase m +:+ ":" +:+ r +:+ ":" +:+ st.

Definition record_key `{JsRuntime} (e : CoverageRecord) : string :=
  makeKey (rec_route e) (rec_method e) (rec_status e).

Definition expand_entry (entry : CoverageEntry) : list CoverageRecord :=
  map (fun st => {| rec_route := route entry; rec_method := method entry;
                    rec_status := st |})
      (statuses entry).

Definition registerEndpoints (new_entries : list CoverageEntry)
    (t : CoverageTracker) : CoverageTracker :=
  {| allEndpoints := allEndpoints t ++ flat_map expand_entry new_entries;
     covered := covered t;
     reportOnExit := reportOnExit t;
     exportOnExit := exportOnExit t;
     exitHandlerRegistered := exitHandlerRegistered t |}.

Definition recordCoverage `{JsRuntime} (r m st : string) (t : CoverageTracker)
    : CoverageTracker :=
  {| allEndpoints := allEndpoints t;
     covered := covered t ∪ {[ makeKey r m st ]};
     reportOnExit := reportOnExit t;
     exportOnExit := exportOnExit t;
     exitHandlerRegistered := exitHandlerRegistered t |}.

Definition getUncovered `{JsRuntime} (t : CoverageTracker)
    : list CoverageRecord :=
  List.filter (fun e => negb (bool_decide (record_key e ∈ covered t)))
              (allEndpoints t).

(** [getStats()] without its [percentage], which is a floating point
    value. *)
Record CoverageStats := {
  total : nat;
  stats_covered : nat
}.

Definition getStats (t : CoverageTracker) : CoverageStats :=
  {| total := length (allEndpoints t); stats_covered := size (covered t) |}.

Definition enableReporting (report exportFile : bool) (t : CoverageTracker)
    : CoverageTracker :=
  {| allEndpoints := allEndpoints t;
     covered := covered t;
     reportOnExit := report;
     exportOnExit := exportFile;
     exitHandlerRegistered :=
       if (report || exportFile) && negb (exitHandlerRegistered t)
       then true else exitHandlerRegistered t |}.

(** ** src/openapi_assertions.ts *)

Record RegisterOptions := {
  reportCoverage : option bool;
  exportCoverage : option bool
}.

(** [a || b] on two optional booleans, as a condition. *)
Definition coverage_enabled (options : RegisterOptions) : bool :=
  default false (reportCoverage options) || default false (exportCoverage options).

(** The static fields of [OpenApiAssertions] and the tracker singleton. *)
Record Assertions := {
  registered_validators : option CompiledValidators;
  hasRegistered : bool;
  coverageOptions : RegisterOptions;
  coverageTracker : CoverageTracker
}.

Definition not_registered : string :=
  "Cannot validate responses without defining API schemas. "
  +:+ "Please configure the plugin with schemas.".

(** What [buildValidatorsSync] does for the spec files: it returns the
    table and the coverage entries, or throws. *)
Inductive build_result :=
| Built (vs : CompiledValidators) (new_entries : list CoverageEntry)
| BuildFailed (e : error).

(** [registerSpecs], given what [buildValidatorsSync] does for the spec
    files: it reads the files, so its result is an input here. *)
Definition registerSpecs (built : build_result)
    (options : RegisterOptions) (a : Assertions) : Assertions * outcome unit :=
  let a1 := {| registered_validators := registered_validators a;
               hasRegistered := true;
               coverageOptions := options;
               coverageTracker := coverageTracker a |} in
  match built with
  | BuildFailed e => (a1, Throw e)
  | Built vs new_entries =>
      ({| registered_validators := Some vs;
          hasRegistered := true;
          coverageOptions := options;
          coverageTracker :=
            if coverage_enabled options
            then enableReporting (default false (reportCoverage options))
                                 (default false (exportCoverage options))
                                 (registerEndpoints new_entries (coverageTracker a))
            else coverageTracker a |}, Ok tt)
  end.

Definition getValidators (a : Assertions) : outcome CompiledValidators :=
  match registered_validators a with
  | Some vs => Ok vs
  | None => Throw (JsError not_registered)
  end.

Section Assertions.
Context `{JsRuntime}.

(** The [try] block that records coverage; an exception inside it is
    swallowed. *)
Definition track_coverage (response : jsval) (vs : CompiledValidators)
    (t : CoverageTracker) : CoverageTracker :=
  match parseResponse response with
  | Ok parsed =>
      match matchPath (res_path parsed) (obj_keys vs) with
      | Some pathMatch =>
          recordCoverage (matched pathMatch) (res_method parsed)
                         (string_of_number (res_status parsed)) t
      | None => t
      end
  | Throw _ | Outside => t
  end.

Definition with_tracker (a : Assertions) (t : CoverageTracker) : Assertions :=
  {| registered_validators := registered_validators a;
     hasRegistered := hasRegistered a;
     coverageOptions := coverageOptions a;
     coverageTracker := t |}.

(** [JSON.stringify(e.expected)] and [JSON.stringify(e.actual)], with
    which the message of the [AssertionError] is put together, run a
    [toJSON] method of the value: [false] when one of them does. *)
Definition stringify_described (v : option jsval) : bool :=
  match v with
  | Some x => match json_value x with Outside => false | _ => true end
  | None => true
  end.

Definition message_described (errs : option (list ValidationError)) : bool :=
  match errs with
  | Some l =>
      forallb (fun e => stringify_described (err_expected e)
                        && stringify_described (err_actual e)) l
  | None => true
  end.

Definition isValidResponse (response : jsval) (a : Assertions)
    : Assertions * outcome unit :=
  if negb (hasRegistered a) then (a, Throw (JsError not_registered))
  else
    match getValidators a with
    | Throw e => (a, Throw e)
    | Outside => (a, Outside)
    | Ok vs =>
        match validateResponse response vs with
        | Throw e => (a, Throw e)
        | Outside => (a, Outside)
        | Ok result =>
            let a' :=
              if coverage_enabled (coverageOptions a)
              then with_tracker a (track_coverage response vs (coverageTracker a))
              else a in
            if negb (valid result)
            then
              if message_described (errors result)
              then (a', Throw (JsAssertionError (errors result)))
              else (a', Outside)
            else (a', Ok tt)
        end
    end.
End Assertions.

(** ** A runtime and an engine for the examples

    [plain_runtime] converts the way the language does: a primitive value
    directly, an object through its own [toString] and [valueOf] or the
    inherited ones ([OrdinaryToPrimitive]).  It answers [Outside] where it
    does not follow the language: on arrays and functions, and for the
    number of a text that is not made of decimal digits alone but could
    be a numeric literal, and for the pathname of a url.  Its case
    conversion and its code units are those of ASCII texts.
    [strict_engine] rejects the schemas whose [type] is not a string, and
    every schema whose [$id] it has compiled already; its state is the
    list of those identifiers.  It accepts everything else with a
    validator that always succeeds. *)

Definition is_primitive (v : jsval) : bool :=
  match v with
  | JArr _ | JObj _ | JFun _ _ => false
  | _ => true
  end.

(** A character that no numeric literal and no white space holds. *)
Definition never_numeric (c : ascii) : bool :=
  let n := nat_of_ascii c in
  (33 <=? n)%nat && (n <=? 126)%nat && negb (is_digit c)
  && negb (Ascii.eqb c "I").

Definition primitive_number (v : jsval) : outcome jsnum :=
  match v with
  | JUndefined => Ok NaN
  | JNull => Ok (Int 0)
  | JBool b => Ok (Int (if b then 1 else 0))
  | JNum n => Ok n
  | JStr s =>
      if negb (nonempty s) then Ok (Int 0)
      else if string_forallb is_digit s then
        match NilZero.uint_of_string s with
        | Some d =>
            let n := Z.of_N (N.of_uint d) in
            if n <=? 2 ^ 53 then Ok (Int n) else Outside
        | None => Outside
        end
      else if string_forallb never_numeric s then Ok NaN
      else Outside
  | _ => Outside
  end.

Definition primitive_text (v : jsval) : outcome string :=
  match v with
  | JUndefined => Ok "undefined"
  | JNull => Ok "null"
  | JBool b => Ok (if b then "true" else "false")
  | JNum n => Ok (string_of_number n)
  | JStr s => Ok s
  | _ => Outside
  end.

(** One step of [OrdinaryToPrimitive]: the method [name] of the object,
    its own or the inherited one, called when it is a function.
    [Some p] is a primitive result; [None] when the method is no function
    or returns an object. *)
Definition method_result (fields : list (string * jsval)) (name : string)
    (inherited : option jsval) : outcome (option jsval) :=
  match obj_get fields name with
  | Some (JFun true r) => Ok (if is_primitive r then Some r else None)
  | Some (JFun false r) => Throw (JsThrown r)
  | Some _ => Ok None
  | None => Ok inherited
  end.

(** [Object.prototype.toString] gives a text; [Object.prototype.valueOf]
    gives the object back. *)
Definition inherited_toString : option jsval := Some (JStr "[object Object]").
Definition inherited_valueOf : option jsval := None.

Definition to_primitive (fields : list (string * jsval))
    (first second : string * option jsval) : outcome jsval :=
  r ← method_result fields (fst first) (snd first);
  match r with
  | Some p => Ok p
  | None =>
      r' ← method_result fields (fst second) (snd second);
      match r' with
      | Some p => Ok p
      | None => Throw JsTypeError
      end
  end.

Definition plain_number (v : jsval) : outcome jsnum :=
  match v with
  | JObj fields =>
      p ← to_primitive fields ("valueOf", inherited_valueOf)
                              ("toString", inherited_toString);
      primitive_number p
  | _ => primitive_number v
  end.

Definition plain_string (v : jsval) : outcome string :=
  match v with
  | JObj fields =>
      p ← to_primitive fields ("toString", inherited_toString)
                              ("valueOf", inherited_valueOf);
      primitive_text p
  | _ => primitive_text v
  end.

Definition plain_runtime : JsRuntime :=
  {| ToNumber := plain_number;
     ToString := plain_string;
     toUpperCase := ascii_upper;
     toLowerCase := ascii_lower;
     code_units := fun s =>
       map (fun c => String c EmptyString) (list_ascii_of_string s);
     url_pathname := fun _ => Outside |}.

Definition always_valid : ValidateFunction := fun _ => (true, None).

Definition strict_compile (seen : list string) (sch : jsval)
    : list string * option ValidateFunction :=
  match sch with
  | JObj record =>
      match obj_get record "type" with
      | Some (JStr _) | None =>
          match obj_get record "$id" with
          | Some (JStr id) =>
              if existsb (String.eqb id) seen then (seen, None)
              else (id :: seen, Some always_valid)
          | _ => (seen, Some always_valid)
          end
      | Some _ => (seen, None)
      end
  | _ => (seen, Some always_valid)
  end.

Definition strict_engine : SchemaEngine :=
  {| Ajv := list string; ajv_new := []; ajv_compile := strict_compile |}.

(** ** Notions used in the statements *)

(** A template segment of the exact form [{name}]: a brace, one or more
    word characters, a brace. *)
Definition param_form (seg name : string) : Prop :=
  name <> EmptyString
  /\ string_forallb is_word_char name = true
  /\ seg = "{" +:+ name +:+ "}".

(** A template segment accepts an observed one when it is a parameter or
    the two are equal. *)
Definition segment_accepts (specSegment requestSegment : string) : Prop :=
  (exists name, param_form specSegment name) \/ specSegment = requestSegment.

(** The score of an accepted template: 10 for a literal segment, 1 for a
    parameter. *)
Definition segment_score (specSegment : string) : Z :=
  match paramMatch specSegment with
  | Some _ => 1
  | None => 10
  end.

Definition template_score (specSegments : list string) : Z :=
  fold_right (fun seg acc => segment_score seg + acc) 0 specSegments.

(** *** Runs of the coverage tracker and of the assertions *)

Inductive tracker_call :=
| CallRegisterEndpoints (new_entries : list CoverageEntry)
| CallRecordCoverage (r m st : string).

Inductive assertions_call :=
| CallRegisterSpecs (built : build_result) (options : RegisterOptions)
| CallReset
| CallIsValidResponse (response : jsval).

(** [OpenApiAssertions.reset()] *)
Definition reset (a : Assertions) : Assertions :=
  {| registered_validators := None;
     hasRegistered := false;
     coverageOptions := {| reportCoverage := None; exportCoverage := None |};
     coverageTracker := coverageTracker a |}.

(** [new OpenApiAssertions] before any registration. *)
Definition fresh_assertions : Assertions :=
  {| registered_validators := None;
     hasRegistered := false;
     coverageOptions := {| reportCoverage := None; exportCoverage := None |};
     coverageTracker := new_tracker |}.

Section Runs.
Context `{JsRuntime}.

Definition run_tracker_call (t : CoverageTracker) (c : tracker_call)
    : CoverageTracker :=
  match c with
  | CallRegisterEndpoints new_entries => registerEndpoints new_entries t
  | CallRecordCoverage r m st => recordCoverage r m st t
  end.

Definition run_tracker (t : CoverageTracker) (calls : list tracker_call)
    : CoverageTracker :=
  fold_left run_tracker_call calls t.

(** Every covered key is the key of a registered record. *)
Definition covered_within_universe (t : CoverageTracker) : Prop :=
  forall k, k ∈ covered t -> exists e, e ∈ allEndpoints t /\ record_key e = k.

(** Every [recordCoverage] of the run is for a triple whose key is the key
    of a record registered by then. *)
Fixpoint records_registered (t : CoverageTracker) (calls : list tracker_call)
    : Prop :=
  match calls with
  | [] => True
  | CallRegisterEndpoints new_entries :: calls' =>
      records_registered (registerEndpoints new_entries t) calls'
  | CallRecordCoverage r m st :: calls' =>
      (exists e, e ∈ allEndpoints t /\ record_key e = makeKey r m st)
      /\ records_registered (recordCoverage r m st t) calls'
  end.

Definition run_assertions_call (a : Assertions)
    (c : assertions_call) : Assertions :=
  match c with
  | CallRegisterSpecs built options => fst (registerSpecs built options a)
  | CallReset => reset a
  | CallIsValidResponse response => fst (isValidResponse response a)
  end.

Definition run_assertions (a : Assertions)
    (calls : list assertions_call) : Assertions :=
  fold_left run_assertions_call calls a.

(** No call of the run leaves what the embedding describes. *)
Fixpoint run_described (a : Assertions) (calls : list assertions_call) : Prop :=
  match calls with
  | [] => True
  | c :: calls' =>
      match c with
      | CallIsValidResponse response => snd (isValidResponse response a) <> Outside
      | _ => True
      end
      /\ run_described (run_assertions_call a c) calls'
  end.
End Runs.

Definition is_colon (c : ascii) : bool := Ascii.eqb c ":".

Definition colon_free (s : string) : Prop :=
  string_existsb is_colon s = false.

(** A status key that is not the text of a number. *)
Definition non_numeric (s : string) : Prop :=
  forall x : jsnum, s <> string_of_number x.

(** The characters of the texts of numbers: digits, sign, decimal point,
    exponent mark, and the letters of [Infinity] and [NaN]. *)
Definition is_number_char (c : ascii) : bool :=
  is_digit c
  || existsb (Ascii.eqb c)
       ["-"; "+"; "."; "e"; "I"; "n"; "f"; "i"; "t"; "y"; "N"; "a"]%char.

(** ** Data of the examples *)


Definition get_pets (st : jsnum) : jsval :=
  JObj [("method", JStr "get"); ("url", JStr "/pets?limit=1");
        ("status", JNum st)].

Definition pets_entry : CoverageEntry :=
  {| route := "/pets"; method := "GET"; statuses := ["200"; "404"] |}.

Definition report_coverage : RegisterOptions :=
  {| reportCoverage := Some true; exportCoverage := None |}.

Definition no_operation : OpenAPIPathItem :=
  {| item_get := None; item_post := None; item_put := None; item_patch := None;
     item_delete := None; item_options := None; item_head := None;
     item_trace := None |}.

(** A path item with a [get] operation that declares [declared]. *)
Definition get_only (declared : list (string * OpenAPIResponse))
    : OpenAPIPathItem :=
  {| item_get := Some {| op_responses := Some declared |};
     item_post := None; item_put := None; item_patch := None;
     item_delete := None; item_options := None; item_head := None;
     item_trace := None |}.

Definition no_content : OpenAPIResponse := {| content := None |}.

Definition json_content (sch : jsval) : OpenAPIResponse :=
  {| content := Some [("application/json", {| schema := Some sch |})] |}.

(** A document with a [default] response only. *)
Definition default_doc : OpenAPIDocument :=
  {| paths := Some [("/pets", Some (get_only [("default", no_content)]))] |}.

(** A document whose status key [x:200] under [/a] and status [200] under
    [/a:x] give the same coverage key. *)
Definition colon_doc : OpenAPIDocument :=
  {| paths := Some [("/a", Some (get_only [("x:200", no_content)]));
                    ("/a:x", Some (get_only [("200", no_content)]))] |}.

(** The build of a document by the engine and the runtime of the
    examples; the empty state stands for a build that does not return. *)
Definition example_build (doc : OpenAPIDocument)
    : BuildState (H0 := strict_engine) :=
  match buildPathValidators (H := plain_runtime) (H0 := strict_engine) doc
                            (empty_build (H0 := strict_engine)) with
  | Ok st => st
  | _ => empty_build (H0 := strict_engine)
  end.

Definition registered (doc : OpenAPIDocument) : Assertions :=
  let built := example_build doc in
  fst (registerSpecs (Built (validators built) (coverageEntries built))
                     report_coverage fresh_assertions).

(** *** The shapes of a response *)

(** The wrapper test of [parseResponse]: a [response] property that is an
    object. *)
Definition wrapped_response (res : list (string * jsval)) : option jsval :=
  match obj_get res "response" with
  | Some inner => if truthy inner && typeof_object inner then Some inner else None
  | None => None
  end.

Definition is_api_client (res : list (string * jsval)) : bool :=
  obj_has res "request" && obj_has res "statusCode".
Definition is_axios (res : list (string * jsval)) : bool :=
  obj_has res "data" && obj_has res "config" && obj_has res "status".
Definition is_supertest (res : list (string * jsval)) : bool :=
  obj_has res "body" && obj_has res "req" && obj_has res "statusCode".
Definition is_generic (res : list (string * jsval)) : bool :=
  obj_has res "status" || obj_has res "statusCode".

(** One of the four shapes that are not the wrapper. *)
Definition has_shape (res : list (string * jsval)) : bool :=
  is_api_client res || is_axios res || is_supertest res || is_generic res.

(** A response that [parseResponse] recognises: wrappers are followed
    first, and the object reached has one of the four shapes. *)
Inductive recognised : jsval -> Prop :=
| recognised_wrapper res inner :
    wrapped_response res = Some inner ->
    recognised inner ->
    recognised (JObj res)
| recognised_shape res :
    wrapped_response res = None ->
    has_shape res = true ->
    recognised (JObj res).

Definition string_or_falsy (u : jsval) : bool :=
  match u with
  | JStr _ => true
  | _ => negb (truthy u)
  end.

(** The member a shape reads its method and url from, and the names under
    which it reads the url and the status ([None] for the generic shape,
    which reads the response itself). *)
Definition shape_source (res : list (string * jsval)) : option (jsval * string) :=
  if is_api_client res then Some (field res "request", "url")
  else if is_axios res then Some (field res "config", "url")
  else if is_supertest res then Some (field res "req", "path")
  else None.

(** The values a shape takes the method, the url, the status and the body
    from, once the member it reads is an object. *)
Definition method_value (res : list (string * jsval)) : jsval :=
  match shape_source res with
  | Some (JObj members, _) => field members "method"
  | Some _ => JUndefined
  | None => field res "method"
  end.

Definition url_value (res : list (string * jsval)) : jsval :=
  match shape_source res with
  | Some (JObj members, url_key) => field members url_key
  | Some _ => JUndefined
  | None => js_or (field res "url") (field res "path")
  end.

Definition status_value (res : list (string * jsval)) : jsval :=
  if is_api_client res then field res "statusCode"
  else if is_axios res then field res "status"
  else if is_supertest res then field res "statusCode"
  else js_or (field res "status") (field res "statusCode").

(** The body accessor of the api-client shape returns when it is called. *)
Definition body_returns (res : list (string * jsval)) : bool :=
  if is_api_client res then
    match field res "body" with
    | JFun false _ => false
    | _ => true
    end
  else true.

Section WellFormed.
Context `{JsRuntime}.

(** The conversions that the parse of the shape applies do not throw:
    [String] on the method and on the value of every header, [Number] on
    the status. *)
Definition conversions_return (res : list (string * jsval)) : Prop :=
  (exists text, ToString (js_or (method_value res) (JStr "GET")) = Ok text)
  /\ (exists status, ToNumber (status_value res) = Ok status)
  /\ Forall (fun kv => exists text, ToString (snd kv) = Ok text)
            (entries (js_or (field res "headers") (JObj []))).

(** The member a shape reads its method and url from is not [null] or
    [undefined], the url it holds is a string or falsy and the runtime
    describes what the constructor [URL] does on it, the conversions
    applied to the method, the status and the headers return, and so does
    the body accessor. *)
Definition members_ok (res : list (string * jsval)) : Prop :=
  match shape_source res with
  | Some (JUndefined, _) | Some (JNull, _) => False
  | _ => True
  end
  /\ string_or_falsy (url_value res) = true
  /\ (forall s,
         url_value res = JStr s ->
         startsWith "http://" s || startsWith "https://" s = true ->
         url_pathname s <> Outside)
  /\ conversions_return res
  /\ body_returns res = true.

Inductive well_formed : jsval -> Prop :=
| well_formed_wrapper res inner :
    wrapped_response res = Some inner ->
    well_formed inner ->
    well_formed (JObj res)
| well_formed_shape res :
    wrapped_response res = None ->
    has_shape res = true ->
    members_ok res ->
    well_formed (JObj res).

(** An error that code of the response throws: a conversion by [String]
    or [Number], or the body accessor. *)
Definition thrown_by_response (e : error) : Prop :=
  (exists v, ToString v = Throw e)
  \/ (exists v, ToNumber v = Throw e)
  \/ (exists v, e = JsThrown v).

(** An exception of a recognised shape: a [TypeError] of the language, or
    what code of the response throws. *)
Definition shape_error (e : error) : Prop :=
  e = JsTypeError \/ thrown_by_response e.
End WellFormed.

(** The two errors that [parseResponse] throws itself. *)
Definition input_error (e : error) : Prop :=
  e = JsError "Invalid response: expected an object"
  \/ e = JsError unknown_format.

(** *** What the builder writes for a declared response *)

(** [validators[path]?.[method]] on own properties. *)
Definition operation_validators (vs : CompiledValidators) (path m : string)
    : option OperationValidators :=
  obj_get vs path ≫= (fun ms => obj_get ms m).

Section Built.
Context `{JsRuntime} `{SchemaEngine}.

(** The state of the engine in an accumulator of the loop over the
    responses. *)
Definition engine_of
    (acc : list (string * ResponseValidators) * list string * list string * Ajv)
    : Ajv := snd acc.

(** The accumulator of the loop over the responses when the build that
    starts in [st0] reaches a response: after the paths [before], in the
    path item [pathItem] of [path] after the methods [earlier], in the
    operation of the method [m] after the responses [first]. *)
Definition build_until (st0 : BuildState)
    (before : list (string * option OpenAPIPathItem))
    (path : string) (pathItem : OpenAPIPathItem)
    (earlier : list string) (m : string)
    (first : list (string * OpenAPIResponse))
    : outcome (list (string * ResponseValidators) * list string * list string * Ajv) :=
  st_path ← fold_outcome build_path before st0;
  st_op ← fold_outcome (build_method path pathItem) earlier (open_path path st_path);
  fold_outcome (build_response path m) first ([], [], warnings st_op, engine st_op).

(** What the build leaves for a declared response, in the table [table] of
    its operation: an entry without validator when it declares no JSON
    schema; otherwise an entry with a validator that the engine has
    returned for the schema, or no entry and a warning. *)
Definition response_settled (st : BuildState) (path m : string)
    (table : list (string * ResponseValidators)) (code : string)
    (response : OpenAPIResponse) : Prop :=
  match json_schema response with
  | None => obj_get table code = Some {| body := None |}
  | Some sch =>
      (exists ajv ajv' validate,
          compileSchema ajv sch = Ok (ajv', Some validate)
          /\ obj_get table code = Some {| body := Some validate |})
      \/ ((exists ajv ajv', compileSchema ajv sch = Ok (ajv', None))
          /\ obj_get table code = None
          /\ In (compile_warning m path code) (warnings st))
  end.

(** What the build of a document leaves for one declared operation: its
    table, in which every declared response is settled, and a coverage
    entry with all the declared status codes. *)
Definition operation_built (st : BuildState) (path m : string)
    (declared : list (string * OpenAPIResponse)) : Prop :=
  (exists ov,
      operation_validators (validators st) path m = Some ov
      /\ forall code response,
           In (code, response) declared ->
           code <> "__proto__" ->
           response_settled st path m (responses ov) code response)
  /\ (declared <> [] ->
      In {| route := path; method := toUpperCase m; statuses := map fst declared |}
         (coverageEntries st)).

(** The build of the paths stays inside the embedding: no path item has
    the name of an inherited member, and no declared schema brings a
    function [toJSON]. *)
Definition described_paths (entries : list (string * option OpenAPIPathItem))
    : Prop :=
  Forall (fun entry =>
            match snd entry with
            | None => True
            | Some pathItem =>
                inherited_name (fst entry) = false
                /\ forall m op declared code response sch,
                     operation_of pathItem m = Some op ->
                     op_responses op = Some declared ->
                     In (code, response) declared ->
                     json_schema response = Some sch ->
                     json_value sch <> Outside
            end) entries.
End Built.

(** A document whose response 200 declares a schema that does not
    compile. *)
Definition bad_schema : jsval := JObj [("type", JNum (Int 5))].

Definition bad_schema_doc : OpenAPIDocument :=
  {| paths := Some [("/pets", Some (get_only [("200", json_content bad_schema);
                                              ("404", no_content)]))] |}.

(** A document whose responses 200 and 201 declare the same schema, with
    an [$id]: the engine compiles it once. *)
Definition pet_schema : jsval :=
  JObj [("$id", JStr "pet"); ("type", JStr "object")].

Definition same_schema_doc : OpenAPIDocument :=
  {| paths := Some [("/pets", Some (get_only [("200", json_content pet_schema);
                                              ("201", json_content pet_schema)]))] |}.

(** *** Notions about references *)

(** A node whose [$ref] [resolveRefsInObject] follows: into a value of the
    document, or through an inherited member. *)
Definition live_ref (root v : jsval) : bool :=
  match v with
  | JObj record =>
      match ref_target record root with Absent => false | _ => true end
  | _ => false
  end.

(** No node of the value is such a reference. *)
Fixpoint ref_free (root v : jsval) : bool :=
  match v with
  | JArr items => forallb (ref_free root) items
  | JObj record =>
      negb (live_ref root v)
      && forallb (fun kv => ref_free root (snd kv)) record
  | _ => true
  end.

(** The sibling keys of every reference node hold no reference, and no
    property named [$ref] is itself a reference node. *)
Fixpoint plain_siblings (root v : jsval) : bool :=
  match v with
  | JArr items => forallb (plain_siblings root) items
  | JObj record =>
      if live_ref root v
      then forallb (fun kv => ref_free root (snd kv)) (obj_without "$ref" record)
      else negb (live_ref root (field record "$ref"))
           && forallb (fun kv => plain_siblings root (snd kv)) record
  | _ => true
  end.

(** References nest at most [depth] deep below the value, none goes
    through an inherited member, and no object copied has a property
    [__proto__]: following a reference uses up one level. *)
Fixpoint ref_depth_within (root : jsval) (depth : nat) : jsval -> bool :=
  fix below (v : jsval) : bool :=
    match v with
    | JArr items => forallb below items
    | JObj record =>
        match ref_target record root with
        | Own target =>
            match depth with
            | O => false
            | S depth' => ref_depth_within root depth' target
            end
        | Absent =>
            negb (obj_has record "__proto__")
            && forallb (fun kv => below (snd kv)) record
        | Inherited => false
        end
    | _ => true
    end.

(** Documents of the examples. *)
Definition pet_components : jsval :=
  JObj [("components",
         JObj [("schemas",
                JObj [("Pet", JObj [("type", JStr "object");
                                    ("description", JStr "a pet");
                                    ("properties",
                                     JObj [("tag", JObj [("$ref", JStr "#/components/schemas/Tag")])])]);
                      ("Tag", JObj [("type", JStr "string")]);
                      ("Remote", JObj [("$ref", JStr "other.json#/Pet")])])])].

Definition pet_with_description : jsval :=
  JObj [("$ref", JStr "#/components/schemas/Pet");
        ("description", JStr "my pet")].





(** The result of [validateResponse] when no entry of the table applies
    to the status. *)
Definition no_response_schema (parsed : ParsedResponse) (template : string)
    (table : list (string * ResponseValidators)) : ValidationResult :=
  {| valid := false;
     errors := Some [
       {| err_path := "";
          err_message :=
            "No response schema defined for " +:+ res_method parsed +:+ " "
            +:+ template +:+ " with status "
            +:+ string_of_number (res_status parsed);
          err_keyword := None;
          err_expected := Some (strings (obj_keys table));
          err_actual := Some (JStr (string_of_number (res_status parsed))) |}] |}.

(** ** More of src/path_matcher.ts *)

(** [extractBasePath(serverUrl)]: the [catch] block runs when the [URL]
    constructor throws. *)
Definition extractBasePath `{JsRuntime} (serverUrl : string) : outcome string :=
  match url_pathname serverUrl with
  | Ok pathname => Ok (or_else (strip_trailing_slash pathname) "/")
  | Throw _ => Ok (or_else (strip_trailing_slash serverUrl) "/")
  | Outside => Outside
  end.

Definition removeBasePath (requestPath basePath : string) : string :=
  if String.eqb basePath "/" || String.eqb basePath "" then requestPath
  else if startsWith basePath requestPath then
    let remaining := slice_from (String.length basePath) requestPath in
    if startsWith "/" remaining then remaining else "/" +:+ remaining
  else requestPath.

(** ** Notions for the further properties *)

(** *** JSON pointers *)

(** The escaping of a key in a JSON pointer: [~] is written [~0] and [/]
    is written [~1]. *)
Fixpoint escape_pointer_segment (key : string) : string :=
  match key with
  | EmptyString => EmptyString
  | String c key' =>
      if Ascii.eqb c "~" then String "~" (String "0" (escape_pointer_segment key'))
      else if Ascii.eqb c "/" then String "~" (String "1" (escape_pointer_segment key'))
      else String c (escape_pointer_segment key')
  end.

(** [pieces.join(sep)] *)
Fixpoint join_with (sep : ascii) (pieces : list string) : string :=
  match pieces with
  | [] => EmptyString
  | [piece] => piece
  | piece :: pieces' => piece +:+ String sep (join_with sep pieces')
  end.

(** The local reference to [root[k1]...[kn]]. *)
Definition pointer_of (keys : list string) : string :=
  "#/" +:+ join_with "/" (map escape_pointer_segment keys).

(** [v[k1]...[kn]], read key by key: [Absent] as soon as a key is not in
    the value reached, [Inherited] at the name of an inherited member. *)
Fixpoint lookup_path (keys : list string) (v : jsval) : member :=
  match keys with
  | [] => Own v
  | k :: keys' =>
      if truthy v && typeof_object v then
        match read_member v k with
        | Own next => lookup_path keys' next
        | Absent => Absent
        | Inherited => Inherited
        end
      else Absent
  end.

(** *** Values *)

(** The nesting depth of arrays and objects in a value. *)
Fixpoint height (v : jsval) : nat :=
  match v with
  | JArr items => S (list_max (map height items))
  | JObj record => S (list_max (map (fun kv => height (snd kv)) record))
  | _ => O
  end.

(** No object of the value has a property [__proto__]. *)
Fixpoint proto_free (v : jsval) : bool :=
  match v with
  | JArr items => forallb proto_free items
  | JObj record =>
      negb (obj_has record "__proto__")
      && forallb (fun kv => proto_free (snd kv)) record
  | _ => true
  end.

(** The values that [JSON.stringify] and [JSON.parse] give back as they
    are: no [undefined], no function, no [NaN] and no infinity
    anywhere. *)
Fixpoint is_json (v : jsval) : bool :=
  match v with
  | JUndefined | JFun _ _ | JNum NaN | JNum (Infinity _) => false
  | JArr items => forallb is_json items
  | JObj record => forallb (fun kv => is_json (snd kv)) record
  | _ => true
  end.

(** Every string [$id] in the value matches [^[^#]*#?$], which is what the
    schema engine demands of it. *)
Fixpoint ids_match (v : jsval) : bool :=
  match v with
  | JArr items => forallb ids_match items
  | JObj record =>
      match obj_get record "$id" with
      | Some (JStr id) => id_pattern id
      | _ => true
      end
      && forallb (fun kv => ids_match (snd kv)) record
  | _ => true
  end.

(** *** The build of a document *)

(** The paths of a document that hold a path item, in document order. *)
Definition declared_paths (entries : list (string * option OpenAPIPathItem))
    : list string :=
  omap (fun entry => match snd entry with
                     | Some _ => Some (fst entry)
                     | None => None
                     end) entries.

(** The responses object of the operation of a method, when the path item
    has one. *)
Definition declared_responses (pathItem : OpenAPIPathItem) (m : string)
    : option (list (string * OpenAPIResponse)) :=
  operation_of pathItem m ≫= op_responses.

Definition method_entries `{JsRuntime} (path : string)
    (pathItem : OpenAPIPathItem) (m : string) : list CoverageEntry :=
  match declared_responses pathItem m with
  | Some (response :: declared) =>
      [{| route := path; method := toUpperCase m;
          statuses := map fst (response :: declared) |}]
  | _ => []
  end.

(** The coverage entries of a document, path by path and, within a path,
    in the order of [HTTP_METHODS]. *)
Definition document_entries `{JsRuntime}
    (entries : list (string * option OpenAPIPathItem)) : list CoverageEntry :=
  flat_map (fun entry =>
              match snd entry with
              | Some pathItem =>
                  flat_map (method_entries (fst entry) pathItem) HTTP_METHODS
              | None => []
              end) entries.

(** *** Values read from a body *)

(** The value a read gives: [undefined] for a property that is not there;
    [None] for an inherited member, whose value is no value of the
    model. *)
Definition member_value (m : member) : option jsval :=
  match m with
  | Own v => Some v
  | Absent => Some JUndefined
  | Inherited => None
  end.

(** *** The coverage universe *)

(** The number of records that registering the entries adds. *)
Definition status_count (new_entries : list CoverageEntry) : nat :=
  list_sum (map (fun entry => length (statuses entry)) new_entries).

(* ================================================================== *)
(** * Part II.  Properties                                             *)
(* ================================================================== *)

(** ** Strings *)

Lemma split_not_nil sep s : split sep s <> [].
Proof.
  destruct s as [|c s]; simpl; [discriminate|].
  destruct (Ascii.eqb c sep); [discriminate|].
  destruct (split sep s); discriminate.
Qed.

Lemma split_sep sep s : split sep (String sep s) = EmptyString :: split sep s.
Proof. simpl. now rewrite Ascii.eqb_refl. Qed.

Lemma split_other sep c s :
  c <> sep ->
  split sep (String c s)
  = String c (List.hd "" (split sep s)) :: List.tl (split sep s).
Proof.
  intros Hc. simpl.
  destruct (Ascii.eqb_spec c sep) as [->|_]; [contradiction|].
  pose proof (split_not_nil sep s). destruct (split sep s); [contradiction|reflexivity].
Qed.

Lemma split_snoc_sep sep s :
  split sep (s +:+ String sep EmptyString) = split sep s ++ [EmptyString].
Proof.
  induction s as [|c s IH]; simpl.
  - now rewrite Ascii.eqb_refl.
  - destruct (Ascii.eqb c sep); rewrite IH; [reflexivity|].
    pose proof (split_not_nil sep s). destruct (split sep s); [contradiction|reflexivity].
Qed.

Lemma head_split_sep_append sep p x :
  List.hd "" (split sep (p +:+ String sep x)) = List.hd "" (split sep p).
Proof.
  induction p as [|c p IH].
  - simpl. now rewrite Ascii.eqb_refl.
  - change (String c p +:+ String sep x) with (String c (p +:+ String sep x)).
    destruct (Ascii.eqb_spec c sep) as [->|Hc].
    + now rewrite !split_sep.
    + rewrite !split_other by assumption. simpl. now rewrite IH.
Qed.

Lemma head_split_snoc sep d p :
  List.hd "" (split sep (p +:+ String d EmptyString)) = List.hd "" (split sep p)
  \/ List.hd "" (split sep (p +:+ String d EmptyString))
     = List.hd "" (split sep p) +:+ String d EmptyString.
Proof.
  induction p as [|c p IH].
  - simpl. destruct (Ascii.eqb d sep); [left|right]; reflexivity.
  - change (String c p +:+ String d "") with (String c (p +:+ String d "")).
    destruct (Ascii.eqb_spec c sep) as [->|Hc].
    + left. now rewrite !split_sep.
    + rewrite !split_other by assumption. simpl.
      destruct IH as [-> | ->]; [left|right]; reflexivity.
Qed.

Lemma segments_snoc_slash s : segments (s +:+ "/") = segments s.
Proof.
  unfold segments. rewrite split_snoc_sep, List.filter_app. simpl.
  now rewrite app_nil_r.
Qed.

Lemma strip_trailing_slash_spec s :
  (exists s0, s = s0 +:+ "/" /\ strip_trailing_slash s = s0)
  \/ strip_trailing_slash s = s.
Proof.
  induction s as [|c s IH]; [right; reflexivity|].
  destruct s as [|d s].
  - simpl. destruct (Ascii.eqb_spec c "/") as [->|_].
    + left. exists EmptyString. split; reflexivity.
    + right. reflexivity.
  - change (strip_trailing_slash (String c (String d s)))
      with (String c (strip_trailing_slash (String d s))).
    destruct IH as [(s0 & Hs & ->) | ->].
    + left. exists (String c s0). rewrite Hs. split; reflexivity.
    + right. reflexivity.
Qed.

Lemma segments_strip s : segments (strip_trailing_slash s) = segments s.
Proof.
  destruct (strip_trailing_slash_spec s) as [(s0 & Hs & ->) | ->]; [|reflexivity].
  rewrite Hs. symmetry. apply segments_snoc_slash.
Qed.

Lemma segments_or_else_slash s : segments (or_else s "/") = segments s.
Proof. destruct s; reflexivity. Qed.

Lemma segments_cleanPath p :
  segments (cleanPath p) = segments (List.hd "" (split "?" p)).
Proof. unfold cleanPath. now rewrite segments_or_else_slash, segments_strip. Qed.


(** ** The path matcher *)

Example matchPath_pets :
  matchPath "/pets/123?include=owner" ["/pets"; "/pets/{petId}"]
  = Some {| matched := "/pets/{petId}"; params := {[ "petId" := "123" ]} |}.
Proof. vm_compute. reflexivity. Qed.

Lemma word_then_close_snoc X :
  word_then_close (X +:+ "}")
  = if string_forallb is_word_char X then Some X else None.
Proof.
  induction X as [|c X IH]; [reflexivity|].
  change (String c X +:+ "}") with (String c (X +:+ "}")).
  assert (Hne : exists d t, X +:+ "}" = String d t)
    by (destruct X; simpl; eauto).
  destruct Hne as (d & t & Heq).
  simpl. rewrite Heq, <- Heq, IH.
  destruct (is_word_char c); simpl; [|reflexivity].
  destruct (string_forallb is_word_char X); reflexivity.
Qed.

Lemma word_then_close_inv s n :
  word_then_close s = Some n ->
  string_forallb is_word_char n = true /\ s = n +:+ "}".
Proof.
  revert n. induction s as [|c s IH]; intros n; [discriminate|].
  destruct s as [|d s].
  - simpl. destruct (Ascii.eqb_spec c "}") as [->|_]; [|discriminate].
    intros [= <-]. split; reflexivity.
  - change (word_then_close (String c (String d s)))
      with (if is_word_char c then String c <$> word_then_close (String d s)
            else None).
    destruct (is_word_char c) eqn:Hc; [|discriminate].
    destruct (word_then_close (String d s)) as [n'|] eqn:Hw; [|discriminate].
    intros [= <-]. destruct (IH n' eq_refl) as [Hn' Hs].
    split; [simpl; now rewrite Hc|]. simpl. now rewrite Hs.
Qed.

Lemma paramMatch_braced X :
  paramMatch ("{" +:+ X +:+ "}")
  = if string_forallb is_word_char X && nonempty X then Some X else None.
Proof.
  change ("{" +:+ X +:+ "}") with (String "{" (X +:+ "}")).
  unfold paramMatch. rewrite Ascii.eqb_refl, word_then_close_snoc.
  destruct (string_forallb is_word_char X); [|reflexivity].
  destruct X; reflexivity.
Qed.

Lemma paramMatch_spec seg name :
  paramMatch seg = Some name <-> param_form seg name.
Proof.
  split.
  - destruct seg as [|c rest]; [discriminate|]. simpl.
    destruct (Ascii.eqb_spec c "{") as [->|_]; [|discriminate].
    destruct (word_then_close rest) as [[|d n]|] eqn:Hw; try discriminate.
    intros [= <-]. apply word_then_close_inv in Hw as [Hn ->].
    repeat split; [discriminate|assumption].
  - intros (Hne & Hw & ->). rewrite paramMatch_braced, Hw.
    destruct name; [contradiction|reflexivity].
Qed.

Lemma tryMatch_loop_param specSegment requestSegment name rest ps sc :
  paramMatch specSegment = Some name ->
  tryMatch_loop ((specSegment, requestSegment) :: rest) ps sc
  = tryMatch_loop rest (bind_param name requestSegment ps) (sc + 1).
Proof. intros Hp. simpl. now rewrite Hp. Qed.


Lemma bind_param_lookup_ne name other requestSegment ps :
  other <> name -> bind_param other requestSegment ps !! name = ps !! name.
Proof.
  intros Hne. unfold bind_param. destruct (String.eqb other "__proto__");
    [reflexivity | now apply lookup_insert_ne].
Qed.


Lemma tryMatch_loop_literal specSegment requestSegment rest ps sc :
  paramMatch specSegment = None ->
  tryMatch_loop ((specSegment, requestSegment) :: rest) ps sc
  = if String.eqb specSegment requestSegment
    then tryMatch_loop rest ps (sc + 10) else None.
Proof. intros Hp. simpl. now rewrite Hp. Qed.

Lemma segment_accepts_dec specSegment requestSegment :
  segment_accepts specSegment requestSegment
  <-> paramMatch specSegment <> None \/ specSegment = requestSegment.
Proof.
  unfold segment_accepts. split; intros [Hp | He]; auto.
  - left. destruct Hp as [name Hp]. apply paramMatch_spec in Hp. congruence.
  - left. destruct (paramMatch specSegment) as [name|] eqn:Hm; [|contradiction].
    exists name. now apply paramMatch_spec.
Qed.

Lemma tryMatch_loop_accepts specSegments :
  forall requestSegments ps sc,
    length requestSegments = length specSegments ->
    (is_Some (tryMatch_loop (zip specSegments requestSegments) ps sc)
     <-> Forall2 segment_accepts specSegments requestSegments).
Proof.
  induction specSegments as [|s ss IH]; intros [|r rs] ps sc Hlen;
    try discriminate.
  - simpl. split; [constructor | eauto].
  - injection Hlen as Hlen. simpl zip.
    destruct (paramMatch s) as [name|] eqn:Hp.
    + rewrite (tryMatch_loop_param _ _ _ _ _ _ Hp), IH by assumption.
      split.
      * intros Hrest. constructor; [|assumption].
        apply segment_accepts_dec. left. congruence.
      * now inversion 1.
    + rewrite (tryMatch_loop_literal _ _ _ _ _ Hp).
      destruct (String.eqb_spec s r) as [->|Hne].
      * rewrite IH by assumption. split.
        -- intros Hrest. constructor; [right; reflexivity | assumption].
        -- now inversion 1.
      * split; [intros [x Hx]; discriminate|].
        inversion 1 as [|? ? ? ? Hacc _]; subst.
        apply segment_accepts_dec in Hacc as [Hacc | Hacc]; congruence.
Qed.

Lemma tryMatch_loop_score pairs :
  forall ps sc ps' sc',
    tryMatch_loop pairs ps sc = Some (ps', sc') ->
    sc' = sc + template_score (map fst pairs).
Proof.
  induction pairs as [|[s r] rest IH]; intros ps sc ps' sc'; simpl.
  - intros [= _ <-]. lia.
  - unfold segment_score. destruct (paramMatch s) as [name|].
    + intros Hl. apply IH in Hl. lia.
    + destruct (String.eqb s r); [|discriminate].
      intros Hl. apply IH in Hl. lia.
Qed.



Lemma tryMatch_loop_literal_eq pairs :
  forall ps sc (i : nat) s r,
    is_Some (tryMatch_loop pairs ps sc) ->
    pairs !! i = Some (s, r) ->
    paramMatch s = None ->
    s = r.
Proof.
  induction pairs as [|[s0 r0] rest IH]; intros ps sc i s r Hl Hi Hp;
    [discriminate|].
  destruct i as [|i].
  - injection Hi as -> ->. rewrite (tryMatch_loop_literal _ _ _ _ _ Hp) in Hl.
    destruct (String.eqb_spec s r); [assumption | destruct Hl; discriminate].
  - simpl in Hl, Hi. destruct (paramMatch s0).
    + exact (IH _ _ _ _ _ Hl Hi Hp).
    + destruct (String.eqb s0 r0); [|destruct Hl; discriminate].
      exact (IH _ _ _ _ _ Hl Hi Hp).
Qed.

Lemma tryMatch_inv requestPath template c :
  tryMatch requestPath template = Some c ->
  length (segments requestPath) = length (segments template)
  /\ tryMatch_loop (zip (segments template) (segments requestPath)) ∅ 0
     = Some (cand_params c, score c)
  /\ specPath c = template.
Proof.
  unfold tryMatch.
  destruct (Nat.eqb_spec (length (segments requestPath))
                         (length (segments template))) as [Hlen|]; simpl;
    [|discriminate].
  destruct (tryMatch_loop _ _ _) as [[ps sc]|]; [|discriminate].
  intros [= <-]. auto.
Qed.

Lemma tryMatch_is_Some requestPath template :
  is_Some (tryMatch requestPath template)
  <-> length (segments requestPath) = length (segments template)
      /\ Forall2 segment_accepts (segments template) (segments requestPath).
Proof.
  split.
  - intros [c Hc]. destruct (tryMatch_inv _ _ _ Hc) as (Hlen & Hloop & _).
    split; [assumption|].
    apply (tryMatch_loop_accepts _ _ ∅ 0 Hlen). rewrite Hloop. eauto.
  - intros [Hlen Hacc].
    apply (tryMatch_loop_accepts _ _ ∅ 0 Hlen) in Hacc as [[ps sc] Hloop].
    unfold tryMatch. rewrite Hlen, Nat.eqb_refl, Hloop. simpl. eauto.
Qed.

Lemma tryMatch_score requestPath template c :
  tryMatch requestPath template = Some c ->
  score c = template_score (segments template).
Proof.
  intros Hc. destruct (tryMatch_inv _ _ _ Hc) as (Hlen & Hloop & _).
  apply tryMatch_loop_score in Hloop.
  rewrite fst_zip in Hloop by lia. lia.
Qed.

Lemma tryMatch_same_segments p p' template :
  segments p = segments p' -> tryMatch p template = tryMatch p' template.
Proof. unfold tryMatch. now intros ->. Qed.

Lemma matchPath_same_segments p p' templates :
  segments (cleanPath p) = segments (cleanPath p') ->
  matchPath p templates = matchPath p' templates.
Proof.
  intros Hseg. unfold matchPath.
  assert (Hm : omap (tryMatch (cleanPath p)) templates
               = omap (tryMatch (cleanPath p')) templates).
  { induction templates as [|t ts IH]; [reflexivity|].
    change (omap ?f (t :: ts))
      with (match f t with Some c => c :: omap f ts | None => omap f ts end).
    now rewrite IH, (tryMatch_same_segments _ _ t Hseg). }
  now rewrite Hm.
Qed.

(** *** The sort *)

Lemma insert_by_score_not_nil m l : insert_by_score m l <> [].
Proof. destruct l as [|y l]; simpl; [|destruct (score m <? score y)]; discriminate. Qed.

Lemma sort_by_score_nil l : sort_by_score l = [] -> l = [].
Proof.
  destruct l as [|m l]; [reflexivity|]. simpl. intros Hs.
  now apply insert_by_score_not_nil in Hs.
Qed.

Lemma insert_by_score_perm m l : Permutation (insert_by_score m l) (m :: l).
Proof.
  induction l as [|y l IH]; simpl; [reflexivity|].
  destruct (score m <? score y); [|reflexivity].
  rewrite IH. apply perm_swap.
Qed.

Lemma sort_by_score_perm l : Permutation (sort_by_score l) l.
Proof.
  induction l as [|m l IH]; simpl; [reflexivity|].
  rewrite insert_by_score_perm. now constructor.
Qed.

Lemma insert_by_score_sorted m l :
  StronglySorted (fun a b => score b <= score a) l ->
  StronglySorted (fun a b => score b <= score a) (insert_by_score m l).
Proof.
  induction 1 as [|y l Hl IH Hy]; simpl; [repeat constructor|].
  destruct (Z.ltb_spec (score m) (score y)) as [Hlt|Hge].
  - constructor; [assumption|].
    rewrite insert_by_score_perm. constructor; [lia | assumption].
  - constructor; [now constructor|].
    constructor; [assumption|].
    eapply Forall_impl; [exact Hy|]. simpl. intros; lia.
Qed.

(** The model of the sort is a sort by decreasing score ... *)
Lemma sort_by_score_sorted l :
  StronglySorted (fun a b => score b <= score a) (sort_by_score l).
Proof.
  induction l as [|m l IH]; simpl; [constructor|].
  now apply insert_by_score_sorted.
Qed.

(** ... and it is stable: the candidates of one score keep their order. *)
Lemma sort_by_score_stable z l :
  List.filter (fun c => score c =? z) (sort_by_score l)
  = List.filter (fun c => score c =? z) l.
Proof.
  assert (Hins : forall m l',
             List.filter (fun c => score c =? z) (insert_by_score m l')
             = List.filter (fun c => score c =? z) (m :: l')).
  { intros m l'. induction l' as [|y l' IH]; [reflexivity|]. simpl insert_by_score.
    destruct (Z.ltb_spec (score m) (score y)) as [Hlt|Hge]; [|reflexivity].
    simpl. simpl in IH. rewrite IH.
    destruct (Z.eqb_spec (score m) z), (Z.eqb_spec (score y) z);
      try reflexivity. lia. }
  induction l as [|m l IH]; [reflexivity|].
  simpl sort_by_score. rewrite Hins. simpl. now rewrite IH.
Qed.

(** The head of the sorted array is the first candidate of highest score:
    everything before it in the array scores strictly less, nothing after
    it scores more. *)
Lemma sort_by_score_head l :
  l <> [] ->
  exists before best after rest,
    l = before ++ best :: after
    /\ sort_by_score l = best :: rest
    /\ Forall (fun c => score c < score best) before
    /\ Forall (fun c => score c <= score best) after.
Proof.
  induction l as [|m l IH]; [contradiction|]. intros _.
  destruct l as [|m' l'].
  - exists [], m, [], []. repeat split; constructor.
  - destruct IH as (before & best & after & rest & Hl & Hs & Hb & Ha);
      [discriminate|].
    change (sort_by_score (m :: m' :: l'))
      with (insert_by_score m (sort_by_score (m' :: l'))).
    rewrite Hs, Hl. simpl.
    destruct (Z.ltb_spec (score m) (score best)) as [Hlt|Hge].
    + exists (m :: before), best, after, (insert_by_score m rest).
      repeat split; [constructor|]; assumption.
    + exists [], m, (before ++ best :: after), (best :: rest).
      repeat split; [constructor|].
      apply Forall_app. split.
      * eapply Forall_impl; [exact Hb|]. simpl. intros; lia.
      * constructor; [lia|]. eapply Forall_impl; [exact Ha|]. simpl. intros; lia.
Qed.

Lemma matchPath_None p templates :
  matchPath p templates = None
  <-> Forall (fun t => tryMatch (cleanPath p) t = None) templates.
Proof.
  unfold matchPath.
  destruct (omap (tryMatch (cleanPath p)) templates) as [|c cs] eqn:Hm.
  - split; [intros _|reflexivity].
    induction templates as [|t ts IH]; [constructor|].
    simpl in Hm. destruct (tryMatch (cleanPath p) t) eqn:Ht; [discriminate|].
    constructor; auto.
  - split.
    + destruct (sort_by_score (c :: cs)) eqn:Hs; [|discriminate].
      now apply sort_by_score_nil in Hs.
    + intros Hall. exfalso.
      induction templates as [|t ts IH]; [discriminate|].
      inversion Hall as [|? ? Ht Hts]; subst. simpl in Hm. rewrite Ht in Hm. auto.
Qed.

Lemma matchPath_best p templates :
  let accepted := omap (tryMatch (cleanPath p)) templates in
  (accepted = [] /\ matchPath p templates = None)
  \/ (exists before best after,
        accepted = before ++ best :: after
        /\ matchPath p templates
           = Some {| matched := specPath best; params := cand_params best |}
        /\ Forall (fun c => score c < score best) before
        /\ Forall (fun c => score c <= score best) after).
Proof.
  intros accepted. unfold matchPath. fold accepted.
  destruct accepted as [|c cs] eqn:Hacc; [left; auto|right].
  destruct (sort_by_score_head (c :: cs)) as (before & best & after & rest & Hl & Hs & Hb & Ha);
    [discriminate|].
  exists before, best, after. rewrite Hs. auto.
Qed.

Lemma lookup_zip_pair {A B} (l : list A) (k : list B) (i : nat) x y :
  zip l k !! i = Some (x, y) <-> l !! i = Some x /\ k !! i = Some y.
Proof.
  rewrite lookup_zip_with_Some. split.
  - intros (x' & y' & [= -> ->] & Hl & Hk). auto.
  - intros [Hl Hk]. eauto.
Qed.

Lemma template_score_swap pre lit par post :
  paramMatch lit = None -> paramMatch par <> None ->
  template_score (pre ++ lit :: post) = template_score (pre ++ par :: post) + 9.
Proof.
  intros Hlit Hpar. induction pre as [|s pre IH]; simpl.
  - unfold segment_score. rewrite Hlit.
    destruct (paramMatch par); [lia | contradiction].
  - rewrite IH. lia.
Qed.

(** C7.  Appending a query string or one trailing slash to the observed
    path never changes the result of [matchPath], whatever the templates;
    a path that is a single slash is cleaned to ["/"]; [/pets?x=1] and
    [/pets/] both match the template [/pets]. *)
Theorem matchPath_ignores_query_and_trailing_slash :
  (forall templates p query,
      matchPath (p +:+ "?" +:+ query) templates = matchPath p templates)
  /\ (forall templates p,
         matchPath (p +:+ "/") templates = matchPath p templates)
  /\ cleanPath "/" = "/"
  /\ matchPath "/pets?x=1" ["/pets"]
     = Some {| matched := "/pets"; params := ∅ |}
  /\ matchPath "/pets/" ["/pets"]
     = Some {| matched := "/pets"; params := ∅ |}.
Proof.
  split; [|split; [|split; [|split]]].
  - intros templates p query. apply matchPath_same_segments.
    unfold cleanPath.
    change (p +:+ "?" +:+ query) with (p +:+ String "?" query).
    now rewrite head_split_sep_append.
  - intros templates p. apply matchPath_same_segments.
    rewrite !segments_cleanPath.
    destruct (head_split_snoc "?" "/" p) as [-> | ->]; [reflexivity|].
    apply segments_snoc_slash.
  - reflexivity.
  - vm_compute. reflexivity.
  - vm_compute. reflexivity.
Qed.

(** C5.  Among the templates that accept the observed path, [matchPath]
    returns the first one of highest score: every accepted template before
    it in the list scores strictly less and none after it scores more.  The
    score of a template is 10 per literal segment and 1 per parameter, so a
    template with a literal where another has a parameter wins over it
    ([/users/me] over [/users/{id}]), and of two templates of equal score
    the earlier one is returned. *)
Theorem matchPath_returns_first_of_highest_score :
  (forall p templates,
      let accepted := omap (tryMatch (cleanPath p)) templates in
      (accepted = [] /\ matchPath p templates = None)
      \/ (exists before best after,
            accepted = before ++ best :: after
            /\ matchPath p templates
               = Some {| matched := specPath best; params := cand_params best |}
            /\ Forall (fun c => score c < score best) before
            /\ Forall (fun c => score c <= score best) after))
  /\ (forall p template c,
         tryMatch p template = Some c ->
         specPath c = template
         /\ score c = template_score (segments template))
  /\ (forall p templates literal_t param_t pre lit par post res,
         segments literal_t = pre ++ lit :: post ->
         segments param_t = pre ++ par :: post ->
         paramMatch lit = None ->
         paramMatch par <> None ->
         literal_t ∈ templates ->
         is_Some (tryMatch (cleanPath p) literal_t) ->
         matchPath p templates = Some res ->
         matched res <> param_t)
  /\ matchPath "/users/me" ["/users/{id}"; "/users/me"]
     = Some {| matched := "/users/me"; params := ∅ |}
  /\ matchPath "/a/b" ["/{x}/b"; "/a/{y}"]
     = Some {| matched := "/{x}/b"; params := {[ "x" := "a" ]} |}.
Proof.
  split; [exact matchPath_best|].
  split.
  { intros p template c Hc. split.
    - now destruct (tryMatch_inv _ _ _ Hc) as (_ & _ & ?).
    - exact (tryMatch_score _ _ _ Hc). }
  split.
  { intros p templates literal_t param_t pre lit par post res
           Hlit_t Hpar_t Hlit Hpar Hin [cl Hcl] Hres Heq.
    destruct (matchPath_best p templates)
      as [[_ Hnone] | (before & best & after & Hacc & Hbest & Hb & Ha)];
      [congruence|].
    rewrite Hbest in Hres. injection Hres as <-. simpl in Heq.
    assert (Hcl_in : cl ∈ omap (tryMatch (cleanPath p)) templates)
      by (apply list_elem_of_omap; eauto).
    assert (Hbest_in : best ∈ omap (tryMatch (cleanPath p)) templates)
      by (rewrite Hacc; apply elem_of_app; right; left).
    apply list_elem_of_omap in Hbest_in as (t & _ & Ht).
    pose proof (tryMatch_score _ _ _ Ht) as Hsb.
    destruct (tryMatch_inv _ _ _ Ht) as (_ & _ & Hspec).
    rewrite Heq in Hspec. subst t.
    pose proof (tryMatch_score _ _ _ Hcl) as Hsl.
    rewrite Hlit_t, (template_score_swap _ _ par _ Hlit Hpar), <- Hpar_t, <- Hsb in Hsl.
    assert (Hle : score cl <= score best).
    { rewrite Hacc in Hcl_in.
      apply elem_of_app in Hcl_in as [Hin1 | Hin2].
      - rewrite Forall_forall in Hb. apply Hb in Hin1. lia.
      - apply elem_of_cons in Hin2 as [-> | Hin2]; [lia|].
        rewrite Forall_forall in Ha. now apply Ha. }
    lia. }
  split; vm_compute; reflexivity.
Qed.



(** C10.  A template segment [{X}] whose [X] has a character that is not
    a word character is not a parameter: it is compared with the observed
    segment as a literal, the parameters are left as they were, and a
    template that holds it accepts only paths that have the very same text
    at that place. *)
Theorem braced_non_word_segment_is_literal (X : string) :
  string_forallb is_word_char X = false ->
  paramMatch ("{" +:+ X +:+ "}") = None
  /\ (forall requestSegment rest ps sc,
         tryMatch_loop (("{" +:+ X +:+ "}", requestSegment) :: rest) ps sc
         = if String.eqb ("{" +:+ X +:+ "}") requestSegment
           then tryMatch_loop rest ps (sc + 10)
           else None)
  /\ (forall requestPath template c (i : nat),
         tryMatch requestPath template = Some c ->
         segments template !! i = Some ("{" +:+ X +:+ "}") ->
         segments requestPath !! i = Some ("{" +:+ X +:+ "}")).
Proof.
  intros HX.
  assert (Hp : paramMatch ("{" +:+ X +:+ "}") = None)
    by (rewrite paramMatch_braced, HX; reflexivity).
  split; [exact Hp|]. split.
  - intros. now apply tryMatch_loop_literal.
  - intros requestPath template c i Hc Hi.
    destruct (tryMatch_inv _ _ _ Hc) as (Hlen & Hloop & _).
    destruct (lookup_lt_is_Some_2 (segments requestPath) i) as [r Hr].
    { rewrite Hlen. eapply lookup_lt_Some; eassumption. }
    rewrite Hr. f_equal. symmetry.
    eapply (tryMatch_loop_literal_eq _ ∅ 0 i).
    + rewrite Hloop. eauto.
    + apply lookup_zip_pair. eauto.
    + exact Hp.
Qed.

Lemma braced_non_word_segment_is_literal_witness :
  paramMatch "{pet-id}" = None
  /\ tryMatch "/pets/{pet-id}" "/pets/{pet-id}" <> None
  /\ tryMatch "/pets/7" "/pets/{pet-id}" = None.
Proof.
  split; [|split].
  - exact (proj1 (braced_non_word_segment_is_literal "pet-id" eq_refl)).
  - vm_compute. discriminate.
  - reflexivity.
Defined.

(** ** The rendering of a status *)

Lemma string_of_uint_digits d :
  string_forallb is_digit (NilEmpty.string_of_uint d) = true.
Proof. induction d; simpl; auto. Qed.

Lemma NilZero_string_of_uint_digits d :
  string_forallb is_digit (NilZero.string_of_uint d) = true
  /\ NilZero.string_of_uint d <> EmptyString.
Proof.
  destruct d; try (split; [reflexivity | discriminate]);
    (split; [apply (string_of_uint_digits (_ d)) | discriminate]).
Qed.

Lemma string_forallb_impl (p q : ascii -> bool) s :
  (forall c, p c = true -> q c = true) ->
  string_forallb p s = true -> string_forallb q s = true.
Proof.
  intros Hpq. induction s as [|c s IH]; simpl; [reflexivity|].
  intros [Hc Hs]%andb_prop. rewrite (Hpq _ Hc). simpl. auto.
Qed.

Lemma string_forallb_app (p : ascii -> bool) s t :
  string_forallb p (s +:+ t) = string_forallb p s && string_forallb p t.
Proof.
  induction s as [|c s IH]; [reflexivity|].
  change (String c s +:+ t) with (String c (s +:+ t)).
  simpl. rewrite IH. now rewrite andb_assoc.
Qed.

Lemma string_of_Z_chars z :
  string_forallb is_number_char (string_of_Z z) = true.
Proof.
  assert (Hd : forall d, string_forallb is_number_char (NilZero.string_of_uint d) = true).
  { intros d. eapply string_forallb_impl; [|apply NilZero_string_of_uint_digits].
    intros c Hc. unfold is_number_char. now rewrite Hc. }
  unfold string_of_Z. destruct z; simpl; auto.
Qed.

Lemma zeros_chars n : string_forallb is_number_char (zeros n) = true.
Proof. induction n; simpl; auto. Qed.

Lemma slice_to_chars p n s :
  string_forallb p s = true -> string_forallb p (slice_to n s) = true.
Proof.
  revert s. induction n as [|n IH]; intros [|c s]; simpl; auto.
  intros [Hc Hs]%andb_prop. rewrite Hc. simpl. auto.
Qed.

Lemma slice_from_chars p n s :
  string_forallb p s = true -> string_forallb p (slice_from n s) = true.
Proof.
  revert s. induction n as [|n IH]; intros [|c s]; simpl; auto.
  intros [Hc Hs]%andb_prop. auto.
Qed.

Lemma strip_zeros_chars p s :
  string_forallb p s = true -> string_forallb p (strip_zeros s) = true.
Proof.
  induction s as [|c s IH]; simpl; [reflexivity|].
  intros [Hc Hs]%andb_prop. specialize (IH Hs).
  destruct (strip_zeros s) as [|c' s'].
  - destruct (Ascii.eqb c "0"); simpl; [reflexivity | now rewrite Hc].
  - cbn [string_forallb] in *. now rewrite Hc.
Qed.

Lemma minus_sign_chars b : string_forallb is_number_char (minus_sign b) = true.
Proof. now destruct b. Qed.

Lemma exponent_text_chars e : string_forallb is_number_char (exponent_text e) = true.
Proof.
  unfold exponent_text. rewrite !string_forallb_app, string_of_Z_chars.
  now destruct (e <? 0).
Qed.

Lemma exponential_chars ds n :
  string_forallb is_number_char ds = true ->
  string_forallb is_number_char (exponential ds n) = true.
Proof.
  destruct ds as [|d [|d' rest]]; [reflexivity| |].
  - cbn [exponential string_forallb]. intros [Hd _]%andb_prop.
    now rewrite Hd, exponent_text_chars.
  - cbn [exponential]. generalize (String d' rest). intros r.
    cbn [string_forallb]. intros [Hd Hr]%andb_prop.
    now rewrite Hd, !string_forallb_app, Hr, exponent_text_chars.
Qed.

Lemma decimal_text_chars ds n :
  string_forallb is_number_char ds = true ->
  string_forallb is_number_char (decimal_text ds n) = true.
Proof.
  intros Hds. unfold decimal_text. cbv zeta.
  repeat match goal with |- context [if ?b then _ else _] => destruct b end;
    rewrite ?string_forallb_app, ?zeros_chars, ?Hds,
            ?(slice_to_chars _ _ _ Hds), ?(slice_from_chars _ _ _ Hds);
    try reflexivity.
  now apply exponential_chars.
Qed.

(** The text of a number holds digits and the characters of [-Infinity],
    [NaN] and of an exponent only. *)
Lemma string_of_number_chars x :
  string_forallb is_number_char (string_of_number x) = true.
Proof.
  destruct x as [|z|negative|negative s n]; cbn [string_of_number].
  - reflexivity.
  - destruct (Z.abs z <? 10 ^ 21); [apply string_of_Z_chars|].
    cbv zeta. rewrite string_forallb_app, minus_sign_chars.
    apply exponential_chars, strip_zeros_chars, string_of_Z_chars.
  - now destruct negative.
  - rewrite string_forallb_app, minus_sign_chars.
    apply decimal_text_chars, string_of_Z_chars.
Qed.



(** ** The validation engine *)

Section ValidationEngine.
Context `{JsRuntime}.


End ValidationEngine.



(** ** The coverage tracker *)

Lemma append_cons x (a b : string) : String x a +:+ b = String x (a +:+ b).
Proof. reflexivity. Qed.

Lemma append_nil_l (a : string) : "" +:+ a = a.
Proof. reflexivity. Qed.

Lemma append_assoc (a b c : string) : (a +:+ b) +:+ c = a +:+ b +:+ c.
Proof.
  induction a as [|x a IH]; [reflexivity|].
  rewrite !append_cons. now f_equal.
Qed.

Lemma size_list_to_set_le (l : list string) :
  (size (list_to_set l : gset string) <= length l)%nat.
Proof.
  induction l as [|x l IH].
  - rewrite list_to_set_nil, size_empty. reflexivity.
  - rewrite list_to_set_cons, size_union_alt, size_singleton. simpl length.
    assert (Hsub : list_to_set l ∖ {[x]} ⊆ (list_to_set l : gset string))
      by (intros k [Hk _]%elem_of_difference; exact Hk).
    apply subseteq_size in Hsub. lia.
Qed.

Section CoverageTracker.
Context `{JsRuntime}.

Lemma covered_within_universe_size t :
  covered_within_universe t ->
  (size (covered t) <= length (allEndpoints t))%nat.
Proof.
  intros Hinv.
  etransitivity; [|etransitivity;
    [apply (size_list_to_set_le (map record_key (allEndpoints t)))
    | rewrite length_map; reflexivity]].
  apply subseteq_size. intros k Hk.
  destruct (Hinv k Hk) as (e & He & <-).
  apply elem_of_list_to_set, list_elem_of_fmap. eauto.
Qed.

Lemma getUncovered_universe t e :
  e ∈ getUncovered t
  <-> e ∈ allEndpoints t /\ record_key e ∉ covered t.
Proof.
  unfold getUncovered. rewrite !list_elem_of_In, List.filter_In, negb_true_iff.
  rewrite bool_decide_eq_false. reflexivity.
Qed.

Lemma run_tracker_registered calls :
  forall t,
    covered_within_universe t ->
    records_registered t calls ->
    covered_within_universe (run_tracker t calls).
Proof.
  induction calls as [|[new_entries | r m st] calls IH]; intros t Hinv Hreg;
    simpl in *; [assumption| |].
  - apply IH; [|assumption].
    intros k Hk. destruct (Hinv k Hk) as (e & He & Hkey).
    exists e. split; [|assumption]. simpl. apply elem_of_app. now left.
  - destruct Hreg as [(e0 & He0 & Hkey0) Hreg]. apply IH; [|assumption].
    intros k Hk. simpl in Hk. apply elem_of_union in Hk as [Hk | Hk].
    + exact (Hinv k Hk).
    + apply elem_of_singleton in Hk as ->. eauto.
Qed.

Lemma records_registered_prefix before :
  forall t after,
    records_registered t (before ++ after) -> records_registered t before.
Proof.
  induction before as [|[new_entries | r m st] before IH]; intros t after; simpl;
    [trivial | apply IH |].
  intros [He Hrest]. split; [assumption|]. now apply IH in Hrest.
Qed.

(** C2, amended.  [recordCoverage] adds its key whether or not the triple
    is registered.  When every [recordCoverage] of a run is for the key of
    a record registered by then, at every point of the run each covered key
    is the key of a registered record, and the [covered] count of
    [getStats] is at most its [total]; the uncovered records are always
    registered ones. *)
Theorem covered_within_registered_universe
    (before after : list tracker_call) :
  records_registered new_tracker (before ++ after) ->
  let t := run_tracker new_tracker before in
  covered_within_universe t
  /\ (stats_covered (getStats t) <= total (getStats t))%nat
  /\ (forall e, e ∈ getUncovered t -> e ∈ allEndpoints t).
Proof.
  intros Hreg t.
  assert (Hinv : covered_within_universe t).
  { apply run_tracker_registered.
    - intros k Hk. simpl in Hk. set_solver.
    - eapply records_registered_prefix, Hreg. }
  split; [assumption|]. split.
  - simpl. now apply covered_within_universe_size.
  - intros e He. now apply getUncovered_universe in He as [He _].
Qed.

End CoverageTracker.

Lemma covered_within_registered_universe_witness :
  let t := run_tracker (H := plain_runtime) new_tracker
             [CallRegisterEndpoints [pets_entry];
              CallRecordCoverage "/pets" "get" "200"] in
  getUncovered (H := plain_runtime) t
  = [{| rec_route := "/pets"; rec_method := "GET"; rec_status := "404" |}]
  /\ covered_within_universe (H := plain_runtime) t
  /\ (stats_covered (getStats t) <= total (getStats t))%nat.
Proof.
  split; [vm_compute; reflexivity|].
  destruct (covered_within_registered_universe (H := plain_runtime)
              [CallRegisterEndpoints [pets_entry];
               CallRecordCoverage "/pets" "get" "200"] [])
    as (Hinv & Hle & _).
  - simpl. split; [|exact I].
    exists {| rec_route := "/pets"; rec_method := "GET"; rec_status := "200" |}.
    split; [left | reflexivity].
  - split; assumption.
Defined.

(** C2 as stated fails: a status that no record declares is recorded all
    the same, and the covered count passes the total. *)
Lemma covered_outside_universe :
  let t := run_tracker (H := plain_runtime) new_tracker
             [CallRegisterEndpoints
                [{| route := "/pets"; method := "GET"; statuses := ["200"] |}];
              CallRecordCoverage "/pets" "GET" "418";
              CallRecordCoverage "/pets" "GET" "500"] in
  "GET:/pets:418" ∈ covered t
  /\ (forall e, e ∈ allEndpoints t
                -> record_key (H := plain_runtime) e <> "GET:/pets:418")
  /\ stats_covered (getStats t) = 2%nat
  /\ total (getStats t) = 1%nat.
Proof.
  split; [|split; [|split]].
  - vm_compute. set_solver.
  - intros e He. vm_compute in He.
    apply list_elem_of_In in He as [<- | []]. vm_compute. discriminate.
  - vm_compute. reflexivity.
  - reflexivity.
Qed.

(** ** Coverage recorded by the assertions *)

Lemma colon_free_append_inv a b :
  colon_free (a +:+ b) -> colon_free a /\ colon_free b.
Proof.
  unfold colon_free. induction a as [|x a IH]; [now split|].
  rewrite append_cons. simpl.
  intros [Hx Hab]%orb_false_elim. rewrite Hx. simpl. auto.
Qed.

(** Two keys that end in colon-free fields end in the same field. *)
Lemma last_field_unique a b d s :
  colon_free d -> colon_free s ->
  a +:+ String ":" d = b +:+ String ":" s ->
  d = s.
Proof.
  intros Hd Hs. revert b.
  induction a as [|x a IH]; intros [|y b];
    rewrite ?append_cons, ?append_nil_l.
  - now intros [= ->].
  - intros [= <- ->]. apply colon_free_append_inv in Hd as [_ Hd]. discriminate.
  - intros [= -> <-]. apply colon_free_append_inv in Hs as [_ Hs]. discriminate.
  - intros [= _ Heq]. now apply IH in Heq.
Qed.

Lemma string_of_number_colon_free x : colon_free (string_of_number x).
Proof.
  pose proof (string_of_number_chars x) as Hc. unfold colon_free.
  induction (string_of_number x) as [|c s IH]; [reflexivity|].
  simpl in *. apply andb_prop in Hc as [Hc Hs]. rewrite (IH Hs), orb_false_r.
  unfold is_number_char, is_digit, is_colon in *.
  destruct (Ascii.eqb_spec c ":") as [->|]; [discriminate | reflexivity].
Qed.

Section CoverageOfAssertions.
Context `{JsRuntime}.

Lemma makeKey_last_field r m st :
  makeKey r m st = (toUpperCase m +:+ ":" +:+ r) +:+ String ":" st.
Proof. unfold makeKey. now rewrite !append_assoc. Qed.

(** The key recorded for the text of a number is never the key of a
    record whose status is a colon-free key that is not such a text. *)
Lemma numeric_key_misses r m x e :
  colon_free (rec_status e) -> non_numeric (rec_status e) ->
  makeKey r m (string_of_number x) <> record_key e.
Proof.
  intros Hfree Hnon Heq. unfold record_key in Heq.
  rewrite !makeKey_last_field in Heq.
  apply last_field_unique in Heq;
    [| apply string_of_number_colon_free | assumption].
  exact (Hnon x (eq_sym Heq)).
Qed.

(** What one call of [isValidResponse] does to the covered set: nothing,
    or it adds the key of the matched template, the method in upper case
    and the status written as a number. *)
Lemma isValidResponse_covered response a :
  let t := coverageTracker a in
  let t' := coverageTracker (fst (isValidResponse response a)) in
  allEndpoints t' = allEndpoints t
  /\ (covered t' = covered t
      \/ exists parsed vs pathMatch,
           parseResponse response = Ok parsed
           /\ registered_validators a = Some vs
           /\ matchPath (res_path parsed) (obj_keys vs) = Some pathMatch
           /\ covered t'
              = covered t
                ∪ {[ toUpperCase (res_method parsed) +:+ ":" +:+ matched pathMatch
                     +:+ ":" +:+ string_of_number (res_status parsed) ]}).
Proof.
  unfold isValidResponse, getValidators.
  destruct (hasRegistered a); simpl; [|auto].
  destruct (registered_validators a) as [vs|] eqn:Hvs; simpl; [|auto].
  destruct (validateResponse response vs) as [result| |]; simpl; [|auto|auto].
  assert (Hgoal :
    let a' := if coverage_enabled (coverageOptions a)
              then with_tracker a (track_coverage response vs (coverageTracker a))
              else a in
    allEndpoints (coverageTracker a') = allEndpoints (coverageTracker a)
    /\ (covered (coverageTracker a') = covered (coverageTracker a)
        \/ exists parsed vs0 pathMatch,
             parseResponse response = Ok parsed
             /\ Some vs = Some vs0
             /\ matchPath (res_path parsed) (obj_keys vs0) = Some pathMatch
             /\ covered (coverageTracker a')
                = covered (coverageTracker a)
                  ∪ {[ toUpperCase (res_method parsed) +:+ ":" +:+ matched pathMatch
                       +:+ ":" +:+ string_of_number (res_status parsed) ]})).
  { destruct (coverage_enabled (coverageOptions a)); simpl; [|auto].
    unfold track_coverage.
    destruct (parseResponse response) as [parsed| |]; [|auto|auto].
    destruct (matchPath (res_path parsed) (obj_keys vs)) as [pathMatch|] eqn:Hm;
      [|auto].
    split; [reflexivity|]. right. exists parsed, vs, pathMatch. auto. }
  destruct (negb (valid result));
    [destruct (message_described (errors result))|]; exact Hgoal.
Qed.

Lemma run_assertions_call_keeps a c (e : CoverageRecord) :
  colon_free (rec_status e) -> non_numeric (rec_status e) ->
  e ∈ allEndpoints (coverageTracker a) ->
  record_key e ∉ covered (coverageTracker a) ->
  e ∈ allEndpoints (coverageTracker (run_assertions_call a c))
  /\ record_key e ∉ covered (coverageTracker (run_assertions_call a c)).
Proof.
  intros Hfree Hnon Hin Hnot. destruct c as [built options | | response]; simpl.
  - unfold registerSpecs. destruct built as [vs new_entries|]; simpl; [|auto].
    destruct (coverage_enabled options); simpl; [|auto].
    split; [apply elem_of_app; now left | assumption].
  - auto.
  - destruct (isValidResponse_covered response a) as [Hall Hcov].
    rewrite Hall. split; [assumption|].
    destruct Hcov as [-> | (parsed & vs & pathMatch & _ & _ & _ & ->)];
      [assumption|].
    intros [Hk | Hk%elem_of_singleton]%elem_of_union; [contradiction|].
    eapply (numeric_key_misses (matched pathMatch) (res_method parsed)
                               (res_status parsed) e); eauto.
Qed.

(** C9, amended.  [isValidResponse] records coverage only under the key
    made of the matched template, the method in upper case and the status
    of the response as [String] writes a number.  A registered record
    whose status key has no colon and is not the text of any number
    (["default"], ["4XX"]; but not ["Infinity"], ["NaN"] or ["1e+21"]) is
    therefore never marked covered by a run of the assertions that the
    embedding describes: it stays in [getUncovered()], also when responses
    validate through the default or the wildcard entry. *)
Theorem non_numeric_status_stays_uncovered
    (calls : list assertions_call) (a : Assertions) (e : CoverageRecord) :
  run_described a calls ->
  colon_free (rec_status e) ->
  non_numeric (rec_status e) ->
  e ∈ allEndpoints (coverageTracker a) ->
  record_key e ∉ covered (coverageTracker a) ->
  e ∈ getUncovered (coverageTracker (run_assertions a calls))
  /\ (forall response,
         let t := coverageTracker a in
         let t' := coverageTracker (fst (isValidResponse response a)) in
         covered t' = covered t
         \/ exists parsed vs pathMatch,
              parseResponse response = Ok parsed
              /\ registered_validators a = Some vs
              /\ matchPath (res_path parsed) (obj_keys vs) = Some pathMatch
              /\ covered t'
                 = covered t
                   ∪ {[ toUpperCase (res_method parsed) +:+ ":"
                        +:+ matched pathMatch +:+ ":"
                        +:+ string_of_number (res_status parsed) ]}).
Proof.
  intros _ Hfree Hnon Hin Hnot. split.
  - apply getUncovered_universe. revert a Hin Hnot.
    induction calls as [|c calls IH]; intros a Hin Hnot; simpl; [auto|].
    destruct (run_assertions_call_keeps a c e Hfree Hnon Hin Hnot) as [Hin' Hnot'].
    exact (IH _ Hin' Hnot').
  - intros response. exact (proj2 (isValidResponse_covered response a)).
Qed.

End CoverageOfAssertions.

Lemma non_numeric_by_char s :
  string_forallb is_number_char s = false -> non_numeric s.
Proof. intros Hs x ->. now rewrite string_of_number_chars in Hs. Qed.

Lemma non_numeric_status_stays_uncovered_witness :
  let e := {| rec_route := "/pets"; rec_method := "GET"; rec_status := "default" |} in
  snd (isValidResponse (H := plain_runtime) (get_pets (Int 200)) (registered default_doc))
  = Ok tt
  /\ e ∈ getUncovered (H := plain_runtime)
           (coverageTracker
              (run_assertions (H := plain_runtime) (registered default_doc)
                              [CallIsValidResponse (get_pets (Int 200))])).
Proof.
  intros e. split; [vm_compute; reflexivity|].
  apply (non_numeric_status_stays_uncovered (H := plain_runtime)
           [CallIsValidResponse (get_pets (Int 200))] (registered default_doc) e).
  - split; [vm_compute; discriminate | exact I].
  - reflexivity.
  - apply non_numeric_by_char. reflexivity.
  - vm_compute. left.
  - replace (covered (coverageTracker (registered default_doc)))
      with (∅ : gset string) by (vm_compute; reflexivity).
    apply not_elem_of_empty.
Defined.

(** C9 as stated fails for a status key that holds a colon: the record
    [(/a, GET, x:200)] has the key of [(/a:x, GET, 200)], and a valid
    response to [GET /a:x] marks it covered. *)
Lemma colon_status_marked_covered :
  let e := {| rec_route := "/a"; rec_method := "GET"; rec_status := "x:200" |} in
  let response := JObj [("method", JStr "GET"); ("url", JStr "/a:x");
                        ("status", JNum (Int 200))] in
  let a := registered colon_doc in
  non_numeric (rec_status e)
  /\ e ∈ getUncovered (H := plain_runtime) (coverageTracker a)
  /\ snd (isValidResponse (H := plain_runtime) response a) = Ok tt
  /\ e ∉ getUncovered (H := plain_runtime)
           (coverageTracker (fst (isValidResponse (H := plain_runtime) response a))).
Proof.
  intros e response a. split; [|split; [|split]].
  - apply non_numeric_by_char. reflexivity.
  - vm_compute. left.
  - vm_compute. reflexivity.
  - vm_compute. apply not_elem_of_nil.
Qed.

(** ** The response normalizer *)

Lemma obj_get_In {V} (o : list (string * V)) k v :
  obj_get o k = Some v -> In (k, v) o.
Proof.
  induction o as [|[k' v'] o IH]; simpl; [discriminate|].
  destruct (String.eqb_spec k' k) as [->|_].
  - intros [= ->]. now left.
  - intros Hg. right. auto.
Qed.

(** The own enumerable properties of an array are its indices: a name
    that is not made of digits is not among them. *)
Lemma indexed_no_named_key {A} (items : list A) k :
  string_forallb is_digit k = false -> obj_get (indexed items) k = None.
Proof.
  intros Hk. unfold indexed. generalize 0%nat.
  induction items as [|x items IH]; intros n0; [reflexivity|].
  simpl. destruct (String.eqb_spec (string_of_nat n0) k) as [Heq|_].
  - exfalso. subst k. unfold string_of_nat in Hk.
    now rewrite (proj1 (NilZero_string_of_uint_digits _)) in Hk.
  - apply IH.
Qed.

Lemma string_or_falsy_truthy u :
  string_or_falsy u = true -> truthy u = true -> exists s, u = JStr s.
Proof.
  destruct u; intros Hn Ht; try (eexists; reflexivity);
    cbn [string_or_falsy] in Hn; rewrite Ht in Hn; discriminate.
Qed.

Lemma js_or_assoc a b c : js_or a (js_or b c) = js_or (js_or a b) c.
Proof. unfold js_or. destruct (truthy a) eqn:Ha; [now rewrite Ha | reflexivity]. Qed.

Lemma throws_only_bind {A B} (P : error -> Prop) (m : outcome A)
    (k : A -> outcome B) :
  throws_only P m -> (forall a, throws_only P (k a)) -> throws_only P (m ≫= k).
Proof. destruct m; simpl; auto. Qed.

Lemma throws_only_Ok {A} (P : error -> Prop) (a : A) : throws_only P (Ok a).
Proof. exact I. Qed.

Lemma wrapped_response_In res inner :
  wrapped_response res = Some inner ->
  In ("response", inner) res /\ truthy inner && typeof_object inner = true.
Proof.
  unfold wrapped_response.
  destruct (obj_get res "response") as [inner'|] eqn:Hg; [|discriminate].
  destruct (truthy inner' && typeof_object inner') eqn:Hobj; [|discriminate].
  intros [= ->]. split; [now apply obj_get_In | assumption].
Qed.

Lemma recognised_dec v : recognised v \/ ~ recognised v.
Proof.
  induction v as [| | b | n | s | items _ | fields IH | t r _] using jsval_induction;
    try (right; inversion 1; fail).
  destruct (wrapped_response fields) as [inner|] eqn:Hw.
  - destruct (wrapped_response_In _ _ Hw) as [Hin _].
    rewrite Forall_forall in IH.
    destruct (IH _ (proj2 (list_elem_of_In _ _) Hin)) as [Hrec | Hnot].
    + left. eapply recognised_wrapper; eauto.
    + right. inversion 1 as [? inner0 Hw0 Hrec0 | ? Hw0 Hs0]; subst;
        rewrite Hw in Hw0; [injection Hw0 as <-; contradiction | discriminate].
  - destruct (has_shape fields) eqn:Hs.
    + left. now apply recognised_shape.
    + right. inversion 1; congruence.
Qed.

Section ResponseNormalizer.
Context `{JsRuntime}.

Lemma parseResponse_obj res :
  parseResponse (JObj res)
  = match wrapped_response res with
    | Some inner => parseResponse inner
    | None => parse_shapes res
    end.
Proof.
  unfold wrapped_response. simpl.
  match goal with
  | |- ?find_wrapper res = _ =>
      assert (Hfind : forall l,
                 find_wrapper l
                 = match
                     match obj_get l "response" with
                     | Some inner =>
                         if truthy inner && typeof_object inner
                         then Some inner else None
                     | None => None
                     end
                   with
                   | Some inner => parseResponse inner
                   | None => parse_shapes res
                   end)
  end.
  { induction l as [|[k inner] l IH]; simpl; [reflexivity|].
    destruct (String.eqb k "response"); [|exact IH].
    destruct (truthy inner && typeof_object inner); reflexivity. }
  apply Hfind.
Qed.

Lemma extractPath_throws url : throws_only shape_error (extractPath url).
Proof.
  destruct url; simpl; try (now left).
  - destruct (_ || _); [destruct (url_pathname s)|]; exact I.
  - destruct (_ || _); [exact I | now left].
Qed.

Lemma get_member_throws v k : throws_only shape_error (get_member v k).
Proof. destruct v; simpl; try exact I; now left. Qed.

Lemma ToString_throws v : throws_only shape_error (ToString v).
Proof.
  destruct (ToString v) as [|e|] eqn:Hv; simpl; try exact I.
  right. left. eauto.
Qed.

Lemma ToNumber_throws v : throws_only shape_error (ToNumber v).
Proof.
  destruct (ToNumber v) as [|e|] eqn:Hv; simpl; try exact I.
  right. right. left. eauto.
Qed.

Lemma call_if_function_throws v : throws_only shape_error (call_if_function v).
Proof.
  destruct v as [| | | | | | |[] r]; simpl; try exact I.
  right. right. right. eauto.
Qed.

Lemma normalizeHeaders_throws headers :
  throws_only shape_error (normalizeHeaders headers).
Proof.
  unfold normalizeHeaders.
  assert (Hfold : forall l acc,
             throws_only shape_error acc ->
             throws_only shape_error
               (fold_left
                  (fun acc kv =>
                     result ← acc;
                     text ← ToString (snd kv);
                     Ok (obj_assign (toLowerCase (fst kv)) text result))
                  l acc)).
  { induction l as [|kv l IH]; intros acc Hacc; simpl; [assumption|].
    apply IH. apply throws_only_bind; [assumption|]. intros result.
    apply throws_only_bind; [apply ToString_throws|]. intros text. exact I. }
  apply Hfold. exact I.
Qed.

Lemma parsed_from_throws m read_url st headers body :
  throws_only shape_error m ->
  throws_only shape_error read_url ->
  throws_only shape_error body ->
  throws_only shape_error (parsed_from m read_url st headers body).
Proof.
  intros Hm Hu Hb. unfold parsed_from.
  apply throws_only_bind; [assumption|]. intros mv.
  apply throws_only_bind; [apply ToString_throws|]. intros text.
  apply throws_only_bind; [assumption|]. intros url.
  apply throws_only_bind; [apply extractPath_throws|]. intros p.
  apply throws_only_bind; [apply ToNumber_throws|]. intros status.
  apply throws_only_bind; [apply normalizeHeaders_throws|]. intros hs.
  apply throws_only_bind; [assumption|]. intros b. exact I.
Qed.

Lemma url_or_root_throws v k : throws_only shape_error (url_or_root v k).
Proof.
  unfold url_or_root. apply throws_only_bind; [apply get_member_throws|].
  intros url. exact I.
Qed.

Lemma has_shape_generic res : has_shape res = is_generic res.
Proof.
  unfold has_shape, is_api_client, is_axios, is_supertest, is_generic.
  destruct (obj_has res "request"), (obj_has res "statusCode"),
    (obj_has res "data"), (obj_has res "config"), (obj_has res "status"),
    (obj_has res "body"), (obj_has res "req"); reflexivity.
Qed.

(** Outside the four shapes [parse_shapes] throws the input error; inside
    them it throws nothing of its own. *)
Lemma parse_shapes_cases res :
  if has_shape res
  then throws_only shape_error (parse_shapes res)
  else parse_shapes res = Throw (JsError unknown_format).
Proof.
  rewrite has_shape_generic. unfold is_generic, parse_shapes.
  destruct (obj_has res "request" && obj_has res "statusCode") eqn:H1.
  { apply andb_prop in H1 as [_ ->]. rewrite orb_true_r.
    apply parsed_from_throws;
      [apply get_member_throws | apply url_or_root_throws
      | apply call_if_function_throws]. }
  destruct (obj_has res "data" && obj_has res "config" && obj_has res "status")
    eqn:H2.
  { apply andb_prop in H2 as [_ ->]. cbn [orb].
    apply parsed_from_throws;
      [apply get_member_throws | apply url_or_root_throws | exact I]. }
  destruct (obj_has res "body" && obj_has res "req" && obj_has res "statusCode")
    eqn:H3.
  { apply andb_prop in H3 as [_ ->]. rewrite orb_true_r.
    apply parsed_from_throws;
      [apply get_member_throws | apply url_or_root_throws | exact I]. }
  destruct (obj_has res "status" || obj_has res "statusCode"); [|reflexivity].
  apply parsed_from_throws; exact I.
Qed.

Lemma parseResponse_recognised v :
  recognised v -> throws_only shape_error (parseResponse v).
Proof.
  induction 1 as [res inner Hw _ IH | res Hw Hs];
    rewrite parseResponse_obj, Hw; [exact IH|].
  pose proof (parse_shapes_cases res) as Hc. now rewrite Hs in Hc.
Qed.

Lemma parseResponse_unrecognised v :
  recognised v
  \/ (truthy v && typeof_object v = false
      /\ parseResponse v = Throw (JsError "Invalid response: expected an object"))
  \/ (truthy v && typeof_object v = true
      /\ parseResponse v = Throw (JsError unknown_format)).
Proof.
  induction v as [| | b | n | s | items _ | fields IH | t r _] using jsval_induction;
    try (right; left; split; [|reflexivity];
         first [reflexivity | apply andb_false_r]).
  - right. right. split; [reflexivity|]. simpl.
    pose proof (parse_shapes_cases (indexed items)) as Hc.
    replace (has_shape (indexed items)) with false in Hc; [exact Hc|].
    rewrite has_shape_generic. unfold is_generic, obj_has.
    rewrite !indexed_no_named_key by reflexivity. reflexivity.
  - rewrite parseResponse_obj.
    destruct (wrapped_response fields) as [inner|] eqn:Hw.
    + destruct (wrapped_response_In _ _ Hw) as [Hin Hobj].
      rewrite Forall_forall in IH.
      destruct (IH _ (proj2 (list_elem_of_In _ _) Hin))
        as [Hrec | [[Hno _] | [_ Hthrow]]].
      * left. eapply recognised_wrapper; eauto.
      * cbn [snd] in Hno. congruence.
      * right. right. split; [reflexivity | exact Hthrow].
    + pose proof (parse_shapes_cases fields) as Hc.
      destruct (has_shape fields) eqn:Hs; [left; now apply recognised_shape|].
      right. right. split; [reflexivity | exact Hc].
Qed.

Lemma extractPath_string_or_falsy u :
  string_or_falsy u = true ->
  (forall s, u = JStr s ->
             startsWith "http://" s || startsWith "https://" s = true ->
             url_pathname s <> Outside) ->
  exists p, extractPath (js_or u (JStr "/")) = Ok p.
Proof.
  intros Hu Hpath. unfold js_or. destruct (truthy u) eqn:Ht.
  - destruct (string_or_falsy_truthy _ Hu Ht) as [s ->]. simpl.
    destruct (_ || _) eqn:Hscheme; [|eauto].
    specialize (Hpath s eq_refl Hscheme).
    destruct (url_pathname s); [eauto | eauto | contradiction].
  - simpl. eauto.
Qed.

Lemma normalizeHeaders_returns headers :
  Forall (fun kv => exists text, ToString (snd kv) = Ok text) (entries headers) ->
  exists hs, normalizeHeaders headers = Ok hs.
Proof.
  unfold normalizeHeaders. generalize (@nil (string * string)).
  induction (entries headers) as [|kv l IH]; intros acc Hall; simpl; [eauto|].
  inversion Hall as [|? ? [text Htext] Hrest]; subst.
  rewrite Htext. simpl. now apply IH.
Qed.

Lemma parsed_from_returns mv url st headers b :
  (exists text, ToString (js_or mv (JStr "GET")) = Ok text) ->
  (exists p, extractPath url = Ok p) ->
  (exists status, ToNumber st = Ok status) ->
  Forall (fun kv => exists text, ToString (snd kv) = Ok text)
         (entries (js_or headers (JObj []))) ->
  exists parsed, parsed_from (Ok mv) (Ok url) st headers (Ok b) = Ok parsed.
Proof.
  intros [text Ht] [p Hp] [status Hs] Hh.
  destruct (normalizeHeaders_returns _ Hh) as [hs Hhs].
  unfold parsed_from. simpl. rewrite Ht. simpl. rewrite Hp. simpl.
  rewrite Hs. simpl. rewrite Hhs. simpl. eauto.
Qed.

Lemma parse_shapes_members_ok res :
  has_shape res = true -> members_ok res ->
  exists parsed, parse_shapes res = Ok parsed.
Proof.
  rewrite has_shape_generic.
  unfold members_ok, conversions_return, method_value, url_value, status_value,
    body_returns, shape_source, parse_shapes,
    is_api_client, is_axios, is_supertest, is_generic.
  intros Hshape (Hsrc & Hurl & Hpath & (Hm & Hst & Hhs) & Hbody).
  assert (Hmember : forall src key,
             match src with JUndefined | JNull => False | _ => True end ->
             get_member src "method"
             = Ok match src with JObj members => field members "method"
                            | _ => JUndefined end
             /\ url_or_root src key
                = Ok (js_or match src with JObj members => field members key
                                      | _ => JUndefined end (JStr "/"))).
  { intros src key Hok. destruct src; try contradiction; split; reflexivity. }
  destruct (obj_has res "request" && obj_has res "statusCode").
  { destruct (Hmember (field res "request") "url" Hsrc) as [-> ->].
    destruct (field res "body") as [| | | | | | |[] r] eqn:Hb;
      try discriminate; simpl call_if_function;
      (apply parsed_from_returns;
       [destruct (field res "request"); assumption
       | apply extractPath_string_or_falsy;
         destruct (field res "request"); assumption
       | assumption | assumption]). }
  destruct (obj_has res "data" && obj_has res "config" && obj_has res "status").
  { destruct (Hmember (field res "config") "url" Hsrc) as [-> ->].
    apply parsed_from_returns;
      [destruct (field res "config"); assumption
      | apply extractPath_string_or_falsy;
        destruct (field res "config"); assumption
      | assumption | assumption]. }
  destruct (obj_has res "body" && obj_has res "req" && obj_has res "statusCode").
  { destruct (Hmember (field res "req") "path" Hsrc) as [-> ->].
    apply parsed_from_returns;
      [destruct (field res "req"); assumption
      | apply extractPath_string_or_falsy;
        destruct (field res "req"); assumption
      | assumption | assumption]. }
  rewrite Hshape. rewrite js_or_assoc.
  apply parsed_from_returns;
    [assumption | now apply extractPath_string_or_falsy | assumption | assumption].
Qed.

Lemma parseResponse_well_formed v :
  well_formed v -> exists parsed, parseResponse v = Ok parsed.
Proof.
  induction 1 as [res inner Hw _ IH | res Hw Hs Hm];
    rewrite parseResponse_obj, Hw; [exact IH|].
  now apply parse_shapes_members_ok.
Qed.

(** C8, amended.  [parseResponse] throws its input error, an [Error] with
    one of its two messages, when its argument is not recognised: it is
    not an object, or following its [response] wrappers (which are tried
    before any other shape) leads to an object with none of the four
    remaining shapes.  On a recognised argument it throws nothing of its
    own: an exception there is a [TypeError] of the language (the member
    it reads the method and the url from is [null] or [undefined], the url
    is no string) or is thrown by code of the response (a conversion by
    [String] or [Number], the body accessor).  It returns a parsed
    response when that member is neither [null] nor [undefined], the url
    is a string or falsy, and these conversions and the body accessor
    return.  What [parseResponse] throws, [validateResponse] throws; a
    schema mismatch is a result, not an exception. *)
Theorem parseResponse_input_error (v : jsval) :
  (truthy v && typeof_object v = false ->
   parseResponse v = Throw (JsError "Invalid response: expected an object"))
  /\ (truthy v && typeof_object v = true -> ~ recognised v ->
      parseResponse v = Throw (JsError unknown_format))
  /\ (recognised v -> forall e, parseResponse v = Throw e -> shape_error e)
  /\ (recognised v \/ ~ recognised v)
  /\ (well_formed v -> exists parsed, parseResponse v = Ok parsed)
  /\ (forall validators e,
         parseResponse v = Throw e -> validateResponse v validators = Throw e).
Proof.
  assert (Hobj : recognised v -> truthy v && typeof_object v = true).
  { now destruct 1. }
  split; [|split; [|split; [|split; [|split]]]].
  - intros Hno.
    destruct (parseResponse_unrecognised v) as [Hrec | [[_ Ht] | [Hyes _]]];
      [apply Hobj in Hrec | assumption | ]; congruence.
  - intros Hyes Hnot.
    destruct (parseResponse_unrecognised v) as [Hrec | [[Hno _] | [_ Ht]]];
      [contradiction | congruence | assumption].
  - intros Hrec e He. pose proof (parseResponse_recognised v Hrec) as Hthrows.
    now rewrite He in Hthrows.
  - apply recognised_dec.
  - apply parseResponse_well_formed.
  - intros validators e He. unfold validateResponse. now rewrite He.
Qed.

End ResponseNormalizer.

Example parseResponse_api_client :
  let response :=
    JObj [("request", JObj [("method", JStr "get"); ("url", JStr "/pets/1?x=1")]);
          ("statusCode", JNum (Int 200));
          ("headers", JObj [("Content-Type", JStr "application/json")]);
          ("body", JFun true (JObj [("id", JNum (Int 1))]))] in
  well_formed (H := plain_runtime) response
  /\ parseResponse (H := plain_runtime) (JObj [("response", response)])
     = Ok {| res_method := "GET"; res_path := "/pets/1"; res_status := Int 200;
             res_headers := [("content-type", "application/json")];
             res_body := JObj [("id", JNum (Int 1))] |}.
Proof.
  split; [|reflexivity]. apply well_formed_shape; [reflexivity | reflexivity|].
  split; [exact I|]. split; [reflexivity|].
  split; [intros s [= <-]; discriminate|].
  split; [|reflexivity].
  split; [eexists; reflexivity|]. split; [eexists; reflexivity|].
  repeat constructor. eexists; reflexivity.
Qed.

(** C8 as stated fails: an object with a [statusCode] has the generic
    shape, but its [response] wrapper is followed first and leads to an
    object of no shape, so the input error is thrown; an object with
    [request] and [statusCode] whose [request] is [null] throws a
    [TypeError]; so does one whose method is an object without conversion
    methods; and what the body accessor throws is thrown. *)
Lemma recognised_shape_throws :
  let wrapper := JObj [("response", JObj []); ("statusCode", JNum (Int 200))] in
  let null_request := JObj [("request", JNull); ("statusCode", JNum (Int 200))] in
  let no_text := JObj [("status", JNum (Int 200));
                       ("method", JObj [("toString", JNull); ("valueOf", JNull)])] in
  let failing_body := JObj [("request", JObj []); ("statusCode", JNum (Int 200));
                            ("body", JFun false (JStr "no body"))] in
  has_shape [("response", JObj []); ("statusCode", JNum (Int 200))] = true
  /\ parseResponse (H := plain_runtime) wrapper = Throw (JsError unknown_format)
  /\ recognised null_request
  /\ parseResponse (H := plain_runtime) null_request = Throw JsTypeError
  /\ recognised no_text
  /\ parseResponse (H := plain_runtime) no_text = Throw JsTypeError
  /\ recognised failing_body
  /\ parseResponse (H := plain_runtime) failing_body
     = Throw (JsThrown (JStr "no body")).
Proof.
  intros wrapper null_request no_text failing_body.
  split; [reflexivity|]. split; [reflexivity|].
  split; [apply recognised_shape; reflexivity|]. split; [reflexivity|].
  split; [apply recognised_shape; reflexivity|]. split; [reflexivity|].
  split; [apply recognised_shape; reflexivity | reflexivity].
Qed.

(** ** The validator compiler *)

Lemma obj_get_update_eq {V} (o : list (string * V)) k v :
  obj_has o k = true -> obj_get (obj_update k v o) k = Some v.
Proof.
  unfold obj_has. induction o as [|[k' v'] o IH]; simpl; [discriminate|].
  destruct (String.eqb_spec k' k) as [->|Hne]; simpl.
  - now rewrite String.eqb_refl.
  - destruct (String.eqb_spec k' k); [contradiction | exact IH].
Qed.

Lemma obj_get_update_ne {V} (o : list (string * V)) k k' v :
  k <> k' -> obj_get (obj_update k v o) k' = obj_get o k'.
Proof.
  intros Hne. induction o as [|[k0 v0] o IH]; simpl; [reflexivity|].
  destruct (String.eqb_spec k0 k) as [->|Hk]; simpl.
  - destruct (String.eqb_spec k k'); [contradiction | reflexivity].
  - destruct (String.eqb_spec k0 k'); [reflexivity | exact IH].
Qed.

Lemma obj_get_insert_eq {V} (o : list (string * V)) k v :
  obj_has o k = false -> obj_get (obj_insert k v o) k = Some v.
Proof.
  unfold obj_has. induction o as [|[k' v'] o IH]; simpl.
  - now rewrite String.eqb_refl.
  - destruct (String.eqb_spec k' k) as [->|Hne]; [discriminate|].
    intros Hno. destruct (comes_before k k'); simpl.
    + now rewrite String.eqb_refl.
    + destruct (String.eqb_spec k' k); [contradiction | now apply IH].
Qed.

Lemma obj_get_insert_ne {V} (o : list (string * V)) k k' v :
  k <> k' -> obj_get (obj_insert k v o) k' = obj_get o k'.
Proof.
  intros Hne. induction o as [|[k0 v0] o IH]; simpl.
  - destruct (String.eqb_spec k k'); [contradiction | reflexivity].
  - destruct (comes_before k k0); simpl.
    + destruct (String.eqb_spec k k'); [contradiction | reflexivity].
    + destruct (String.eqb_spec k0 k'); [reflexivity | exact IH].
Qed.

Lemma obj_get_set_eq {V} (o : list (string * V)) k v :
  obj_get (obj_set k v o) k = Some v.
Proof.
  unfold obj_set. destruct (obj_has o k) eqn:Hk;
    [now apply obj_get_update_eq | now apply obj_get_insert_eq].
Qed.

Lemma obj_get_set_ne {V} (o : list (string * V)) k k' v :
  k <> k' -> obj_get (obj_set k v o) k' = obj_get o k'.
Proof.
  intros Hne. unfold obj_set. destruct (obj_has o k);
    [now apply obj_get_update_ne | now apply obj_get_insert_ne].
Qed.

Lemma obj_get_assign_eq {V} (o : list (string * V)) k v :
  k <> "__proto__" -> obj_get (obj_assign k v o) k = Some v.
Proof.
  intros Hk. unfold obj_assign.
  destruct (String.eqb_spec k "__proto__"); [contradiction|].
  apply obj_get_set_eq.
Qed.

Lemma obj_get_assign_ne {V} (o : list (string * V)) k k' v :
  k <> k' -> obj_get (obj_assign k v o) k' = obj_get o k'.
Proof.
  intros Hne. unfold obj_assign.
  destruct (String.eqb k "__proto__" && negb (obj_has o k)); [reflexivity|].
  now apply obj_get_set_ne.
Qed.

Lemma fold_outcome_app {A B} (f : A -> B -> outcome A) l1 l2 a :
  fold_outcome f (l1 ++ l2) a = a' ← fold_outcome f l1 a; fold_outcome f l2 a'.
Proof.
  revert a. induction l1 as [|x l1 IH]; intros a; simpl; [reflexivity|].
  destruct (f a x) as [a'| |]; simpl; [apply IH | reflexivity | reflexivity].
Qed.

Lemma bind_Ok_inv {A B} (m : outcome A) (k : A -> outcome B) b :
  m ≫= k = Ok b -> exists a, m = Ok a /\ k a = Ok b.
Proof. destruct m; simpl; [eauto | discriminate | discriminate]. Qed.

(** An invariant of a loop that returns. *)
Lemma fold_outcome_ind {A B} (P : A -> Prop) (f : A -> B -> outcome A) l :
  (forall a x a', In x l -> P a -> f a x = Ok a' -> P a') ->
  forall a a', P a -> fold_outcome f l a = Ok a' -> P a'.
Proof.
  induction l as [|x l IH]; intros Hstep a a' Ha; simpl.
  - now intros [= <-].
  - intros (a1 & H1 & Hrest)%bind_Ok_inv.
    apply (IH (fun a x a' Hin => Hstep a x a' (or_intror Hin)) a1);
      [|assumption].
    apply (Hstep a x a1); [now left | assumption | assumption].
Qed.

Lemma NoDup_HTTP_METHODS : NoDup HTTP_METHODS.
Proof.
  unfold HTTP_METHODS.
  repeat (apply NoDup_cons_2;
          [intros Hin;
           repeat (apply elem_of_cons in Hin as [Hin|Hin]; [discriminate|]);
           now apply elem_of_nil in Hin|]).
  apply NoDup_nil_2.
Qed.

Section ValidatorCompiler.
Context `{JsRuntime} `{SchemaEngine}.

(** One turn of the loop over the responses. *)
Lemma build_response_step path m table sts warns ajv code response acc' :
  build_response path m (table, sts, warns, ajv) (code, response) = Ok acc' ->
  let '(table', sts', warns', ajv') := acc' in
  sts' = sts ++ [code]
  /\ (forall w, In w warns -> In w warns')
  /\ (forall k, k <> code -> obj_get table' k = obj_get table k)
  /\ match json_schema response with
     | None =>
         table' = obj_assign code {| body := None |} table
         /\ warns' = warns /\ ajv' = ajv
     | Some sch =>
         (exists validate,
             compileSchema ajv sch = Ok (ajv', Some validate)
             /\ table' = obj_assign code {| body := Some validate |} table
             /\ warns' = warns)
         \/ (compileSchema ajv sch = Ok (ajv', None)
             /\ table' = table
             /\ warns' = warns ++ [compile_warning m path code])
     end.
Proof.
  unfold build_response. cbn [fst snd].
  destruct (json_schema response) as [sch|].
  - destruct (compileSchema ajv sch) as [[ajv1 [validate|]]| |] eqn:Hc;
      simpl; try discriminate; intros [= <-].
    + split; [reflexivity|]. split; [auto|]. split.
      * intros k Hk. apply obj_get_assign_ne. congruence.
      * left. eauto.
    + split; [reflexivity|]. split; [intros w Hw; apply in_or_app; now left|].
      split; [reflexivity|]. right. auto.
  - intros [= <-]. split; [reflexivity|]. split; [auto|]. split; [|auto].
    intros k Hk. apply obj_get_assign_ne. congruence.
Qed.

(** The loop over the responses: the statuses, the warnings and the keys
    it leaves alone. *)
Lemma build_response_fold path m declared :
  forall table sts warns ajv acc',
    fold_outcome (build_response path m) declared (table, sts, warns, ajv)
    = Ok acc' ->
    let '(table', sts', warns', ajv') := acc' in
    sts' = sts ++ map fst declared
    /\ (forall w, In w warns -> In w warns')
    /\ (forall k, ~ In k (map fst declared) -> obj_get table' k = obj_get table k).
Proof.
  induction declared as [|[code response] declared IH];
    intros table sts warns ajv acc'; simpl.
  - intros [= <-]. rewrite app_nil_r. auto.
  - intros ([[[table1 sts1] warns1] ajv1] & H1 & Hrest)%bind_Ok_inv.
    pose proof (build_response_step _ _ _ _ _ _ _ _ _ H1) as Hstep.
    cbv beta iota in Hstep. destruct Hstep as (Hs & Hw & Hk & _).
    specialize (IH _ _ _ _ _ Hrest).
    destruct acc' as [[[table' sts'] warns'] ajv'].
    destruct IH as (Hs' & Hw' & Hk').
    split; [|split].
    + rewrite Hs', Hs, <- app_assoc. reflexivity.
    + auto.
    + intros k Hnot. rewrite Hk' by tauto. apply Hk. intros ->. tauto.
Qed.

(** What the loop over the responses leaves for each of them. *)
Lemma build_response_settled path m declared :
  forall table sts warns ajv table' sts' warns' ajv' st,
    NoDup (map fst declared) ->
    (forall k, In k (map fst declared) -> obj_get table k = None) ->
    fold_outcome (build_response path m) declared (table, sts, warns, ajv)
    = Ok (table', sts', warns', ajv') ->
    (forall w, In w warns' -> In w (warnings st)) ->
    forall code response,
      In (code, response) declared ->
      code <> "__proto__" ->
      response_settled st path m table' code response.
Proof.
  induction declared as [|[c0 r0] declared IH];
    intros table sts warns ajv table' sts' warns' ajv' st Hnd Hfresh Hfold Hst
           code response Hin Hproto; [contradiction|].
  change (map fst ((c0, r0) :: declared)) with (c0 :: map fst declared) in *.
  apply NoDup_cons in Hnd as [Hc0 Hnd]. simpl in Hfold.
  apply bind_Ok_inv in Hfold as ([[[table1 sts1] warns1] ajv1] & H1 & Hrest).
  pose proof (build_response_step _ _ _ _ _ _ _ _ _ H1) as Hstep.
  cbv beta iota in Hstep. destruct Hstep as (_ & _ & Hother & Hentry).
  destruct Hin as [[= -> ->] | Hin].
  2:{ eapply (IH table1); eauto. intros k Hk. rewrite Hother.
      - apply Hfresh. now right.
      - intros ->. apply Hc0, list_elem_of_In, Hk. }
  pose proof (build_response_fold _ _ _ _ _ _ _ _ Hrest) as Hfold.
  cbv beta iota in Hfold. destruct Hfold as (_ & Hw & Hk).
  assert (Hc0' : ~ In code (map fst declared))
    by (intros Hc; apply Hc0, list_elem_of_In, Hc).
  unfold response_settled. destruct (json_schema response) as [sch|].
  - destruct Hentry as [(validate & Hc & -> & ->) | (Hc & -> & ->)].
    + left. exists ajv, ajv1, validate. split; [assumption|].
      rewrite Hk by assumption. now apply obj_get_assign_eq.
    + right. split; [eauto|]. split.
      * rewrite Hk by assumption. apply Hfresh. now left.
      * apply Hst, Hw, in_or_app. right. now left.
  - destruct Hentry as (-> & -> & ->).
    rewrite Hk by assumption. now apply obj_get_assign_eq.
Qed.

(** The response whose schema does not compile: no entry, a warning. *)
Lemma build_response_failed path m first code response rest sch :
  forall table sts warns ajv acc ajv' table' sts' warns' ajv'',
    NoDup (map fst (first ++ (code, response) :: rest)) ->
    json_schema response = Some sch ->
    fold_outcome (build_response path m) first (table, sts, warns, ajv) = Ok acc ->
    compileSchema (engine_of acc) sch = Ok (ajv', None) ->
    fold_outcome (build_response path m) (first ++ (code, response) :: rest)
                 (table, sts, warns, ajv)
    = Ok (table', sts', warns', ajv'') ->
    obj_get table' code = obj_get table code
    /\ In (compile_warning m path code) warns'.
Proof.
  intros table sts warns ajv acc ajv' table' sts' warns' ajv'' Hnd Hjs Hfirst
         Hfail Hall.
  destruct acc as [[[table1 sts1] warns1] ajv1].
  rewrite fold_outcome_app, Hfirst in Hall.
  cbn [mbind outcome_bind fold_outcome] in Hall.
  apply bind_Ok_inv in Hall as (acc2 & Hstep & Hall).
  rewrite map_app in Hnd. apply NoDup_app in Hnd as (_ & Hsep & Hnd).
  change (map fst ((code, response) :: rest)) with (code :: map fst rest) in *.
  apply NoDup_cons in Hnd as [Hrest _].
  pose proof (build_response_fold _ _ _ _ _ _ _ _ Hfirst) as H1.
  cbv beta iota in H1. destruct H1 as (_ & _ & Hk1).
  unfold build_response in Hstep. cbn [fst snd] in Hstep.
  unfold engine_of in Hfail. cbn [snd] in Hfail.
  rewrite Hjs, Hfail in Hstep. simpl in Hstep. injection Hstep as <-.
  pose proof (build_response_fold _ _ _ _ _ _ _ _ Hall) as H2.
  cbv beta iota in H2. destruct H2 as (_ & Hw2 & Hk2).
  split.
  - rewrite Hk2 by (intros Hc; apply Hrest, list_elem_of_In, Hc).
    apply Hk1. intros Hc. apply list_elem_of_In in Hc.
    apply (Hsep code Hc). left.
  - apply Hw2, in_or_app. right. now left.
Qed.

(** One turn of the loop over the methods. *)
Lemma build_method_spec path item st m st' :
  build_method path item st m = Ok st' ->
  (forall p', p' <> path ->
              obj_get (validators st') p' = obj_get (validators st) p')
  /\ (forall m', m' <> m ->
                 operation_validators (validators st') path m'
                 = operation_validators (validators st) path m')
  /\ (forall w, In w (warnings st) -> In w (warnings st'))
  /\ (forall e, In e (coverageEntries st) -> In e (coverageEntries st'))
  /\ (forall op declared,
         operation_of item m = Some op ->
         op_responses op = Some declared ->
         exists table sts warns ajv,
           fold_outcome (build_response path m) declared
                        ([], [], warnings st, engine st)
           = Ok (table, sts, warns, ajv)
           /\ operation_validators (validators st') path m
              = Some {| responses := table |}
           /\ warnings st' = warns
           /\ (declared <> [] ->
               In {| route := path; method := toUpperCase m;
                     statuses := map fst declared |}
                  (coverageEntries st'))).
Proof.
  unfold build_method.
  destruct (operation_of item m) as [op|] eqn:Hop;
    [|intros [= <-]; split; [|split; [|split; [|split]]]; auto; discriminate].
  destruct (op_responses op) as [declared|] eqn:Hrs;
    [|intros [= <-]; split; [|split; [|split; [|split]]]; auto;
      intros op' declared' [= <-]; congruence].
  intros ([[[table sts] warns] ajv] & Hfold & Hst)%bind_Ok_inv.
  injection Hst as <-. cbn [validators warnings coverageEntries].
  pose proof (build_response_fold _ _ _ _ _ _ _ _ Hfold) as Hf.
  cbv beta iota in Hf. destruct Hf as (Hsts & Hw & _).
  split; [|split; [|split; [|split]]].
  - intros p' Hne. apply obj_get_set_ne. congruence.
  - intros m' Hne. unfold operation_validators. rewrite obj_get_set_eq.
    cbn [mbind option_bind]. rewrite obj_get_set_ne by congruence.
    now destruct (obj_get (validators st) path).
  - exact Hw.
  - intros e He. destruct (0 <? length sts)%nat; [|assumption].
    apply in_or_app. now left.
  - intros op' declared' [= <-] Hrs'. rewrite Hrs in Hrs'. injection Hrs' as <-.
    exists table, sts, warns, ajv. split; [assumption|]. split; [|split].
    + unfold operation_validators. rewrite obj_get_set_eq.
      cbn [mbind option_bind]. apply obj_get_set_eq.
    + reflexivity.
    + intros Hne. simpl in Hsts. subst sts.
      destruct declared as [|d declared]; [contradiction|]. simpl.
      apply in_or_app. right. now left.
Qed.

Lemma operation_built_kept st st' path m declared :
  operation_validators (validators st') path m
  = operation_validators (validators st) path m ->
  (forall w, In w (warnings st) -> In w (warnings st')) ->
  (forall e, In e (coverageEntries st) -> In e (coverageEntries st')) ->
  operation_built st path m declared ->
  operation_built st' path m declared.
Proof.
  intros Hv Hw Hc ((ov & Hov & Htab) & Hcov). split.
  - exists ov. split; [congruence|].
    intros code response Hin Hproto. specialize (Htab code response Hin Hproto).
    unfold response_settled in *. destruct (json_schema response); [|assumption].
    destruct Htab as [Hyes | (Hno & Hnone & Hwarn)]; [now left|].
    right. auto.
  - intros Hne. apply Hc. now apply Hcov.
Qed.

Lemma build_method_built path item st m st' op declared :
  build_method path item st m = Ok st' ->
  operation_of item m = Some op ->
  op_responses op = Some declared ->
  NoDup (map fst declared) ->
  operation_built st' path m declared.
Proof.
  intros Hst Hop Hrs Hnd.
  destruct (build_method_spec _ _ _ _ _ Hst) as (_ & _ & _ & _ & Hown).
  destruct (Hown op declared Hop Hrs)
    as (table & sts & warns & ajv & Hfold & Hov & Hwarn & Hcov).
  split; [|assumption].
  exists {| responses := table |}. split; [assumption|].
  intros code response Hin Hproto. cbn [responses].
  apply (build_response_settled path m declared [] [] (warnings st) (engine st)
           table sts warns ajv st' Hnd);
    [reflexivity | exact Hfold | intros w Hw; now rewrite Hwarn
    | assumption | assumption].
Qed.

(** The loop over the methods. *)
Lemma build_methods_fold path item ms :
  forall st st',
    NoDup ms ->
    fold_outcome (build_method path item) ms st = Ok st' ->
    (forall p', p' <> path ->
                obj_get (validators st') p' = obj_get (validators st) p')
    /\ (forall m', m' ∉ ms ->
                   operation_validators (validators st') path m'
                   = operation_validators (validators st) path m')
    /\ (forall w, In w (warnings st) -> In w (warnings st'))
    /\ (forall e, In e (coverageEntries st) -> In e (coverageEntries st'))
    /\ (forall m op declared,
           m ∈ ms ->
           operation_of item m = Some op ->
           op_responses op = Some declared ->
           NoDup (map fst declared) ->
           operation_built st' path m declared).
Proof.
  induction ms as [|m0 ms IH]; intros st st' Hnd; simpl.
  - intros [= <-]. split; [|split; [|split; [|split]]]; auto.
    intros m op declared Hin. now apply elem_of_nil in Hin.
  - apply NoDup_cons in Hnd as [Hm0 Hnd].
    intros (st1 & H1 & Hrest)%bind_Ok_inv.
    destruct (IH st1 st' Hnd Hrest) as (Hpath & Hmeth & Hw & Hc & Hown).
    destruct (build_method_spec _ _ _ _ _ H1) as (Hp1 & Hm1 & Hw1 & Hc1 & _).
    split; [|split; [|split; [|split]]].
    + intros p' Hne. rewrite Hpath by assumption. now apply Hp1.
    + intros m' Hm'. apply not_elem_of_cons in Hm' as [Hne Hm'].
      rewrite Hmeth by assumption. now apply Hm1.
    + auto.
    + auto.
    + intros m op declared Hin Hop Hrs Hndd.
      apply elem_of_cons in Hin as [-> | Hin]; [|now apply (Hown m op declared)].
      apply (operation_built_kept st1); [now apply Hmeth | assumption | assumption|].
      now apply (build_method_built path item st m0 st1 op declared).
Qed.

Lemma operation_validators_path vs vs' path m :
  obj_get vs' path = obj_get vs path ->
  operation_validators vs' path m = operation_validators vs path m.
Proof. intros Hv. unfold operation_validators. now rewrite Hv. Qed.

(** One turn of the loop over the paths. *)
Lemma build_path_spec st entry st' :
  build_path st entry = Ok st' ->
  (forall p, p <> fst entry -> obj_get (validators st') p = obj_get (validators st) p)
  /\ (forall w, In w (warnings st) -> In w (warnings st'))
  /\ (forall e, In e (coverageEntries st) -> In e (coverageEntries st'))
  /\ (forall item m op declared,
         snd entry = Some item ->
         m ∈ HTTP_METHODS ->
         operation_of item m = Some op ->
         op_responses op = Some declared ->
         NoDup (map fst declared) ->
         operation_built st' (fst entry) m declared).
Proof.
  unfold build_path. destruct entry as [path [item|]]; cbn [fst snd];
    [|intros [= <-]; split; [|split; [|split]]; auto; discriminate].
  destruct (inherited_name path); [discriminate|]. intros Hfold.
  destruct (build_methods_fold path item HTTP_METHODS _ _ NoDup_HTTP_METHODS Hfold)
    as (Hpath & _ & Hw & Hc & Hown).
  split; [|split; [|split]]; auto.
  - intros p Hne. rewrite Hpath by assumption. simpl.
    apply obj_get_set_ne. congruence.
  - intros item' m op declared [= <-]. apply Hown.
Qed.

(** The loop over the paths. *)
Lemma build_paths_fold entries :
  forall st st',
    NoDup (map fst entries) ->
    fold_outcome build_path entries st = Ok st' ->
    (forall p, p ∉ map fst entries ->
               obj_get (validators st') p = obj_get (validators st) p)
    /\ (forall w, In w (warnings st) -> In w (warnings st'))
    /\ (forall e, In e (coverageEntries st) -> In e (coverageEntries st'))
    /\ (forall path item m op declared,
           In (path, Some item) entries ->
           m ∈ HTTP_METHODS ->
           operation_of item m = Some op ->
           op_responses op = Some declared ->
           NoDup (map fst declared) ->
           operation_built st' path m declared).
Proof.
  induction entries as [|[p0 oi] entries IH]; intros st st' Hnd; simpl.
  - intros [= <-]. split; [|split; [|split]]; auto. intros ? ? ? ? ? [].
  - apply NoDup_cons in Hnd as [Hp0 Hnd].
    intros (st1 & H1 & Hrest)%bind_Ok_inv.
    destruct (IH st1 st' Hnd Hrest) as (Hpath & Hw & Hc & Hown).
    destruct (build_path_spec _ _ _ H1) as (Hp1 & Hw1 & Hc1 & Hown1).
    cbn [fst snd] in *.
    split; [|split; [|split]]; auto.
    + intros p Hp. apply not_elem_of_cons in Hp as [Hne Hp].
      rewrite Hpath by assumption. now apply Hp1.
    + intros path item m op declared [[= -> ->] | Hin] Hm Hop Hrs Hndd;
        [|now apply (Hown path item m op declared)].
      apply (operation_built_kept st1); [|assumption|assumption|].
      * apply operation_validators_path. now apply Hpath.
      * now apply (Hown1 item m op declared).
Qed.

(** The builder throws nothing. *)
Lemma fold_outcome_throws {A B} (P : error -> Prop) (f : A -> B -> outcome A) l :
  (forall a x, throws_only P (f a x)) ->
  forall a, throws_only P (fold_outcome f l a).
Proof.
  intros Hf. induction l as [|x l IH]; intros a; simpl; [exact I|].
  apply throws_only_bind; [apply Hf | intros a'; apply IH].
Qed.

Lemma build_path_throws st entry : throws_only (fun _ => False) (build_path st entry).
Proof.
  unfold build_path. destruct (snd entry) as [item|]; [|exact I].
  destruct (inherited_name (fst entry)); [exact I|].
  apply fold_outcome_throws. intros st1 m. unfold build_method.
  destruct (operation_of item m) as [op|]; [|exact I].
  destruct (op_responses op) as [declared|]; [|exact I].
  apply throws_only_bind.
  - apply fold_outcome_throws. intros [[[table sts] warns] ajv] [code response].
    unfold build_response. cbn [fst snd].
    destruct (json_schema response) as [sch|]; [|exact I].
    apply throws_only_bind.
    + unfold compileSchema. destruct (json_value sch) as [[c|]| |]; exact I.
    + intros [ajv' [validate|]]; exact I.
  - intros [[[table sts] warns] ajv]. exact I.
Qed.

(** Inside the embedding the builder returns. *)
Lemma fold_outcome_returns {A B} (f : A -> B -> outcome A) l :
  (forall a x, In x l -> exists a', f a x = Ok a') ->
  forall a, exists a', fold_outcome f l a = Ok a'.
Proof.
  induction l as [|x l IH]; intros Hf a; simpl; [eauto|].
  destruct (Hf a x (or_introl eq_refl)) as [a1 ->]. simpl.
  apply IH. intros a2 y Hy. apply Hf. now right.
Qed.

Lemma build_paths_return entries :
  described_paths entries ->
  forall st, exists st', fold_outcome build_path entries st = Ok st'.
Proof.
  intros Hall. apply fold_outcome_returns. intros st [path oi] Hin.
  unfold described_paths in Hall. rewrite Forall_forall in Hall.
  specialize (Hall _ (proj2 (list_elem_of_In _ _) Hin)). cbn [fst snd] in Hall.
  unfold build_path. cbn [fst snd]. destruct oi as [item|]; [|eauto].
  destruct Hall as [-> Hschemas].
  apply fold_outcome_returns. intros st1 m _. unfold build_method.
  destruct (operation_of item m) as [op|] eqn:Hop; [|eauto].
  destruct (op_responses op) as [declared|] eqn:Hrs; [|eauto].
  destruct (fold_outcome_returns (build_response path m) declared) with
    (a := (@nil (string * ResponseValidators), @nil string, warnings st1, engine st1))
    as [[[[table sts] warns] ajv] ->]; [|simpl; eauto].
  intros [[[table sts] warns] ajv] [code response] Hr.
  unfold build_response. cbn [fst snd].
  destruct (json_schema response) as [sch|] eqn:Hjs; [|eauto].
  specialize (Hschemas m op declared code response sch Hop Hrs Hr Hjs).
  unfold compileSchema.
  destruct (json_value sch) as [[c|]| |]; [| | |contradiction]; simpl.
  - destruct (ajv_compile ajv (removeInvalidIds c)) as [ajv' [validate|]]; eauto.
  - eauto.
  - eauto.
Qed.

(** C1, amended.  When the JSON body schema declared for a path, method
    and status does not compile, in the state the engine has when the
    build reaches that response, the build goes on: it throws nothing, and
    where the embedding describes it (no path item under the name of an
    inherited member, no schema with a [toJSON] function) it returns.  In
    what it returns a warning is recorded, the status is in the coverage
    entry of the operation, and the table of the operation has no entry
    under that status: a response with that status is validated by the
    ["default"] entry if there is one, else by the wildcard entry, else it
    is invalid with "No response schema defined".  Every operation of the
    document has its table built: for each declared response an entry
    without validator where no JSON schema is declared, an entry with the
    validator the engine returned where it compiled the schema, no entry
    and a warning where it did not. *)
Theorem failed_compilation_omits_entry
    (st0 : BuildState)
    (before after : list (string * option OpenAPIPathItem))
    (path : string) (item : OpenAPIPathItem)
    (earlier later : list string) (m : string) (op : OpenAPIOperation)
    (first rest : list (string * OpenAPIResponse))
    (code : string) (response : OpenAPIResponse) (sch : jsval)
    (acc : list (string * ResponseValidators) * list string * list string * Ajv)
    (ajv' : Ajv) :
  let entries := before ++ (path, Some item) :: after in
  let declared := first ++ (code, response) :: rest in
  let build := buildPathValidators {| paths := Some entries |} st0 in
  NoDup (map fst entries) ->
  HTTP_METHODS = earlier ++ m :: later ->
  operation_of item m = Some op ->
  op_responses op = Some declared ->
  NoDup (map fst declared) ->
  json_schema response = Some sch ->
  build_until st0 before path item earlier m first = Ok acc ->
  compileSchema (engine_of acc) sch = Ok (ajv', None) ->
  (forall e, build <> Throw e)
  /\ (described_paths entries -> exists final, build = Ok final)
  /\ (forall final,
         build = Ok final ->
         In (compile_warning m path code) (warnings final)
         /\ In {| route := path; method := toUpperCase m;
                  statuses := map fst declared |} (coverageEntries final)
         /\ (exists ov,
                operation_validators (validators final) path m = Some ov
                /\ obj_get (responses ov) code = None
                /\ forall observed parsed pathMatch,
                     parseResponse observed = Ok parsed ->
                     matchPath (res_path parsed) (obj_keys (validators final))
                     = Some pathMatch ->
                     matched pathMatch = path ->
                     toLowerCase (res_method parsed) = m ->
                     string_of_number (res_status parsed) = code ->
                     validateResponse observed (validators final)
                     = Ok match obj_get (responses ov) "default" with
                          | Some rv => validate_body rv (res_body parsed)
                          | None =>
                              match obj_get (responses ov)
                                            (first_char code +:+ "XX") with
                              | Some rv => validate_body rv (res_body parsed)
                              | None =>
                                  no_response_schema parsed path (responses ov)
                              end
                          end)
         /\ (forall path' item' m' op' declared',
                In (path', Some item') entries ->
                In m' HTTP_METHODS ->
                operation_of item' m' = Some op' ->
                op_responses op' = Some declared' ->
                NoDup (map fst declared') ->
                operation_built final path' m' declared')).
Proof.
  intros entries declared build Hndp Hms Hop Hrs Hnd Hjs Huntil Hfail.
  split; [|split].
  - intros e He. subst build. unfold buildPathValidators in He. cbn [paths] in He.
    pose proof (fold_outcome_throws (fun _ => False) build_path entries
                  build_path_throws st0) as Hthrows.
    now rewrite He in Hthrows.
  - intros Hdesc. apply (build_paths_return entries Hdesc).
  - intros final Hfinal. subst build. unfold buildPathValidators in Hfinal.
    cbn [paths] in Hfinal.
    destruct (build_paths_fold entries st0 final Hndp Hfinal) as (_ & _ & _ & Hall).
    (* the state of the build at the response *)
    unfold build_until in Huntil.
    apply bind_Ok_inv in Huntil as (st_path & Hbefore & Huntil).
    apply bind_Ok_inv in Huntil as (st_op & Hearlier & Hfirst).
    subst entries. rewrite fold_outcome_app, Hbefore in Hfinal.
    cbn [mbind outcome_bind fold_outcome] in Hfinal.
    apply bind_Ok_inv in Hfinal as (st_mid & Hpath & Hafter).
    unfold build_path in Hpath. cbn [fst snd] in Hpath.
    destruct (inherited_name path); [discriminate|].
    pose proof NoDup_HTTP_METHODS as Hndm. rewrite Hms in Hpath, Hndm.
    rewrite fold_outcome_app, Hearlier in Hpath.
    cbn [mbind outcome_bind fold_outcome] in Hpath.
    apply bind_Ok_inv in Hpath as (st1 & Hmethod & Hlater).
    apply NoDup_app in Hndm as (_ & _ & Hndm).
    apply NoDup_cons in Hndm as [Hm Hndm].
    rewrite map_app in Hndp. apply NoDup_app in Hndp as (_ & _ & Hndp).
    change (map fst ((path, Some item) :: after)) with (path :: map fst after)
      in Hndp.
    apply NoDup_cons in Hndp as [Hpath Hndp].
    destruct (build_method_spec _ _ _ _ _ Hmethod) as (_ & _ & _ & _ & Hown).
    destruct (Hown op declared Hop Hrs)
      as (table & sts & warns & ajv & Hfold & Hov & Hwarn & Hcov).
    destruct (build_response_failed path m first code response rest sch
                _ _ _ _ acc ajv' table sts warns ajv Hnd Hjs Hfirst Hfail Hfold)
      as [Hnone Hin].
    destruct (build_methods_fold path item later st1 st_mid Hndm Hlater)
      as (_ & Hm2 & Hw2 & Hc2 & _).
    destruct (build_paths_fold after st_mid final Hndp Hafter)
      as (Hp3 & Hw3 & Hc3 & _).
    assert (Hfinal_ov : operation_validators (validators final) path m
                        = Some {| responses := table |}).
    { rewrite (operation_validators_path (validators st_mid) (validators final))
        by (apply Hp3; intros Hc; apply Hpath; exact Hc).
      now rewrite Hm2. }
    split; [|split; [|split]].
    + apply Hw3, Hw2. now rewrite Hwarn.
    + apply Hc3, Hc2, Hcov. subst declared. now destruct first.
    + exists {| responses := table |}. cbn [responses].
      split; [assumption|]. split; [exact Hnone|].
      intros observed parsed pathMatch Hparse Hmatch Hmatched Hmethod' Hstatus.
      unfold validateResponse. rewrite Hparse. simpl.
      unfold validate_parsed. rewrite Hmatch. cbv zeta.
      rewrite Hmatched, Hmethod', Hstatus.
      unfold operation_validators in Hfinal_ov. unfold lookup_operation.
      destruct (obj_get (validators final) path) as [methods|]; [|discriminate].
      cbn [mbind option_bind] in Hfinal_ov. rewrite Hfinal_ov. simpl.
      unfold select_response. cbn [responses]. rewrite Hnone.
      destruct (obj_get table "default"); [reflexivity|].
      destruct (obj_get table (first_char code +:+ "XX")); [reflexivity|].
      unfold no_response_schema. now rewrite Hstatus.
    + intros path' item' m' op' declared' Hin' Hm' Hop' Hrs' Hnd'.
      apply (Hall path' item' m' op' declared'); auto.
      now apply list_elem_of_In.
Qed.

End ValidatorCompiler.

Lemma failed_compilation_omits_entry_witness :
  let final := example_build same_schema_doc in
  buildPathValidators (H := plain_runtime) (H0 := strict_engine)
                      same_schema_doc empty_build = Ok final
  /\ In "Warning: Failed to compile schema for GET /pets 201:" (warnings final)
  /\ In {| route := "/pets"; method := "GET"; statuses := ["200"; "201"] |}
        (coverageEntries final)
  /\ operation_validators (validators final) "/pets" "get"
     = Some {| responses := [("200", {| body := Some always_valid |})] |}.
Proof.
  intros final. split; [reflexivity|].
  destruct (failed_compilation_omits_entry (H := plain_runtime) (H0 := strict_engine)
              empty_build [] [] "/pets"
              (get_only [("200", json_content pet_schema);
                         ("201", json_content pet_schema)])
              [] ["post"; "put"; "patch"; "delete"; "options"; "head"; "trace"]
              "get"
              {| op_responses := Some [("200", json_content pet_schema);
                                       ("201", json_content pet_schema)] |}
              [("200", json_content pet_schema)] []
              "201" (json_content pet_schema) pet_schema
              ([("200", {| body := Some always_valid |})], ["200"], [], ["pet"])
              ["pet"])
    as (_ & _ & Hfinal).
  - apply NoDup_singleton.
  - reflexivity.
  - reflexivity.
  - reflexivity.
  - apply NoDup_cons_2; [|apply NoDup_singleton].
    intros Hin%list_elem_of_singleton. discriminate.
  - reflexivity.
  - reflexivity.
  - reflexivity.
  - destruct (Hfinal final eq_refl) as (Hwarn & Hcov & _).
    split; [exact Hwarn|]. split; [exact Hcov | reflexivity].
Defined.

(** C1 as stated fails: after the failed compilation the table has no
    entry under the status, and a response with that status is answered
    with "No response schema defined". *)
Lemma failed_compilation_lookup_fails :
  let st := example_build bad_schema_doc in
  buildPathValidators (H := plain_runtime) (H0 := strict_engine)
                      bad_schema_doc empty_build = Ok st
  /\ json_schema (json_content bad_schema) = Some bad_schema
  /\ compileSchema (H := strict_engine) [] bad_schema = Ok ([], None)
  /\ validators st
     = [("/pets", [("get", {| responses := [("404", {| body := None |})] |})])]
  /\ warnings st = ["Warning: Failed to compile schema for GET /pets 200:"]
  /\ validateResponse (H := plain_runtime) (get_pets (Int 200)) (validators st)
     = Ok {| valid := false;
             errors := Some [
               {| err_path := "";
                  err_message := "No response schema defined for GET /pets with status 200";
                  err_keyword := None;
                  err_expected := Some (JArr [JStr "404"]);
                  err_actual := Some (JStr "200") |}] |}.
Proof. repeat split. Qed.

(** ** The reference resolver *)



Lemma obj_without_get_eq {V} (o : list (string * V)) k :
  obj_get (obj_without k o) k = None.
Proof.
  unfold obj_without. induction o as [|[k' v'] o IH]; simpl; [reflexivity|].
  destruct (String.eqb_spec k' k) as [->|Hne]; simpl; [exact IH|].
  destruct (String.eqb_spec k' k); [contradiction | exact IH].
Qed.

Lemma obj_without_get_ne {V} (o : list (string * V)) k k' :
  k' <> k -> obj_get (obj_without k o) k' = obj_get o k'.
Proof.
  intros Hne. unfold obj_without.
  induction o as [|[k0 v0] o IH]; simpl; [reflexivity|].
  destruct (String.eqb_spec k0 k) as [->|Hk]; simpl.
  - destruct (String.eqb_spec k k'); [congruence | exact IH].
  - destruct (String.eqb_spec k0 k'); [reflexivity | exact IH].
Qed.


Section ReferenceResolver.
Context `{JsRuntime}.

Lemma resolve_ref_node fuel record root target :
  ref_target record root = Own target ->
  resolveRefsInObject (S fuel) (JObj record) root
  = match resolveRefsInObject fuel target root with
    | Some resolved =>
        if (0 <? length (obj_without "$ref" record))%nat
        then Some (JObj (obj_merge (entries resolved) (obj_without "$ref" record)))
        else Some resolved
    | None => None
    end.
Proof. intros Ht. simpl. now rewrite Ht. Qed.

Lemma resolve_plain_node fuel record root :
  ref_target record root = Absent ->
  resolveRefsInObject (S fuel) (JObj record) root
  = match mapM (fun kv => pair (fst kv)
                            <$> resolveRefsInObject fuel (snd kv) root)
               record with
    | Some copied =>
        if sets_prototype (field copied "__proto__") then None
        else Some (JObj (obj_without "__proto__" copied))
    | None => None
    end.
Proof. intros Ht. simpl. now rewrite Ht. Qed.















Lemma ref_free_obj root record :
  ref_free root (JObj record) = true
  <-> live_ref root (JObj record) = false
      /\ forall k v, In (k, v) record -> ref_free root v = true.
Proof.
  simpl ref_free. rewrite andb_true_iff, negb_true_iff, forallb_forall.
  split; intros [Hl Hall]; (split; [assumption|]).
  - intros k v Hin. exact (Hall (k, v) Hin).
  - intros [k v] Hin. exact (Hall k v Hin).
Qed.




Lemma live_ref_obj root record :
  live_ref root (JObj record) = false <-> ref_target record root = Absent.
Proof. simpl. destruct (ref_target record root); split; congruence. Qed.






Lemma forallb_obj_without {V} (p : string * V -> bool) k (o : list (string * V)) :
  forallb p o = true -> forallb p (obj_without k o) = true.
Proof.
  rewrite !forallb_forall. intros Hall x [Hx _]%List.filter_In. auto.
Qed.








End ReferenceResolver.


Example resolution_merges_siblings :
  resolveRefsInObject (H := plain_runtime) 6 pet_with_description pet_components
  = Some (JObj [("type", JStr "object");
                ("description", JStr "my pet");
                ("properties", JObj [("tag", JObj [("type", JStr "string")])])])
  /\ plain_siblings pet_components pet_components = true
  /\ ref_depth_within pet_components 2 pet_with_description = true.
Proof. split; [reflexivity|]. split; reflexivity. Qed.

(* ================================================================== *)
(** * Part III.  Further properties of the code                        *)
(* ================================================================== *)

(** ** Base paths *)

Lemma startsWith_append p s : startsWith p (p +:+ s) = true.
Proof.
  unfold startsWith. induction p as [|c p IH]; [now destruct s|].
  rewrite append_cons. simpl.
  destruct (ascii_dec c c); [exact IH | congruence].
Qed.

Lemma slice_from_append p s : slice_from (String.length p) (p +:+ s) = s.
Proof. induction p as [|c p IH]; [reflexivity|]. rewrite append_cons. exact IH. Qed.

Lemma strip_trailing_slash_snoc s : strip_trailing_slash (s +:+ "/") = s.
Proof.
  induction s as [|c s IH]; [reflexivity|].
  rewrite append_cons.
  assert (Hne : exists d t, s +:+ "/" = String d t) by (destruct s; simpl; eauto).
  destruct Hne as (d & t & Heq).
  simpl. rewrite Heq, <- Heq. now rewrite IH.
Qed.

(** X1.  [removeBasePath] leaves the request path alone when the base
    path is ["/"] or empty, or is not a prefix of it.  Otherwise it cuts
    the prefix off, whether or not the prefix ends at a segment boundary,
    and puts a slash in front of what is left unless one is there: the
    result then starts with a slash. *)
Theorem removeBasePath_cuts_prefix :
  (forall requestPath, removeBasePath requestPath "/" = requestPath
                       /\ removeBasePath requestPath "" = requestPath)
  /\ (forall requestPath basePath,
         startsWith basePath requestPath = false ->
         removeBasePath requestPath basePath = requestPath)
  /\ (forall basePath rest,
         basePath <> "/" -> basePath <> "" ->
         removeBasePath (basePath +:+ rest) basePath
         = (if startsWith "/" rest then rest else "/" +:+ rest)
         /\ startsWith "/" (removeBasePath (basePath +:+ rest) basePath) = true)
  /\ removeBasePath "/api2/x" "/api" = "/2/x".
Proof.
  split; [|split; [|split]].
  - intros requestPath. split; reflexivity.
  - intros requestPath basePath Hpre. unfold removeBasePath. rewrite Hpre.
    now destruct (_ || _).
  - intros basePath rest Hslash Hempty.
    assert (Heq : removeBasePath (basePath +:+ rest) basePath
                  = if startsWith "/" rest then rest else "/" +:+ rest).
    { unfold removeBasePath.
      destruct (String.eqb_spec basePath "/"); [contradiction|].
      destruct (String.eqb_spec basePath ""); [contradiction|]. simpl.
      now rewrite startsWith_append, slice_from_append. }
    split; [exact Heq|]. rewrite Heq.
    destruct (startsWith "/" rest) eqn:Hs; [exact Hs | apply startsWith_append].
  - reflexivity.
Qed.

(** X2.  [extractBasePath] never returns the empty string, and the path
    it extracts from a server url is the prefix [removeBasePath] cuts: a
    request path below the base path of the server is reduced to the path
    below it, also when the server url ends with a slash. *)
Theorem base_path_of_server_is_removed `{JsRuntime} :
  (forall serverUrl basePath,
      extractBasePath serverUrl = Ok basePath -> basePath <> "")
  /\ (forall serverUrl basePath rest,
         basePath <> "/" ->
         url_pathname serverUrl = Ok (basePath +:+ "/") ->
         exists extracted,
           extractBasePath serverUrl = Ok extracted
           /\ removeBasePath (basePath +:+ "/" +:+ rest) extracted = "/" +:+ rest)
  /\ (forall basePath rest e,
         basePath <> "/" ->
         url_pathname (basePath +:+ "/") = Throw e ->
         exists extracted,
           extractBasePath (basePath +:+ "/") = Ok extracted
           /\ removeBasePath (basePath +:+ "/" +:+ rest) extracted = "/" +:+ rest).
Proof.
  assert (Hcut : forall basePath rest,
             basePath <> "/" ->
             removeBasePath (basePath +:+ "/" +:+ rest) (or_else basePath "/")
             = "/" +:+ rest).
  { intros basePath rest Hne. destruct basePath as [|c b]; [reflexivity|].
    change (or_else (String c b) "/") with (String c b).
    unfold removeBasePath.
    destruct (String.eqb_spec (String c b) "/"); [contradiction|].
    destruct (String.eqb_spec (String c b) ""); [discriminate|]. simpl orb.
    cbv iota. rewrite startsWith_append, slice_from_append.
    now rewrite startsWith_append. }
  split; [|split].
  - intros serverUrl basePath. unfold extractBasePath.
    destruct (url_pathname serverUrl) as [pathname| |];
      [destruct (strip_trailing_slash pathname)
      | destruct (strip_trailing_slash serverUrl) |];
      intros [= <-]; discriminate.
  - intros serverUrl basePath rest Hne Hurl. unfold extractBasePath.
    rewrite Hurl, strip_trailing_slash_snoc. eexists. split; [reflexivity|].
    now apply Hcut.
  - intros basePath rest e Hne Hurl. unfold extractBasePath.
    rewrite Hurl, strip_trailing_slash_snoc. eexists. split; [reflexivity|].
    now apply Hcut.
Qed.

(** ** The result of [matchPath] *)

Lemma matchPath_Some_inv p templates res :
  matchPath p templates = Some res ->
  exists best,
    matched res ∈ templates
    /\ tryMatch (cleanPath p) (matched res) = Some best
    /\ params res = cand_params best
    /\ forall t c, t ∈ templates -> tryMatch (cleanPath p) t = Some c ->
                   score c <= score best.
Proof.
  intros Hres.
  destruct (matchPath_best p templates)
    as [[_ Hnone] | (before & best & after & Hacc & Hbest & Hlt & Hle)];
    [congruence|].
  rewrite Hbest in Hres. injection Hres as <-. cbn [matched params].
  assert (Hin : best ∈ omap (tryMatch (cleanPath p)) templates).
  { rewrite Hacc. apply elem_of_app. right. apply list_elem_of_here. }
  apply list_elem_of_omap in Hin as (t & Ht & Htry).
  pose proof (tryMatch_inv _ _ _ Htry) as (_ & _ & Hspec). subst t.
  exists best. split; [exact Ht|]. split; [exact Htry|]. split; [reflexivity|].
  intros t c Hin Hc.
  assert (Hc' : c ∈ omap (tryMatch (cleanPath p)) templates)
    by (apply list_elem_of_omap; eauto).
  rewrite Hacc in Hc'. apply elem_of_app in Hc' as [Hc' | Hc'].
  - rewrite List.Forall_forall in Hlt. apply list_elem_of_In, Hlt in Hc'. lia.
  - apply elem_of_cons in Hc' as [-> | Hc']; [lia|].
    rewrite List.Forall_forall in Hle. apply list_elem_of_In, Hle in Hc'. lia.
Qed.

(** X3.  What [matchPath] returns is sound: the template is one of the
    candidates it was given, that template accepts the cleaned path, and
    the parameters are the ones [tryMatch] binds for that template. *)
Theorem matchPath_result_is_accepting_candidate p templates res :
  matchPath p templates = Some res ->
  matched res ∈ templates
  /\ tryMatch (cleanPath p) (matched res)
     = Some {| specPath := matched res;
               cand_params := params res;
               score := template_score (segments (matched res)) |}.
Proof.
  intros Hres.
  destruct (matchPath_Some_inv _ _ _ Hres) as (best & Hin & Htry & Hps & _).
  split; [exact Hin|]. rewrite Htry. f_equal.
  pose proof (tryMatch_inv _ _ _ Htry) as (_ & _ & Hspec).
  pose proof (tryMatch_score _ _ _ Htry) as Hscore.
  destruct best as [sp ps sc]. cbn in *. congruence.
Qed.

Lemma matchPath_result_is_accepting_candidate_witness :
  "/pets/{id}" ∈ ["/pets"; "/pets/{id}"]
  /\ tryMatch (cleanPath "/pets/7?full=1") "/pets/{id}"
     = Some {| specPath := "/pets/{id}";
               cand_params := {[ "id" := "7" ]};
               score := template_score (segments "/pets/{id}") |}.
Proof.
  exact (matchPath_result_is_accepting_candidate "/pets/7?full=1"
           ["/pets"; "/pets/{id}"]
           {| matched := "/pets/{id}"; params := {[ "id" := "7" ]} |} eq_refl).
Defined.

Lemma template_score_bound specSegments :
  template_score specSegments <= 10 * Z.of_nat (length specSegments)
  /\ (template_score specSegments = 10 * Z.of_nat (length specSegments) ->
      Forall (fun s => paramMatch s = None) specSegments).
Proof.
  induction specSegments as [|s l [IHle IHeq]]; [split; [simpl; lia | constructor]|].
  change (template_score (s :: l)) with (segment_score s + template_score l).
  change (length (s :: l)) with (S (length l)).
  unfold segment_score. destruct (paramMatch s) eqn:Hs.
  - split; [lia|]. intros Heq. lia.
  - split; [lia|]. intros Heq. constructor; [exact Hs|]. apply IHeq. lia.
Qed.

Lemma template_score_literal specSegments :
  Forall (fun s => paramMatch s = None) specSegments ->
  template_score specSegments = 10 * Z.of_nat (length specSegments).
Proof.
  induction 1 as [|s l Hs _ IH]; [reflexivity|].
  change (template_score (s :: l)) with (segment_score s + template_score l).
  change (length (s :: l)) with (S (length l)).
  unfold segment_score. rewrite Hs. lia.
Qed.

Lemma tryMatch_loop_literal_only specSegments :
  forall requestSegments ps sc ps' sc',
    Forall (fun s => paramMatch s = None) specSegments ->
    length requestSegments = length specSegments ->
    tryMatch_loop (zip specSegments requestSegments) ps sc = Some (ps', sc') ->
    ps' = ps /\ requestSegments = specSegments.
Proof.
  induction specSegments as [|s l IH]; intros [|r rs] ps sc ps' sc' Hlit Hlen Hloop;
    try discriminate.
  - simpl in Hloop. split; congruence.
  - apply Forall_cons in Hlit as [Hs Hl].
    change (zip (s :: l) (r :: rs)) with ((s, r) :: zip l rs) in Hloop.
    rewrite (tryMatch_loop_literal _ _ _ _ _ Hs) in Hloop.
    destruct (String.eqb_spec s r) as [->|]; [|discriminate].
    apply IH in Hloop as [-> ->]; [split; reflexivity | exact Hl |].
    simpl in Hlen. lia.
Qed.

Lemma Forall2_eq_accepts specSegments :
  Forall2 segment_accepts specSegments specSegments.
Proof. induction specSegments; constructor; [now right | assumption]. Qed.

(** X4.  A candidate without parameters whose segments are those of the
    cleaned path always wins: [matchPath] returns a template with exactly
    the segments of the path and no parameters at all, whatever
    parameterized templates stand before it in the list. *)
Theorem literal_template_wins p templates t :
  t ∈ templates ->
  segments t = segments (cleanPath p) ->
  Forall (fun s => paramMatch s = None) (segments t) ->
  exists res,
    matchPath p templates = Some res
    /\ segments (matched res) = segments (cleanPath p)
    /\ params res = ∅.
Proof.
  intros Hin Hsegs Hlit.
  assert (Hacc : is_Some (tryMatch (cleanPath p) t)).
  { apply tryMatch_is_Some. rewrite Hsegs. split; [reflexivity|].
    apply Forall2_eq_accepts. }
  destruct Hacc as [c Hc].
  destruct (matchPath p templates) as [res|] eqn:Hres.
  2:{ apply matchPath_None in Hres. rewrite List.Forall_forall in Hres.
      apply list_elem_of_In, Hres in Hin. congruence. }
  exists res. split; [reflexivity|].
  destruct (matchPath_Some_inv _ _ _ Hres) as (best & _ & Hbest & Hps & Hmax).
  pose proof (Hmax t c Hin Hc) as Hle.
  rewrite (tryMatch_score _ _ _ Hc), (tryMatch_score _ _ _ Hbest) in Hle.
  rewrite (template_score_literal _ Hlit) in Hle.
  pose proof (tryMatch_inv _ _ _ Hbest) as (Hlen & Hloop & _).
  destruct (template_score_bound (segments (matched res))) as [Hup Hall].
  assert (Hall' : Forall (fun s => paramMatch s = None) (segments (matched res))).
  { apply Hall. rewrite Hsegs in Hle. rewrite <- Hlen. lia. }
  apply tryMatch_loop_literal_only in Hloop as [Hempty Heq];
    [| exact Hall' | exact Hlen].
  split; [now symmetry | congruence].
Qed.

Lemma literal_template_wins_witness :
  exists res,
    matchPath "/users/me/" ["/users/{id}"; "/{a}/{b}"; "/users/me"] = Some res
    /\ segments (matched res) = segments (cleanPath "/users/me/")
    /\ params res = ∅.
Proof.
  apply (literal_template_wins "/users/me/"
           ["/users/{id}"; "/{a}/{b}"; "/users/me"] "/users/me").
  - do 2 apply list_elem_of_further. apply list_elem_of_here.
  - reflexivity.
  - repeat constructor.
Defined.

Lemma tryMatch_loop_bound_inv pairs :
  forall ps sc ps' sc' name r,
    tryMatch_loop pairs ps sc = Some (ps', sc') ->
    ps' !! name = Some r ->
    (exists (i : nat) s, pairs !! i = Some (s, r) /\ paramMatch s = Some name)
    \/ ps !! name = Some r.
Proof.
  induction pairs as [|[s0 r0] rest IH]; intros ps sc ps' sc' name r Hloop Hget.
  - simpl in Hloop. injection Hloop as <- _. now right.
  - destruct (paramMatch s0) as [n|] eqn:Hs0.
    + rewrite (tryMatch_loop_param _ _ _ _ _ _ Hs0) in Hloop.
      destruct (IH _ _ _ _ _ _ Hloop Hget) as [(i & s & Hi & Hs) | Hprev].
      * left. exists (S i), s. split; assumption.
      * destruct (decide (n = name)) as [->|Hne].
        -- unfold bind_param in Hprev.
           destruct (String.eqb name "__proto__"); [now right|].
           rewrite lookup_insert_eq in Hprev. injection Hprev as ->.
           left. exists 0%nat, s0. split; [reflexivity | assumption].
        -- rewrite bind_param_lookup_ne in Hprev by assumption. now right.
    + rewrite (tryMatch_loop_literal _ _ _ _ _ Hs0) in Hloop.
      destruct (String.eqb s0 r0); [|discriminate].
      destruct (IH _ _ _ _ _ _ Hloop Hget) as [(i & s & Hi & Hs) | Hprev].
      * left. exists (S i), s. split; assumption.
      * now right.
Qed.

(** X5.  The parameters [matchPath] returns hold nothing but bindings of
    the matched template: every name in them is the name of a parameter
    segment of that template, and its value is the segment of the cleaned
    path at the same place. *)
Theorem matchPath_params_come_from_template p templates res name r :
  matchPath p templates = Some res ->
  params res !! name = Some r ->
  exists (i : nat) s,
    segments (matched res) !! i = Some s
    /\ param_form s name
    /\ segments (cleanPath p) !! i = Some r.
Proof.
  intros Hres Hget.
  destruct (matchPath_Some_inv _ _ _ Hres) as (best & _ & Hbest & Hps & _).
  pose proof (tryMatch_inv _ _ _ Hbest) as (_ & Hloop & _).
  rewrite Hps in Hget.
  destruct (tryMatch_loop_bound_inv _ _ _ _ _ _ _ Hloop Hget)
    as [(i & s & Hi & Hs) | Hempty].
  - apply lookup_zip_pair in Hi as [Hi Hr].
    exists i, s. split; [exact Hi|]. split; [now apply paramMatch_spec | exact Hr].
  - rewrite lookup_empty in Hempty. discriminate.
Qed.

Lemma matchPath_params_come_from_template_witness :
  exists (i : nat) s,
    segments "/pets/{id}" !! i = Some s
    /\ param_form s "id"
    /\ segments (cleanPath "/pets/7?full=1") !! i = Some "7".
Proof.
  exact (matchPath_params_come_from_template "/pets/7?full=1"
           ["/pets"; "/pets/{id}"]
           {| matched := "/pets/{id}"; params := {[ "id" := "7" ]} |}
           "id" "7" eq_refl eq_refl).
Defined.

(** ** JSON pointers *)

Lemma replace_pair_other a b r c t :
  c <> a -> replace_pair a b r (String c t) = String c (replace_pair a b r t).
Proof.
  intros Hne. destruct t as [|d t']; [reflexivity|].
  cbn [replace_pair]. destruct (Ascii.eqb_spec c a); [contradiction | reflexivity].
Qed.

Lemma replace_pair_first a b r d t :
  d <> b ->
  replace_pair a b r (String a (String d t))
  = String a (replace_pair a b r (String d t)).
Proof.
  intros Hne. cbn [replace_pair].
  destruct (Ascii.eqb_spec d b); [contradiction|]. now rewrite andb_false_r.
Qed.

Lemma replace_pair_hit a b r t :
  replace_pair a b r (String a (String b t)) = String r (replace_pair a b r t).
Proof. cbn [replace_pair]. now rewrite !Ascii.eqb_refl. Qed.

Lemma decode_escape_pointer_segment key :
  decode_pointer_segment (escape_pointer_segment key) = key.
Proof.
  unfold decode_pointer_segment.
  assert (Hfirst : replace_pair "~" "1" "/" (escape_pointer_segment key)
                   = (fix tilde (k : string) : string :=
                        match k with
                        | EmptyString => EmptyString
                        | String c k' =>
                            if Ascii.eqb c "~" then String "~" (String "0" (tilde k'))
                            else String c (tilde k')
                        end) key).
  { induction key as [|c key IH]; [reflexivity|].
    cbn [escape_pointer_segment].
    destruct (Ascii.eqb_spec c "~") as [->|Htilde].
    - rewrite replace_pair_first by discriminate.
      rewrite replace_pair_other by discriminate. now rewrite IH.
    - destruct (Ascii.eqb_spec c "/") as [->|Hslash].
      + rewrite replace_pair_hit. now rewrite IH.
      + rewrite replace_pair_other by assumption. now rewrite IH. }
  rewrite Hfirst. clear Hfirst.
  induction key as [|c key IH]; [reflexivity|].
  destruct (Ascii.eqb_spec c "~") as [->|Htilde].
  - rewrite replace_pair_hit. now rewrite IH.
  - rewrite replace_pair_other by assumption. now rewrite IH.
Qed.

(** X6.  The decoding of a pointer segment in [resolveLocalRef] inverts
    the escaping of JSON pointers: a key written with [~0] for [~] and
    [~1] for [/] is read back as it was, also when the key itself holds
    the text [~1] or [~0].  The order of the two replacements matters for
    that: [~01] is read as [~1], not as [/]. *)
Theorem decode_pointer_segment_unescapes :
  (forall key, decode_pointer_segment (escape_pointer_segment key) = key)
  /\ decode_pointer_segment "~01" = "~1"
  /\ decode_pointer_segment "~1pets~1{id}" = "/pets/{id}".
Proof.
  split; [exact decode_escape_pointer_segment|]. split; reflexivity.
Qed.

Lemma escape_pointer_segment_no_slash key :
  string_existsb (Ascii.eqb "/") (escape_pointer_segment key) = false.
Proof.
  induction key as [|c key IH]; [reflexivity|].
  cbn [escape_pointer_segment].
  destruct (Ascii.eqb_spec c "~") as [->|Htilde]; [exact IH|].
  destruct (Ascii.eqb_spec c "/") as [->|Hslash]; [exact IH|].
  cbn [string_existsb]. rewrite IH.
  destruct (Ascii.eqb_spec "/" c); [congruence | reflexivity].
Qed.

Lemma split_no_sep sep s :
  string_existsb (Ascii.eqb sep) s = false -> split sep s = [s].
Proof.
  induction s as [|c s IH]; [reflexivity|]. cbn [string_existsb].
  intros Hno. apply orb_false_elim in Hno as [Hc Hs].
  assert (Hne : c <> sep).
  { intros ->. now rewrite Ascii.eqb_refl in Hc. }
  rewrite (split_other _ _ _ Hne), (IH Hs). reflexivity.
Qed.

Lemma split_piece_sep sep piece rest :
  string_existsb (Ascii.eqb sep) piece = false ->
  split sep (piece +:+ String sep rest) = piece :: split sep rest.
Proof.
  induction piece as [|c piece IH]; intros Hno.
  - rewrite append_nil_l. apply split_sep.
  - cbn [string_existsb] in Hno. apply orb_false_elim in Hno as [Hc Hs].
    assert (Hne : c <> sep).
    { intros ->. now rewrite Ascii.eqb_refl in Hc. }
    rewrite append_cons, (split_other _ _ _ Hne), (IH Hs). reflexivity.
Qed.

Lemma split_join_with sep pieces :
  pieces <> [] ->
  Forall (fun piece => string_existsb (Ascii.eqb sep) piece = false) pieces ->
  split sep (join_with sep pieces) = pieces.
Proof.
  intros Hne Hall. induction Hall as [|piece pieces Hpiece Hall IH]; [congruence|].
  destruct pieces as [|piece' pieces'].
  - now apply split_no_sep.
  - change (join_with sep (piece :: piece' :: pieces'))
      with (piece +:+ String sep (join_with sep (piece' :: pieces'))).
    rewrite (split_piece_sep _ _ _ Hpiece), IH; [reflexivity | discriminate].
Qed.

Lemma walk_pointer_escaped keys :
  forall current,
    walk_pointer (map escape_pointer_segment keys) current
    = lookup_path keys current.
Proof.
  induction keys as [|k keys IH]; intros current; [reflexivity|].
  cbn [map walk_pointer lookup_path].
  rewrite decode_escape_pointer_segment.
  destruct (truthy current && typeof_object current); [|reflexivity].
  destruct (read_member current k); [apply IH | reflexivity | reflexivity].
Qed.

(** X7.  [resolveLocalRef] on the pointer written for the keys
    [k1 ... kn] (at least one; each escaped, joined by [/] after [#/])
    reads [root[k1]...[kn]] key by key, and is [undefined] as soon as one
    of them is missing.  The keys may hold [/] and [~]; the pointer [#/]
    reads the property with the empty name, not the root. *)
Theorem resolveLocalRef_reads_nested_property :
  (forall keys root,
      keys <> [] ->
      resolveLocalRef (pointer_of keys) root = lookup_path keys root)
  /\ (forall root, resolveLocalRef "#/" root = lookup_path [""] root)
  /\ resolveLocalRef "#/paths/~1pets~1{id}/get"
       (JObj [("paths", JObj [("/pets/{id}", JObj [("get", JStr "op")])])])
     = Own (JStr "op")
  /\ resolveLocalRef "#/paths/~1pets/get"
       (JObj [("paths", JObj [("/pets/{id}", JObj [("get", JStr "op")])])])
     = Absent.
Proof.
  split; [|split; [|split]].
  - intros keys root Hne. unfold resolveLocalRef, pointer_of.
    change (slice2 ("#/" +:+ ?s)) with s.
    rewrite split_join_with.
    + apply walk_pointer_escaped.
    + now destruct keys.
    + apply Forall_forall. intros piece Hin.
      apply list_elem_of_fmap in Hin as (k & -> & _).
      apply escape_pointer_segment_no_slash.
  - intros root. reflexivity.
  - reflexivity.
  - reflexivity.
Qed.

(** ** Reference resolution on values without references, and on cycles *)

Lemma mapM_fixed {A} (f : A -> option A) (l : list A) :
  (forall x, In x l -> f x = Some x) -> mapM f l = Some l.
Proof.
  induction l as [|x l IH]; intros Hall; [reflexivity|].
  cbn [mapM]. rewrite (Hall x (or_introl eq_refl)). cbn.
  rewrite IH by (intros y Hy; apply Hall; now right). reflexivity.
Qed.

Lemma list_max_In (l : list nat) (n : nat) : In n l -> (n <= list_max l)%nat.
Proof.
  intros Hin. pose proof (proj1 (list_max_le l (list_max l)) (le_n _)) as Hall.
  rewrite List.Forall_forall in Hall. now apply Hall.
Qed.

Lemma obj_without_absent {V} (o : list (string * V)) k :
  obj_has o k = false -> obj_without k o = o.
Proof.
  unfold obj_has, obj_without. induction o as [|[k' v'] o IH]; simpl; [reflexivity|].
  destruct (String.eqb_spec k' k) as [->|Hne]; [discriminate|].
  intros Hno. simpl. now rewrite IH.
Qed.

Section ResolutionOfPlainValues.
Context `{JsRuntime}.

(** X8.  A value in which no node is a reference that leads somewhere,
    and no object has a property [__proto__], comes back from
    [resolveRefsInObject] as it is, keys and order included, once the
    depth of the calls covers its nesting: resolution changes nothing but
    reference nodes. *)
Theorem resolution_keeps_reference_free_value root :
  forall fuel v,
    ref_free root v = true ->
    proto_free v = true ->
    (height v < fuel)%nat ->
    resolveRefsInObject fuel v root = Some v.
Proof.
  induction fuel as [|fuel IH]; intros v Hfree Hproto Hfuel; [lia|].
  destruct v as [| | b | n | s | items | record | t r]; try reflexivity.
  - cbn [resolveRefsInObject]. rewrite mapM_fixed; [reflexivity|].
    intros x Hx. apply IH.
    + cbn [ref_free] in Hfree. rewrite forallb_forall in Hfree. now apply Hfree.
    + cbn [proto_free] in Hproto. rewrite forallb_forall in Hproto.
      now apply Hproto.
    + cbn [height] in Hfuel.
      pose proof (list_max_In (map height items) (height x) (in_map _ _ _ Hx)). lia.
  - apply ref_free_obj in Hfree as [Hlive Hall].
    cbn [proto_free] in Hproto. apply andb_prop in Hproto as [Hno Hproto].
    apply negb_true_iff in Hno. rewrite forallb_forall in Hproto.
    rewrite resolve_plain_node by now apply live_ref_obj.
    rewrite mapM_fixed.
    + unfold field. unfold obj_has in Hno.
      destruct (obj_get record "__proto__") eqn:Hg; [discriminate|]. simpl.
      rewrite obj_without_absent; [reflexivity|].
      unfold obj_has. now rewrite Hg.
    + intros [k x] Hx. cbn [fst snd].
      rewrite IH; [reflexivity | now apply (Hall k) | exact (Hproto _ Hx) |].
      cbn [height] in Hfuel.
      pose proof (list_max_In (map (fun kv => height (snd kv)) record) (height x)
                    (in_map (fun kv => height (snd kv)) _ _ Hx)). lia.
Qed.

Lemma mapM_None_In {A B} (f : A -> option B) (l : list A) (x : A) :
  In x l -> f x = None -> mapM f l = None.
Proof.
  intros Hin Hx. destruct (mapM f l) as [out|] eqn:Hout; [|reflexivity].
  assert (Hsome : is_Some (mapM f l)) by eauto.
  apply mapM_is_Some in Hsome. rewrite List.Forall_forall in Hsome.
  apply Hsome in Hin. unfold compose in Hin. rewrite Hx in Hin.
  now destruct Hin.
Qed.

(** X9.  On a reference whose pointer leads back to the node that carries
    it, [resolveRefsInObject] calls itself without bound: it returns for
    no depth of calls.  Nor does it give a result for a value from which
    such a node is reached: a reference to a target for which it gives
    none, an object with a property for which it gives none, an array
    with such an item.  One circular reference thus keeps the resolution
    of the whole document from returning. *)
Theorem circular_reference_never_resolves root :
  (forall record,
      ref_target record root = Own (JObj record) ->
      forall fuel, resolveRefsInObject fuel (JObj record) root = None)
  /\ (forall record target,
         ref_target record root = Own target ->
         (forall fuel, resolveRefsInObject fuel target root = None) ->
         forall fuel, resolveRefsInObject fuel (JObj record) root = None)
  /\ (forall record k x,
         ref_target record root = Absent ->
         In (k, x) record ->
         (forall fuel, resolveRefsInObject fuel x root = None) ->
         forall fuel, resolveRefsInObject fuel (JObj record) root = None)
  /\ (forall items x,
         In x items ->
         (forall fuel, resolveRefsInObject fuel x root = None) ->
         forall fuel, resolveRefsInObject fuel (JArr items) root = None).
Proof.
  split; [|split; [|split]].
  - intros record Htarget. induction fuel as [|fuel IH]; [reflexivity|].
    rewrite (resolve_ref_node _ _ _ _ Htarget), IH. reflexivity.
  - intros record target Htarget Hnever [|fuel]; [reflexivity|].
    rewrite (resolve_ref_node _ _ _ _ Htarget), Hnever. reflexivity.
  - intros record k x Hplain Hin Hx [|fuel]; [reflexivity|].
    rewrite (resolve_plain_node _ _ _ Hplain).
    rewrite (mapM_None_In _ _ (k, x) Hin); [reflexivity|].
    cbn [fst snd]. now rewrite Hx.
  - intros items x Hin Hx [|fuel]; [reflexivity|].
    cbn [resolveRefsInObject]. rewrite (mapM_None_In _ _ x Hin (Hx fuel)).
    reflexivity.
Qed.

End ResolutionOfPlainValues.

Lemma resolution_keeps_reference_free_value_witness :
  resolveRefsInObject (H := plain_runtime) 3
    (JObj [("type", JStr "array");
           ("items", JObj [("$ref", JStr "other.json#/Pet")])])
    pet_components
  = Some (JObj [("type", JStr "array");
                ("items", JObj [("$ref", JStr "other.json#/Pet")])]).
Proof.
  apply (resolution_keeps_reference_free_value (H := plain_runtime) pet_components 3).
  - reflexivity.
  - reflexivity.
  - simpl. lia.
Defined.

(** ** Schema identifiers and the copy handed to the schema engine *)

Lemma id_pattern_no_hash id :
  string_existsb (Ascii.eqb "#") id = false -> id_pattern id = true.
Proof.
  induction id as [|c id IH]; [reflexivity|]. cbn [string_existsb].
  intros Hno. apply orb_false_elim in Hno as [Hc Hid].
  destruct id as [|d id']; [reflexivity|].
  change (id_pattern (String c (String d id')))
    with (negb (Ascii.eqb c "#") && id_pattern (String d id')).
  rewrite (IH Hid), Ascii.eqb_sym, Hc. reflexivity.
Qed.

Lemma invalid_id_false record :
  invalid_id record = false
  <-> match obj_get record "$id" with
      | Some (JStr id) => id_pattern id
      | _ => true
      end = true.
Proof.
  unfold invalid_id.
  destruct (obj_get record "$id") as [[| | | | id | | |]|]; try tauto.
  destruct (string_existsb (Ascii.eqb "#") id) eqn:Hhash.
  - destruct (id_pattern id); simpl; split; congruence.
  - rewrite (id_pattern_no_hash _ Hhash). simpl. tauto.
Qed.

Lemma obj_get_map_values {V W} (f : V -> W) (o : list (string * V)) k :
  obj_get (map (fun kv => (fst kv, f (snd kv))) o) k = f <$> obj_get o k.
Proof.
  induction o as [|[k' v] o IH]; [reflexivity|].
  cbn [map obj_get fst snd]. destruct (String.eqb k' k); [reflexivity | exact IH].
Qed.

Lemma removeInvalidIds_string v id :
  removeInvalidIds v = JStr id -> v = JStr id.
Proof. destruct v; try discriminate; intros H; exact H. Qed.

Lemma ids_match_removeInvalidIds v :
  ids_match (removeInvalidIds v) = true.
Proof.
  induction v as [| | b | n | s | items IH | record IH | t r IH] using jsval_induction;
    try reflexivity.
  - cbn [removeInvalidIds ids_match]. rewrite forallb_forall.
    intros x Hx. apply in_map_iff in Hx as (y & <- & Hy).
    rewrite List.Forall_forall in IH. now apply IH.
  - cbn [removeInvalidIds].
    set (record' := map (fun kv => (fst kv, removeInvalidIds (snd kv))) record).
    assert (Hall : forallb (fun kv => ids_match (snd kv)) record' = true).
    { rewrite forallb_forall. intros kv Hkv.
      apply in_map_iff in Hkv as (kv0 & <- & Hkv0). cbn [snd].
      rewrite List.Forall_forall in IH. now apply IH. }
    destruct (invalid_id record) eqn:Hinv; cbn [ids_match].
    + rewrite obj_without_get_eq. now apply forallb_obj_without.
    + rewrite Hall, andb_true_r. apply invalid_id_false in Hinv.
      subst record'. rewrite obj_get_map_values.
      destruct (obj_get record "$id") as [x|]; [|reflexivity]. cbn.
      destruct (removeInvalidIds x) as [| | | | id | | |] eqn:Hx; try reflexivity.
      apply removeInvalidIds_string in Hx. now subst x.
Qed.

(** X10.  After [removeInvalidIds], every string [$id] left anywhere in
    the value matches [^[^#]*#?$]: the identifiers the schema engine would
    reject are gone, at every depth.  Nothing but [$id] is ever deleted:
    every other property of an object is still there, with its cleaned
    value. *)
Theorem removeInvalidIds_leaves_valid_ids :
  (forall v, ids_match (removeInvalidIds v) = true)
  /\ (forall record k,
         k <> "$id" ->
         exists record',
           removeInvalidIds (JObj record) = JObj record'
           /\ obj_get record' k = removeInvalidIds <$> obj_get record k).
Proof.
  split; [exact ids_match_removeInvalidIds|].
  intros record k Hk. cbn [removeInvalidIds]. eexists. split; [reflexivity|].
  destruct (invalid_id record).
  - rewrite obj_without_get_ne by congruence. apply obj_get_map_values.
  - apply obj_get_map_values.
Qed.

Lemma map_fixed {A} (f : A -> A) (l : list A) :
  (forall x, In x l -> f x = x) -> map f l = l.
Proof.
  induction l as [|x l IH]; intros Hall; [reflexivity|].
  cbn [map]. rewrite (Hall x (or_introl eq_refl)), IH; [reflexivity|].
  intros y Hy. apply Hall. now right.
Qed.

Lemma removeInvalidIds_valid v :
  ids_match v = true -> removeInvalidIds v = v.
Proof.
  induction v as [| | b | n | s | items IH | record IH | t r IH] using jsval_induction;
    try reflexivity; intros Hids.
  - cbn [removeInvalidIds]. f_equal. apply map_fixed. intros x Hx.
    rewrite List.Forall_forall in IH. apply IH; [exact Hx|].
    cbn [ids_match] in Hids. rewrite forallb_forall in Hids. now apply Hids.
  - cbn [ids_match] in Hids. apply andb_prop in Hids as [Hid Hall].
    apply invalid_id_false in Hid. cbn [removeInvalidIds]. rewrite Hid. f_equal.
    apply map_fixed. intros [k x] Hx. cbn [fst snd]. f_equal.
    rewrite List.Forall_forall in IH. apply (IH _ Hx).
    rewrite forallb_forall in Hall. now apply (Hall _ Hx).
Qed.

(** X11.  [removeInvalidIds] changes nothing in a value whose string
    [$id]s all match the pattern, so running it a second time changes
    nothing: it is idempotent. *)
Theorem removeInvalidIds_idempotent :
  (forall v, ids_match v = true -> removeInvalidIds v = v)
  /\ (forall v, removeInvalidIds (removeInvalidIds v) = removeInvalidIds v).
Proof.
  split; [exact removeInvalidIds_valid|].
  intros v. apply removeInvalidIds_valid, ids_match_removeInvalidIds.
Qed.

Lemma map_outcome_Ok {A B} (f : A -> outcome B) l l' :
  map_outcome f l = Ok l' -> Forall2 (fun x y => f x = Ok y) l l'.
Proof.
  revert l'. induction l as [|x l IH]; intros l'; cbn [map_outcome].
  - intros [= <-]. constructor.
  - intros (y & Hy & Hrest)%bind_Ok_inv.
    apply bind_Ok_inv in Hrest as (ys & Hys & [= <-]).
    constructor; [exact Hy | now apply IH].
Qed.

Lemma map_outcome_fixed {A} (f : A -> outcome A) (l : list A) :
  (forall x, In x l -> f x = Ok x) -> map_outcome f l = Ok l.
Proof.
  induction l as [|x l IH]; intros Hall; [reflexivity|].
  cbn [map_outcome]. rewrite (Hall x (or_introl eq_refl)). cbn.
  rewrite IH by (intros y Hy; apply Hall; now right). reflexivity.
Qed.

Lemma json_value_is_json v :
  forall copy, json_value v = Ok (Some copy) -> is_json copy = true.
Proof.
  induction v as [| | b | n | s | items IH | record IH | t r IH] using jsval_induction;
    intros copy Hcopy; try discriminate;
    try (injection Hcopy as <-; reflexivity).
  - destruct n; injection Hcopy as <-; reflexivity.
  - cbn [json_value] in Hcopy.
    apply bind_Ok_inv in Hcopy as (items' & Hitems & [= <-]).
    apply map_outcome_Ok in Hitems. cbn [is_json].
    rewrite List.Forall_forall in IH.
    induction Hitems as [|x y l l' Hxy _ IHl]; [reflexivity|].
    cbn [forallb]. rewrite IHl by (intros z Hz; apply IH; now right).
    rewrite andb_true_r.
    apply bind_Ok_inv in Hxy as (r & Hr & [= <-]).
    destruct r as [c|]; [|reflexivity]. apply (IH x (or_introl eq_refl) c Hr).
  - cbn [json_value] in Hcopy.
    destruct (is_function (field record "toJSON")); [discriminate|].
    apply bind_Ok_inv in Hcopy as (record' & Hrecord & [= <-]).
    apply map_outcome_Ok in Hrecord. cbn [is_json].
    rewrite List.Forall_forall in IH.
    induction Hrecord as [|kv y l l' Hxy _ IHl]; [reflexivity|].
    apply bind_Ok_inv in Hxy as (r & Hr & [= <-]).
    specialize (IHl (fun z Hz => IH z (or_intror Hz))).
    destruct r as [c|]; cbn [option_map]; [|exact IHl].
    change (omap id (Some (fst kv, c) :: l')) with ((fst kv, c) :: omap id l').
    cbn [forallb snd]. rewrite IHl, andb_true_r.
    apply (IH kv (or_introl eq_refl) c Hr).
Qed.

Lemma omap_id_Some {A} (l : list A) : omap id (map Some l) = l.
Proof. induction l as [|x l IH]; [reflexivity|]. cbn. now rewrite IH. Qed.

Lemma map_outcome_ext {A B} (f : A -> outcome B) (g : A -> B) (l : list A) :
  (forall x, In x l -> f x = Ok (g x)) -> map_outcome f l = Ok (map g l).
Proof.
  induction l as [|x l IH]; intros Hall; [reflexivity|].
  cbn [map_outcome map]. rewrite (Hall x (or_introl eq_refl)). cbn.
  rewrite IH by (intros y Hy; apply Hall; now right). reflexivity.
Qed.

Lemma is_json_no_toJSON record :
  is_json (JObj record) = true -> is_function (field record "toJSON") = false.
Proof.
  cbn [is_json]. rewrite forallb_forall. intros Hall. unfold field.
  destruct (obj_get record "toJSON") as [v|] eqn:Hg; [|reflexivity].
  apply obj_get_In in Hg. specialize (Hall _ Hg). cbn [snd] in Hall.
  now destruct v.
Qed.

Lemma json_value_json v : is_json v = true -> json_value v = Ok (Some v).
Proof.
  induction v as [| | b | n | s | items IH | record IH | t r IH] using jsval_induction;
    try reflexivity; try discriminate; intros Hjson.
  - destruct n; [discriminate | reflexivity | discriminate | reflexivity].
  - cbn [json_value]. rewrite map_outcome_fixed; [reflexivity|].
    intros x Hx. rewrite List.Forall_forall in IH. rewrite (IH x Hx); [reflexivity|].
    cbn [is_json] in Hjson. rewrite forallb_forall in Hjson. now apply Hjson.
  - pose proof (is_json_no_toJSON _ Hjson) as Hno.
    cbn [json_value]. rewrite Hno.
    rewrite (map_outcome_ext _ Some).
    + cbn. now rewrite omap_id_Some.
    + intros [k x] Hx. cbn [fst snd]. rewrite List.Forall_forall in IH.
      cbn [is_json] in Hjson. rewrite forallb_forall in Hjson.
      pose proof (IH _ Hx (Hjson _ Hx)) as Hclone. cbn [snd] in Hclone.
      now rewrite Hclone.
Qed.

Lemma is_json_removeInvalidIds v :
  is_json v = true -> is_json (removeInvalidIds v) = true.
Proof.
  induction v as [| | b | n | s | items IH | record IH | t r IH] using jsval_induction;
    try (intros Hv; exact Hv); intros Hjson.
  - cbn [removeInvalidIds is_json] in *. rewrite forallb_forall in *.
    intros x Hx. apply in_map_iff in Hx as (y & <- & Hy).
    rewrite List.Forall_forall in IH. apply (IH y Hy). now apply Hjson.
  - cbn [removeInvalidIds is_json] in *.
    assert (Hall : forallb (fun kv => is_json (snd kv))
                     (map (fun kv => (fst kv, removeInvalidIds (snd kv))) record)
                   = true).
    { rewrite forallb_forall in *. intros kv Hkv.
      apply in_map_iff in Hkv as (kv0 & <- & Hkv0). cbn [snd].
      rewrite List.Forall_forall in IH. apply (IH kv0 Hkv0). now apply Hjson. }
    destruct (invalid_id record); [now apply forallb_obj_without | exact Hall].
Qed.

(** X12.  [compileSchema] never hands the schema itself to the engine:
    whenever it returns a validator, the engine compiled a value that
    [JSON.parse] returned (no [undefined], no function, no [NaN] in it)
    whose string [$id]s all match the pattern.  A schema that is such a
    value already reaches the engine unchanged; a schema without JSON text
    ([undefined], a function) makes [compileSchema] throw before the
    engine is called, so that the state of the engine is what it was. *)
Theorem compileSchema_engine_input `{SchemaEngine} :
  (forall ajv sch ajv' validate,
      compileSchema ajv sch = Ok (ajv', Some validate) ->
      exists given,
        ajv_compile ajv given = (ajv', Some validate)
        /\ is_json given = true
        /\ ids_match given = true)
  /\ (forall ajv sch,
         is_json sch = true -> ids_match sch = true ->
         compileSchema ajv sch = Ok (ajv_compile ajv sch))
  /\ (forall ajv, compileSchema ajv JUndefined = Ok (ajv, None))
  /\ (forall ajv t r, compileSchema ajv (JFun t r) = Ok (ajv, None)).
Proof.
  split; [|split; [|split]].
  - intros ajv sch ajv' validate Hcompile. unfold compileSchema in Hcompile.
    destruct (json_value sch) as [[copy|]| |] eqn:Hcopy; try discriminate.
    exists (removeInvalidIds copy). split; [congruence|]. split.
    + apply is_json_removeInvalidIds. now apply (json_value_is_json sch).
    + apply ids_match_removeInvalidIds.
  - intros ajv sch Hjson Hids. unfold compileSchema.
    now rewrite (json_value_json _ Hjson), (removeInvalidIds_valid _ Hids).
  - reflexivity.
  - reflexivity.
Qed.

(** ** The validator table of a build *)

Lemma obj_keys_update {V} (o : list (string * V)) k v :
  obj_keys (obj_update k v o) = obj_keys o.
Proof.
  unfold obj_keys. induction o as [|[k' v'] o IH]; [reflexivity|].
  cbn [obj_update]. destruct (String.eqb_spec k' k) as [->|Hne]; [reflexivity|].
  cbn [map fst]. now rewrite IH.
Qed.

Lemma obj_keys_insert_named {V} (o : list (string * V)) k v :
  array_index k = None -> obj_keys (obj_insert k v o) = obj_keys o ++ [k].
Proof.
  intros Hk. unfold obj_keys. induction o as [|[k' v'] o IH]; [reflexivity|].
  cbn [obj_insert]. unfold comes_before. rewrite Hk. cbn [map fst app].
  now rewrite IH.
Qed.

Lemma obj_keys_set_named {V} (o : list (string * V)) k v :
  array_index k = None ->
  obj_keys (obj_set k v o)
  = if obj_has o k then obj_keys o else obj_keys o ++ [k].
Proof.
  intros Hk. unfold obj_set. destruct (obj_has o k);
    [apply obj_keys_update | now apply obj_keys_insert_named].
Qed.

Lemma obj_keys_set_present {V} (o : list (string * V)) k v :
  obj_has o k = true -> obj_keys (obj_set k v o) = obj_keys o.
Proof. intros Hhas. unfold obj_set. rewrite Hhas. apply obj_keys_update. Qed.

Lemma obj_has_set {V} (o : list (string * V)) k v : obj_has (obj_set k v o) k = true.
Proof. unfold obj_has. now rewrite obj_get_set_eq. Qed.

Section BuildOrder.
Context `{JsRuntime} `{SchemaEngine}.

Lemma build_method_keys path item st m st' :
  build_method path item st m = Ok st' ->
  obj_has (validators st) path = true ->
  obj_keys (validators st') = obj_keys (validators st)
  /\ obj_has (validators st') path = true.
Proof.
  unfold build_method. intros Hst Hhas.
  destruct (operation_of item m) as [op|]; [|injection Hst as <-; now split].
  destruct (op_responses op) as [declared|]; [|injection Hst as <-; now split].
  apply bind_Ok_inv in Hst as ([[[table sts] warns] ajv] & _ & [= <-]).
  cbn [validators].
  split; [now apply obj_keys_set_present | apply obj_has_set].
Qed.

Lemma build_methods_keys path item ms :
  forall st st',
    fold_outcome (build_method path item) ms st = Ok st' ->
    obj_has (validators st) path = true ->
    obj_keys (validators st') = obj_keys (validators st).
Proof.
  induction ms as [|m ms IH]; intros st st'; cbn [fold_outcome].
  - now intros [= <-].
  - intros (st1 & H1 & Hrest)%bind_Ok_inv Hhas.
    destruct (build_method_keys _ _ _ _ _ H1 Hhas) as [Hkeys Hhas'].
    now rewrite (IH _ _ Hrest Hhas'), Hkeys.
Qed.

Lemma build_path_keys st path item st' :
  array_index path = None ->
  build_path st (path, Some item) = Ok st' ->
  obj_keys (validators st')
  = if obj_has (validators st) path then obj_keys (validators st)
    else obj_keys (validators st) ++ [path].
Proof.
  intros Hpath. unfold build_path. cbn [fst snd].
  destruct (inherited_name path); [discriminate|]. intros Hfold.
  rewrite (build_methods_keys _ _ _ _ _ Hfold)
    by (cbn [open_path validators]; apply obj_has_set).
  cbn [open_path validators]. now apply obj_keys_set_named.
Qed.

Lemma build_paths_keys entries :
  forall st st',
    NoDup (map fst entries) ->
    Forall (fun p => array_index p = None) (declared_paths entries) ->
    fold_outcome build_path entries st = Ok st' ->
    obj_keys (validators st')
    = obj_keys (validators st)
      ++ List.filter (fun p => negb (obj_has (validators st) p))
                     (declared_paths entries).
Proof.
  induction entries as [|[p [item|]] entries IH]; intros st st' Hnodup Hnamed;
    cbn [fold_outcome].
  - intros [= <-]. cbn. now rewrite app_nil_r.
  - intros (st1 & H1 & Hrest)%bind_Ok_inv.
    apply NoDup_cons in Hnodup as [Hp Hnodup].
    change (declared_paths ((p, Some item) :: entries))
      with (p :: declared_paths entries) in *.
    apply Forall_cons in Hnamed as [Hpn Hnamed].
    rewrite (IH _ _ Hnodup Hnamed Hrest), (build_path_keys _ _ _ _ Hpn H1).
    cbn [List.filter].
    assert (Hsame : List.filter
                      (fun q => negb (obj_has (validators st1) q))
                      (declared_paths entries)
                    = List.filter (fun q => negb (obj_has (validators st) q))
                                  (declared_paths entries)).
    { apply List.filter_ext_in. intros q Hq. unfold obj_has.
      destruct (build_path_spec _ _ _ H1) as (Hother & _).
      rewrite Hother; [reflexivity|]. cbn [fst]. intros ->. apply Hp.
      apply list_elem_of_In, list_elem_of_omap in Hq as ([q' oi] & Hin & Hq).
      cbn [fst snd] in Hq. destruct oi; [|discriminate]. injection Hq as ->.
      apply list_elem_of_fmap. exists (p, Some o). split; [reflexivity | exact Hin]. }
    rewrite Hsame. destruct (obj_has (validators st) p); cbn [negb];
      [reflexivity | now rewrite <- app_assoc].
  - intros Hrest. apply NoDup_cons in Hnodup as [_ Hnodup].
    cbn [build_path snd mbind outcome_bind] in Hrest. now apply IH.
Qed.

(** X13.  The paths of the validator table are enumerated in document
    order, for paths that are no array indices (the text of an integer,
    which an object enumerates first): a build from the empty table lists
    exactly the paths of the document that hold a path item, in the order
    of the document, also those without any operation; a build onto an
    existing table keeps its paths where they are and appends the new
    ones.  This is the order in which [matchPath] sees the templates, and
    so the order that decides between templates of equal score. *)
Theorem table_paths_in_document_order entries :
  NoDup (map fst entries) ->
  Forall (fun p => array_index p = None) (declared_paths entries) ->
  let spec := {| paths := Some entries |} in
  (forall final,
      buildPathValidators spec empty_build = Ok final ->
      obj_keys (validators final) = declared_paths entries)
  /\ forall st final,
       buildPathValidators spec st = Ok final ->
       obj_keys (validators final)
       = obj_keys (validators st)
         ++ List.filter (fun p => negb (obj_has (validators st) p))
                        (declared_paths entries).
Proof.
  intros Hnodup Hnamed spec.
  assert (Hall : forall st final,
             buildPathValidators spec st = Ok final ->
             obj_keys (validators final)
             = obj_keys (validators st)
               ++ List.filter (fun p => negb (obj_has (validators st) p))
                              (declared_paths entries)).
  { intros st final. unfold buildPathValidators, spec. cbn [paths].
    now apply build_paths_keys. }
  split; [|exact Hall].
  intros final Hfinal.
  rewrite (Hall _ _ Hfinal). cbn [empty_build validators obj_keys map app].
  apply forallb_filter_id. apply forallb_forall. reflexivity.
Qed.

Lemma build_method_entries path item st m st' :
  build_method path item st m = Ok st' ->
  coverageEntries st' = coverageEntries st ++ method_entries path item m.
Proof.
  unfold build_method, method_entries, declared_responses.
  destruct (operation_of item m) as [op|]; cbn [mbind option_bind];
    [|intros [= <-]; now rewrite app_nil_r].
  destruct (op_responses op) as [declared|];
    [|intros [= <-]; now rewrite app_nil_r].
  intros ([[[table sts] warns] ajv] & Hfold & [= <-])%bind_Ok_inv.
  pose proof (build_response_fold _ _ _ _ _ _ _ _ Hfold) as Hf.
  cbv beta iota in Hf. destruct Hf as (Hsts & _). cbn [app] in Hsts. subst sts.
  cbn [coverageEntries].
  destruct declared; [now rewrite app_nil_r | reflexivity].
Qed.

Lemma build_methods_entries path item ms :
  forall st st',
    fold_outcome (build_method path item) ms st = Ok st' ->
    coverageEntries st'
    = coverageEntries st ++ flat_map (method_entries path item) ms.
Proof.
  induction ms as [|m ms IH]; intros st st'; cbn [fold_outcome flat_map].
  - intros [= <-]. now rewrite app_nil_r.
  - intros (st1 & H1 & Hrest)%bind_Ok_inv.
    rewrite (IH _ _ Hrest), (build_method_entries _ _ _ _ _ H1).
    now rewrite <- app_assoc.
Qed.

Lemma build_paths_entries entries :
  forall st st',
    fold_outcome build_path entries st = Ok st' ->
    coverageEntries st' = coverageEntries st ++ document_entries entries.
Proof.
  induction entries as [|[p [item|]] entries IH]; intros st st';
    cbn [fold_outcome].
  - intros [= <-]. cbn. now rewrite app_nil_r.
  - intros (st1 & H1 & Hrest)%bind_Ok_inv.
    rewrite (IH _ _ Hrest). unfold build_path in H1. cbn [fst snd] in H1.
    destruct (inherited_name p); [discriminate|].
    rewrite (build_methods_entries _ _ _ _ _ H1).
    cbn [open_path coverageEntries]. unfold document_entries.
    cbn [flat_map fst snd]. now rewrite <- app_assoc.
  - intros Hrest. cbn [build_path snd mbind outcome_bind] in Hrest.
    rewrite (IH _ _ Hrest). reflexivity.
Qed.

(** X14.  The coverage entries a build adds are a function of the document
    alone: one entry for every operation that declares at least one
    response, path by path in document order and, within a path, in the
    order of [HTTP_METHODS], each with all the declared status codes in
    their order.  They are appended to the entries already there, and they
    depend neither on the schema engine nor on whether a schema compiles. *)
Theorem coverage_entries_of_build entries st final :
  buildPathValidators {| paths := Some entries |} st = Ok final ->
  coverageEntries final = coverageEntries st ++ document_entries entries.
Proof. unfold buildPathValidators. cbn [paths]. apply build_paths_entries. Qed.

End BuildOrder.

Lemma table_paths_in_document_order_witness :
  obj_keys (validators (example_build colon_doc)) = ["/a"; "/a:x"].
Proof.
  destruct (table_paths_in_document_order (H := plain_runtime) (H0 := strict_engine)
              [("/a", Some (get_only [("x:200", no_content)]));
               ("/a:x", Some (get_only [("200", no_content)]))])
    as [Hempty _].
  - apply NoDup_cons_2; [|apply NoDup_singleton].
    intros Hin%list_elem_of_singleton. discriminate.
  - repeat constructor.
  - exact (Hempty (example_build colon_doc) eq_refl).
Defined.

Lemma coverage_entries_of_build_witness :
  coverageEntries (example_build bad_schema_doc)
  = [{| route := "/pets"; method := "GET"; statuses := ["200"; "404"] |}].
Proof.
  exact (coverage_entries_of_build (H := plain_runtime) (H0 := strict_engine)
           [("/pets", Some (get_only [("200", json_content bad_schema);
                                      ("404", no_content)]))]
           empty_build (example_build bad_schema_doc) eq_refl).
Defined.

(** ** The value an error reports *)

Lemma walk_parts_undefined parts : walk_parts parts JUndefined = Some JUndefined.
Proof. now destruct parts. Qed.

Lemma walk_parts_lookup keys :
  forall current,
    walk_parts keys current = member_value (lookup_path keys current).
Proof.
  induction keys as [|k keys IH]; intros current; [reflexivity|].
  cbn [walk_parts lookup_path].
  destruct current as [| | b | n | s | items | record | t r];
    try reflexivity;
    try (cbn [truthy typeof_object andb];
         match goal with
         | |- context [if ?b then _ else _] => now destruct b
         end).
  - cbn [truthy typeof_object andb].
    destruct (read_member (JArr items) k);
      [apply IH | apply walk_parts_undefined | reflexivity].
  - cbn [truthy typeof_object andb].
    destruct (read_member (JObj record) k);
      [apply IH | apply walk_parts_undefined | reflexivity].
Qed.

Lemma filter_nonempty_all pieces :
  Forall (fun piece => nonempty piece = true) pieces ->
  List.filter nonempty pieces = pieces.
Proof.
  induction 1 as [|piece pieces Hpiece _ IH]; [reflexivity|].
  cbn [List.filter]. now rewrite Hpiece, IH.
Qed.

(** X15.  [getValueAtPath] on an instance path [/k1/.../kn], with keys
    that are not empty and hold no slash, reads [body[k1]...[kn]] key by
    key (the items and the length of an array included), and is
    [undefined] as soon as a key is missing; the empty path gives the body
    itself.  The keys are taken as they are written: the escape [~1] is
    not decoded, so for a property whose name holds a slash the reported
    value is [undefined]. *)
Theorem getValueAtPath_reads_nested_property :
  (forall obj, getValueAtPath obj "" = Some obj)
  /\ (forall obj keys,
         keys <> [] ->
         Forall (fun k => nonempty k = true
                          /\ string_existsb (Ascii.eqb "/") k = false) keys ->
         getValueAtPath obj ("/" +:+ join_with "/" keys)
         = member_value (lookup_path keys obj))
  /\ getValueAtPath (JObj [("pets", JArr [JObj [("name", JNum (Int 7))]])])
       "/pets/0/name" = Some (JNum (Int 7))
  /\ getValueAtPath (JObj [("a/b", JStr "x")])
       ("/" +:+ escape_pointer_segment "a/b") = Some JUndefined.
Proof.
  split; [reflexivity|]. split; [|split; reflexivity].
  intros obj keys Hne Hkeys. unfold getValueAtPath.
  change (nonempty ("/" +:+ join_with "/" keys)) with true. cbn [negb].
  assert (Hsegs : segments ("/" +:+ join_with "/" keys) = keys).
  { unfold segments. change ("/" +:+ ?s) with (String "/" s).
    rewrite split_sep. cbn [List.filter nonempty].
    rewrite split_join_with; [|exact Hne|].
    - apply filter_nonempty_all. eapply Forall_impl; [exact Hkeys|].
      now intros k [Hk _].
    - eapply Forall_impl; [exact Hkeys|]. now intros k [_ Hk]. }
  rewrite Hsegs, walk_parts_lookup.
  destruct keys as [|k keys]; [congruence|]. cbn [lookup_path].
  destruct (truthy obj) eqn:Ht, (typeof_object obj) eqn:Ho; reflexivity.
Qed.

(** ** Normalized headers *)

Lemma obj_get_app {V} (o o' : list (string * V)) k :
  obj_get (o ++ o') k
  = match obj_get o k with Some v => Some v | None => obj_get o' k end.
Proof.
  induction o as [|[k' v'] o IH]; [reflexivity|].
  cbn [app obj_get]. destruct (String.eqb k' k); [reflexivity | exact IH].
Qed.

Lemma obj_keys_insert_elem {V} (o : list (string * V)) k v k' :
  k' ∈ obj_keys (obj_insert k v o) <-> k' = k \/ k' ∈ obj_keys o.
Proof.
  unfold obj_keys. induction o as [|[k0 v0] o IH]; cbn [obj_insert map fst].
  - rewrite list_elem_of_singleton. split; [now left|].
    intros [-> | Hin]; [reflexivity | now apply elem_of_nil in Hin].
  - destruct (comes_before k k0); cbn [map fst]; rewrite !elem_of_cons.
    + reflexivity.
    + rewrite IH. tauto.
Qed.

Lemma obj_keys_insert_NoDup {V} (o : list (string * V)) k v :
  k ∉ obj_keys o -> NoDup (obj_keys o) -> NoDup (obj_keys (obj_insert k v o)).
Proof.
  unfold obj_keys. induction o as [|[k0 v0] o IH]; cbn [obj_insert map fst];
    intros Hk Hnodup.
  - apply NoDup_singleton.
  - destruct (comes_before k k0); cbn [map fst].
    + apply NoDup_cons_2; assumption.
    + apply NoDup_cons in Hnodup as [Hk0 Hnodup].
      apply not_elem_of_cons in Hk as [Hne Hk].
      apply NoDup_cons_2; [|now apply IH].
      intros Hin. apply (obj_keys_insert_elem o k v k0) in Hin as [-> | Hin];
        [congruence | contradiction].
Qed.

Lemma obj_has_keys {V} (o : list (string * V)) k :
  obj_has o k = false -> k ∉ obj_keys o.
Proof.
  unfold obj_has, obj_keys. induction o as [|[k0 v0] o IH]; cbn [obj_get map fst].
  - intros _. apply not_elem_of_nil.
  - destruct (String.eqb_spec k0 k) as [->|Hne]; [discriminate|].
    intros Hno. apply not_elem_of_cons. split; [congruence | now apply IH].
Qed.

Lemma obj_set_keys_NoDup {V} (o : list (string * V)) k v :
  NoDup (obj_keys o) -> NoDup (obj_keys (obj_set k v o)).
Proof.
  intros Hnodup. unfold obj_set. destruct (obj_has o k) eqn:Hhas.
  - now rewrite obj_keys_update.
  - apply obj_keys_insert_NoDup; [now apply obj_has_keys | assumption].
Qed.

Lemma obj_set_keys_elem {V} (o : list (string * V)) k v k' :
  k' ∈ obj_keys (obj_set k v o) -> k' = k \/ k' ∈ obj_keys o.
Proof.
  unfold obj_set. destruct (obj_has o k).
  - rewrite obj_keys_update. now right.
  - apply obj_keys_insert_elem.
Qed.

Section Headers.
Context `{JsRuntime}.

Lemma normalizeHeaders_fold (l : list (string * jsval)) :
  forall acc result,
    fold_left
      (fun acc kv =>
         result ← acc;
         text ← ToString (snd kv);
         Ok (obj_assign (toLowerCase (fst kv)) text result))
      l (Ok acc) = Ok result ->
    obj_get acc "__proto__" = None ->
    (NoDup (obj_keys acc) -> NoDup (obj_keys result))
    /\ (forall k, k ∈ obj_keys result ->
                  k ∈ obj_keys acc
                  \/ exists kv, kv ∈ l /\ k = toLowerCase (fst kv))
    /\ obj_get result "__proto__" = None
    /\ exists texts,
         Forall2 (fun kv text => ToString (snd kv) = Ok text) l texts
         /\ forall k,
              k <> "__proto__" ->
              obj_get result k
              = match obj_get (rev (zip (map (fun kv => toLowerCase (fst kv)) l)
                                        texts)) k with
                | Some v => Some v
                | None => obj_get acc k
                end.
Proof.
  induction l as [|[name value] l IH]; intros acc result; cbn [fold_left].
  - intros [= <-] Hproto. split; [auto|]. split; [auto|]. split; [assumption|].
    exists []. split; [constructor | reflexivity].
  - cbn [mbind outcome_bind fst snd].
    destruct (ToString value) as [text| |] eqn:Htext; cbn [mbind outcome_bind].
    2,3: (intros Hfold; exfalso; revert Hfold; clear;
          induction l as [|kv l IHl]; [discriminate | exact IHl]).
    intros Hfold Hproto.
    assert (Hproto' : obj_get (obj_assign (toLowerCase name) text acc) "__proto__"
                      = None).
    { unfold obj_assign.
      destruct (String.eqb_spec (toLowerCase name) "__proto__") as [Heq|Hne].
      - unfold obj_has. rewrite Heq, Hproto. exact Hproto.
      - cbn [andb]. now rewrite obj_get_set_ne. }
    destruct (IH _ _ Hfold Hproto') as (Hnodup & Hkeys & Hres & texts & Htexts & Hget).
    assert (Hstep : obj_assign (toLowerCase name) text acc = acc
                    /\ toLowerCase name = "__proto__"
                    \/ obj_assign (toLowerCase name) text acc
                       = obj_set (toLowerCase name) text acc
                       /\ toLowerCase name <> "__proto__").
    { unfold obj_assign.
      destruct (String.eqb_spec (toLowerCase name) "__proto__") as [Heq|Hne].
      - left. unfold obj_has. rewrite Heq, Hproto. auto.
      - right. auto. }
    split; [|split; [|split]].
    + intros Hacc. apply Hnodup.
      destruct Hstep as [[-> _] | [-> _]]; [assumption|].
      now apply obj_set_keys_NoDup.
    + intros k Hk. destruct (Hkeys k Hk) as [Hin | (kv & Hin & ->)].
      * destruct Hstep as [[Heq _] | [Heq _]]; rewrite Heq in Hin; [now left|].
        apply obj_set_keys_elem in Hin as [-> | Hin]; [|now left].
        right. exists (name, value). split; [apply list_elem_of_here | reflexivity].
      * right. exists kv. split; [now apply list_elem_of_further | reflexivity].
    + exact Hres.
    + exists (text :: texts). split; [now constructor|].
      intros k Hk. rewrite (Hget k Hk). cbn [map zip zip_with rev fst snd].
      rewrite obj_get_app.
      destruct (obj_get (rev _) k); [reflexivity|]. cbn [obj_get].
      destruct Hstep as [Heq | [-> Hne]].
      * destruct Heq as [-> ->].
        destruct (String.eqb_spec "__proto__" k); [congruence | reflexivity].
      * destruct (String.eqb_spec (toLowerCase name) k) as [<-|Hne'].
        -- apply obj_get_set_eq.
        -- now apply obj_get_set_ne.
Qed.

(** X16.  The headers [normalizeHeaders] returns, when [String] returns
    for every value, have each name once, and every name is the lower-case
    form of the name of a header.  The value under a name is the text of
    the last header whose name has that lower-case form: of two headers
    that differ in case only, the later one wins.  A header whose
    lower-case name is [__proto__] is lost. *)
Theorem normalizeHeaders_lower_case_last_wins headers result :
  normalizeHeaders headers = Ok result ->
  NoDup (obj_keys result)
  /\ (forall k, k ∈ obj_keys result ->
                exists kv, kv ∈ entries headers /\ k = toLowerCase (fst kv))
  /\ obj_get result "__proto__" = None
  /\ exists texts,
       Forall2 (fun kv text => ToString (snd kv) = Ok text) (entries headers) texts
       /\ forall k,
            k <> "__proto__" ->
            obj_get result k
            = obj_get (rev (zip (map (fun kv => toLowerCase (fst kv))
                                     (entries headers)) texts)) k.
Proof.
  intros Hresult. unfold normalizeHeaders in Hresult.
  destruct (normalizeHeaders_fold (entries headers) [] result Hresult eq_refl)
    as (Hnodup & Hkeys & Hproto & texts & Htexts & Hget).
  split; [apply Hnodup; constructor|]. split; [|split; [exact Hproto|]].
  - intros k Hk. destruct (Hkeys k Hk) as [Hin | Hkv]; [|exact Hkv].
    now apply elem_of_nil in Hin.
  - exists texts. split; [exact Htexts|].
    intros k Hk. rewrite (Hget k Hk). now destruct (obj_get (rev _) k).
Qed.

End Headers.

Lemma normalizeHeaders_lower_case_last_wins_witness :
  obj_get [("content-type", "b"); ("x", "1")] "content-type" = Some "b"
  /\ NoDup (obj_keys [("content-type", "b"); ("x", "1")]).
Proof.
  destruct (normalizeHeaders_lower_case_last_wins (H := plain_runtime)
              (JObj [("Content-Type", JStr "a"); ("X", JNum (Int 1));
                     ("content-type", JStr "b"); ("__proto__", JStr "p")])
              [("content-type", "b"); ("x", "1")] eq_refl)
    as (Hnodup & _ & _ & _).
  split; [reflexivity | exact Hnodup].
Defined.

(** ** When a response is valid *)


Section Verdict.
Context `{JsRuntime}.


(** ** What a parsed response looks like *)

Lemma parseResponse_reaches_shape v :
  forall parsed,
    parseResponse v = Ok parsed ->
    exists res, parse_shapes res = Ok parsed.
Proof.
  induction v as [| | b | n | s | items IH | record IH | t r IH] using jsval_induction;
    intros parsed Hparsed; try discriminate.
  - exists (indexed items). exact Hparsed.
  - rewrite parseResponse_obj in Hparsed. unfold wrapped_response in Hparsed.
    destruct (obj_get record "response") as [inner|] eqn:Hinner; [|eauto].
    destruct (truthy inner && typeof_object inner); [|eauto].
    apply obj_get_In in Hinner. rewrite List.Forall_forall in IH.
    exact (IH _ Hinner parsed Hparsed).
Qed.

Lemma parsed_from_Ok m read_url st headers body parsed :
  parsed_from m read_url st headers body = Ok parsed ->
  exists text url status hs,
    extractPath url = Ok (res_path parsed)
    /\ res_method parsed = toUpperCase text
    /\ ToNumber st = Ok status
    /\ res_status parsed = number_or_zero status
    /\ normalizeHeaders hs = Ok (res_headers parsed).
Proof.
  unfold parsed_from.
  intros (mv & _ & Hrest)%bind_Ok_inv.
  apply bind_Ok_inv in Hrest as (text & _ & Hrest).
  apply bind_Ok_inv in Hrest as (url & _ & Hrest).
  apply bind_Ok_inv in Hrest as (p & Hp & Hrest).
  apply bind_Ok_inv in Hrest as (status & Hstatus & Hrest).
  apply bind_Ok_inv in Hrest as (hs & Hhs & Hrest).
  apply bind_Ok_inv in Hrest as (b & _ & [= <-]).
  exists text, url, status, (js_or headers (JObj [])). cbn. auto.
Qed.

Lemma parse_shapes_Ok res parsed :
  parse_shapes res = Ok parsed ->
  exists m read_url st headers body,
    parsed_from m read_url st headers body = Ok parsed.
Proof.
  unfold parse_shapes. intros Hparsed.
  repeat match type of Hparsed with
         | (if ?c then _ else _) = _ => destruct c
         end;
    try discriminate; eauto 8.
Qed.

(** X18.  Whatever the shape of the response, the status of a parsed
    response is a number that is not [NaN]: it is truthy, or it is 0,
    which stands for a status that is missing or no number.  Its method is
    the upper-case form of a text, its path is what [extractPath] gives
    for a url, and its headers are normalized ones. *)
Theorem parsed_response_is_normalized v parsed :
  parseResponse v = Ok parsed ->
  res_status parsed <> NaN
  /\ (truthy (JNum (res_status parsed)) = true \/ res_status parsed = Int 0)
  /\ (exists text, res_method parsed = toUpperCase text)
  /\ (exists url, extractPath url = Ok (res_path parsed))
  /\ (exists headers, normalizeHeaders headers = Ok (res_headers parsed)).
Proof.
  intros Hparsed. apply parseResponse_reaches_shape in Hparsed as [res Hres].
  apply parse_shapes_Ok in Hres as (m & read_url & st & headers & body & Hfrom).
  apply parsed_from_Ok in Hfrom
    as (text & url & status & hs & Hpath & Hmethod & _ & Hstatus & Hhs).
  assert (Hnum : truthy (JNum (res_status parsed)) = true
                 \/ res_status parsed = Int 0).
  { rewrite Hstatus. unfold number_or_zero.
    destruct (truthy (JNum status)) eqn:Ht; [now left | now right]. }
  split; [|split; [exact Hnum|]].
  - intros Hnan. rewrite Hnan in Hnum. destruct Hnum; discriminate.
  - split; [exists text; exact Hmethod|].
    split; [exists url; exact Hpath | exists hs; exact Hhs].
Qed.

End Verdict.

Lemma parsed_response_is_normalized_witness :
  let parsed := {| res_method := "GET"; res_path := "/pets"; res_status := Int 0;
                   res_headers := [("content-type", "application/json")];
                   res_body := JNull |} in
  res_status parsed <> NaN
  /\ (truthy (JNum (res_status parsed)) = true \/ res_status parsed = Int 0).
Proof.
  destruct (parsed_response_is_normalized (H := plain_runtime)
              (JObj [("method", JStr "get"); ("url", JStr "/pets?limit=1");
                     ("status", JStr "teapot");
                     ("headers", JObj [("Content-Type", JStr "application/json")])])
              _ eq_refl) as (Hnan & Hnum & _).
  split; [exact Hnan | exact Hnum].
Defined.

(** ** The path of a relative url *)

Lemma head_split_no_sep sep s :
  string_existsb (Ascii.eqb sep) (List.hd "" (split sep s)) = false.
Proof.
  induction s as [|c s IH]; [reflexivity|].
  destruct (Ascii.eqb_spec c sep) as [->|Hne].
  - now rewrite split_sep.
  - rewrite (split_other _ _ _ Hne). cbn [List.hd string_existsb].
    rewrite IH. destruct (Ascii.eqb_spec sep c); [congruence | reflexivity].
Qed.

Lemma cleanPath_head_split s : cleanPath (List.hd "" (split "?" s)) = cleanPath s.
Proof.
  unfold cleanPath. now rewrite (split_no_sep _ _ (head_split_no_sep "?" s)).
Qed.

(** X19.  For a url that is not absolute, or that the [URL] constructor
    rejects, [extractPath] returns the text before the first question
    mark: the path it returns holds no question mark, and [matchPath]
    answers for it what it answers for the url itself. *)
Theorem extractPath_drops_query `{JsRuntime} s :
  startsWith "http://" s || startsWith "https://" s = false
  \/ (exists e, url_pathname s = Throw e) ->
  exists p,
    extractPath (JStr s) = Ok p
    /\ string_existsb (Ascii.eqb "?") p = false
    /\ forall templates, matchPath p templates = matchPath s templates.
Proof.
  intros Hrelative. exists (List.hd "" (split "?" s)). split; [|split].
  - unfold extractPath. destruct Hrelative as [-> | [e ->]]; [reflexivity|].
    now destruct (_ || _).
  - apply head_split_no_sep.
  - intros templates. unfold matchPath. now rewrite cleanPath_head_split.
Qed.

Lemma extractPath_drops_query_witness :
  exists p,
    extractPath (H := plain_runtime) (JStr "/pets/7?full=1&x=?") = Ok p
    /\ string_existsb (Ascii.eqb "?") p = false
    /\ forall templates,
         matchPath p templates = matchPath "/pets/7?full=1&x=?" templates.
Proof.
  apply (extractPath_drops_query (H := plain_runtime)). left. reflexivity.
Defined.

(** ** The coverage tracker *)

Lemma filter_length_le {A} (p : A -> bool) (l : list A) :
  (length (List.filter p l) <= length l)%nat.
Proof.
  induction l as [|x l IH]; [apply le_n|].
  cbn [List.filter]. destruct (p x); cbn [length]; lia.
Qed.

Lemma length_flat_map_expand new_entries :
  length (flat_map expand_entry new_entries) = status_count new_entries.
Proof.
  unfold status_count. induction new_entries as [|entry l IH]; [reflexivity|].
  cbn [flat_map map list_sum]. rewrite length_app, IH.
  unfold expand_entry. now rewrite length_map.
Qed.

Section TrackerAlgebra.
Context `{JsRuntime}.

Lemma makeKey_upper r m m' st :
  toUpperCase m = toUpperCase m' -> makeKey r m st = makeKey r m' st.
Proof. unfold makeKey. now intros ->. Qed.

(** X20.  Recording coverage is idempotent and independent of the order
    of the calls, and of the method only its upper-case form matters: the
    same triple recorded twice, or with another method of the same
    upper-case form, leaves the tracker as one recording does. *)
Theorem recordCoverage_idempotent_commutative :
  (forall r m st t,
      recordCoverage r m st (recordCoverage r m st t) = recordCoverage r m st t)
  /\ (forall r m st r' m' st' t,
         recordCoverage r m st (recordCoverage r' m' st' t)
         = recordCoverage r' m' st' (recordCoverage r m st t))
  /\ (forall r m m' st t,
         toUpperCase m = toUpperCase m' ->
         recordCoverage r m st t = recordCoverage r m' st t).
Proof.
  split; [|split].
  - intros r m st t. unfold recordCoverage. cbn [allEndpoints covered reportOnExit
      exportOnExit exitHandlerRegistered]. f_equal.
    apply set_eq. intros k. rewrite !elem_of_union. tauto.
  - intros r m st r' m' st' t. unfold recordCoverage. cbn [allEndpoints covered
      reportOnExit exportOnExit exitHandlerRegistered]. f_equal.
    apply set_eq. intros k. rewrite !elem_of_union. tauto.
  - intros r m m' st t Hcase. unfold recordCoverage.
    now rewrite (makeKey_upper r m m' st Hcase).
Qed.

(** X21.  Recording a triple takes out of the uncovered records exactly
    those with its key, however many there are, and nothing else; the
    registered records are untouched, and the number of covered keys grows
    by one when the key is new and not at all otherwise. *)
Theorem recordCoverage_uncovers_its_key r m st t :
  let t' := recordCoverage r m st t in
  getUncovered t'
  = List.filter (fun e => negb (String.eqb (record_key e) (makeKey r m st)))
                (getUncovered t)
  /\ allEndpoints t' = allEndpoints t
  /\ (length (getUncovered t') <= length (getUncovered t))%nat
  /\ stats_covered (getStats t')
     = if bool_decide (makeKey r m st ∈ covered t)
       then stats_covered (getStats t)
       else S (stats_covered (getStats t)).
Proof.
  intros t'.
  assert (Huncovered :
            getUncovered t'
            = List.filter (fun e => negb (String.eqb (record_key e) (makeKey r m st)))
                          (getUncovered t)).
  { unfold getUncovered, t', recordCoverage. cbn [allEndpoints covered].
    induction (allEndpoints t) as [|e l IH]; [reflexivity|].
    cbn [List.filter]. rewrite IH.
    destruct (String.eqb_spec (record_key e) (makeKey r m st)) as [Heq|Hne].
    - rewrite bool_decide_eq_true_2
        by (apply elem_of_union; right; now apply elem_of_singleton).
      cbn [negb]. destruct (bool_decide (record_key e ∈ covered t)); cbn [negb];
        [reflexivity|].
      cbn [List.filter]. rewrite Heq, String.eqb_refl. reflexivity.
    - destruct (decide (record_key e ∈ covered t)) as [Hin|Hnot].
      + rewrite !bool_decide_eq_true_2;
          [reflexivity | exact Hin | apply elem_of_union; now left].
      + rewrite !bool_decide_eq_false_2; [|exact Hnot|].
        * cbn [negb List.filter].
          destruct (String.eqb_spec (record_key e) (makeKey r m st));
            [contradiction | reflexivity].
        * intros [Hin | Hin%elem_of_singleton]%elem_of_union; contradiction. }
  split; [exact Huncovered|]. split; [reflexivity|]. split.
  - rewrite Huncovered. apply filter_length_le.
  - unfold t', getStats, recordCoverage. cbn [covered stats_covered].
    destruct (decide (makeKey r m st ∈ covered t)) as [Hin|Hnot].
    + rewrite bool_decide_eq_true_2 by exact Hin. f_equal.
      apply set_eq. intros k. rewrite elem_of_union, elem_of_singleton.
      split; [intros [Hk | ->]; assumption | now left].
    + rewrite bool_decide_eq_false_2 by exact Hnot.
      rewrite size_union, size_singleton; [lia|].
      intros k Hk ->%elem_of_singleton. contradiction.
Qed.

(** X22.  [registerEndpoints] appends one record for every status of
    every entry and never looks at what is registered already: the total
    grows by the number of statuses, registering the same entries again
    adds them again, and an entry without statuses adds nothing.  The
    covered keys are not touched, so registering and recording can be done
    in either order. *)
Theorem registerEndpoints_appends :
  (forall new_entries t,
      let t' := registerEndpoints new_entries t in
      allEndpoints t' = allEndpoints t ++ flat_map expand_entry new_entries
      /\ total (getStats t')
         = (total (getStats t) + status_count new_entries)%nat
      /\ covered t' = covered t)
  /\ (forall new_entries t,
         total (getStats (registerEndpoints new_entries
                            (registerEndpoints new_entries t)))
         = (total (getStats t) + 2 * status_count new_entries)%nat)
  /\ (forall first second t,
         registerEndpoints (first ++ second) t
         = registerEndpoints second (registerEndpoints first t))
  /\ (forall new_entries r m st t,
         registerEndpoints new_entries (recordCoverage r m st t)
         = recordCoverage r m st (registerEndpoints new_entries t)).
Proof.
  split; [|split; [|split]].
  - intros new_entries t t'. split; [reflexivity|]. split; [|reflexivity].
    unfold t', getStats, registerEndpoints. cbn [allEndpoints total].
    now rewrite length_app, length_flat_map_expand.
  - intros new_entries t. unfold getStats, registerEndpoints.
    cbn [allEndpoints total]. rewrite !length_app, length_flat_map_expand. lia.
  - intros first second t. unfold registerEndpoints.
    cbn [allEndpoints covered reportOnExit exportOnExit exitHandlerRegistered].
    now rewrite flat_map_app, app_assoc.
  - reflexivity.
Qed.

Lemma getUncovered_covered_count (all : list CoverageRecord) :
  forall keys : gset string,
    NoDup (map record_key all) ->
    (forall k, k ∈ keys -> exists e, e ∈ all /\ record_key e = k) ->
    (length (List.filter (fun e => negb (bool_decide (record_key e ∈ keys))) all)
     + size keys = length all)%nat.
Proof.
  induction all as [|e all IH]; intros keys Hnodup Hwithin.
  - cbn [List.filter length Nat.add].
    apply size_empty_iff, elem_of_equiv_empty. intros k Hk.
    destruct (Hwithin k Hk) as (e & He & _). now apply elem_of_nil in He.
  - cbn [map] in Hnodup. apply NoDup_cons in Hnodup as [He Hnodup].
    cbn [List.filter length].
    assert (Hrest : forall keys' : gset string,
               (forall k, k ∈ keys' <-> k ∈ keys /\ k <> record_key e) ->
               List.filter (fun x => negb (bool_decide (record_key x ∈ keys))) all
               = List.filter (fun x => negb (bool_decide (record_key x ∈ keys'))) all).
    { intros keys' Hkeys'. apply List.filter_ext_in. intros x Hx. f_equal.
      apply bool_decide_ext. rewrite Hkeys'. split; [|tauto].
      intros Hin. split; [exact Hin|]. intros Heq. apply He. rewrite <- Heq.
      apply list_elem_of_fmap. exists x. split; [reflexivity|].
      now apply list_elem_of_In. }
    assert (Hwithin' : forall keys' : gset string,
               (forall k, k ∈ keys' <-> k ∈ keys /\ k <> record_key e) ->
               forall k, k ∈ keys' -> exists x, x ∈ all /\ record_key x = k).
    { intros keys' Hkeys' k Hk. apply Hkeys' in Hk as [Hk Hne].
      destruct (Hwithin k Hk) as (x & Hx & Hkey).
      apply elem_of_cons in Hx as [-> | Hx]; [congruence | eauto]. }
    destruct (decide (record_key e ∈ keys)) as [Hin|Hnot].
    + rewrite bool_decide_eq_true_2 by exact Hin. cbn [negb].
      assert (Hkeys' : forall k, k ∈ keys ∖ {[record_key e]}
                                 <-> k ∈ keys /\ k <> record_key e).
      { intros k. now rewrite elem_of_difference, elem_of_singleton. }
      rewrite (Hrest _ Hkeys').
      pose proof (IH _ Hnodup (Hwithin' _ Hkeys')) as Hcount.
      assert (Hsize : size keys = S (size (keys ∖ {[record_key e]}))).
      { rewrite size_difference, size_singleton.
        - assert (size keys <> 0)%nat; [|lia].
          intros Hzero. apply size_empty_iff in Hzero.
          rewrite elem_of_equiv_empty in Hzero. now apply (Hzero (record_key e)).
        - intros k ->%elem_of_singleton. exact Hin. }
      lia.
    + rewrite bool_decide_eq_false_2 by exact Hnot. cbn [negb length].
      assert (Hkeys' : forall k, k ∈ keys <-> k ∈ keys /\ k <> record_key e).
      { intros k. split; [|tauto]. intros Hk. split; [exact Hk|]. now intros ->. }
      pose proof (IH _ Hnodup (Hwithin' _ Hkeys')) as Hcount. lia.
Qed.

(** X23.  When the registered records have distinct keys and every
    covered key is the key of a registered record, the covered and the
    uncovered records add up to the total: the number of records of
    [getUncovered] plus the covered count of [getStats] is its total. *)
Theorem covered_and_uncovered_add_up t :
  NoDup (map record_key (allEndpoints t)) ->
  covered_within_universe t ->
  (length (getUncovered t) + stats_covered (getStats t) = total (getStats t))%nat.
Proof.
  intros Hnodup Hwithin. unfold getUncovered, getStats. cbn [stats_covered total].
  now apply getUncovered_covered_count.
Qed.

End TrackerAlgebra.

Lemma covered_and_uncovered_add_up_witness :
  let t := run_tracker (H := plain_runtime) new_tracker
             [CallRegisterEndpoints [pets_entry];
              CallRecordCoverage "/pets" "get" "200"] in
  (length (getUncovered (H := plain_runtime) t) + stats_covered (getStats t)
   = total (getStats t))%nat.
Proof.
  intros t. apply (covered_and_uncovered_add_up (H := plain_runtime) t).
  - apply NoDup_cons_2; [intros [=]%list_elem_of_singleton | apply NoDup_singleton].
  - intros k Hk.
    assert (Hkey : k = "GET:/pets:200").
    { apply elem_of_union in Hk as [Hk | Hk%elem_of_singleton];
        [now apply elem_of_empty in Hk | exact Hk]. }
    subst k.
    exists {| rec_route := "/pets"; rec_method := "GET"; rec_status := "200" |}.
    split; [apply list_elem_of_here | reflexivity].
Defined.

(** ** The assertion *)

Section AssertionOutcome.
Context `{JsRuntime}.

(** X24.  [isValidResponse] throws the configuration error, and changes
    nothing, when no spec is registered or no table is there.  Otherwise
    what [validateResponse] throws is thrown on as it is, again with
    nothing changed; and when it returns a result, the call returns when
    the result is valid and, when it is not, throws an [AssertionError]
    whose [actual] is the error list of that result, unless printing an
    error for the message runs a [toJSON] method of the response.  So the
    call returns only for a response that is valid against the registered
    table. *)
Theorem isValidResponse_verdict response a :
  (hasRegistered a = false \/ registered_validators a = None ->
   isValidResponse response a = (a, Throw (JsError not_registered)))
  /\ (forall vs,
         hasRegistered a = true ->
         registered_validators a = Some vs ->
         match validateResponse response vs with
         | Throw e => isValidResponse response a = (a, Throw e)
         | Outside => isValidResponse response a = (a, Outside)
         | Ok result =>
             snd (isValidResponse response a)
             = if valid result then Ok tt
               else if message_described (errors result)
                    then Throw (JsAssertionError (errors result))
                    else Outside
         end)
  /\ (snd (isValidResponse response a) = Ok tt ->
      exists vs result,
        registered_validators a = Some vs
        /\ validateResponse response vs = Ok result
        /\ valid result = true).
Proof.
  unfold isValidResponse, getValidators.
  split; [|split].
  - intros [Hreg | Hnone].
    + now rewrite Hreg.
    + rewrite Hnone. now destruct (hasRegistered a).
  - intros vs Hreg Hvs. rewrite Hreg, Hvs. cbn [negb].
    destruct (validateResponse response vs) as [result|e|]; try reflexivity.
    destruct (valid result); cbn [negb snd]; [reflexivity|].
    now destruct (message_described (errors result)).
  - destruct (hasRegistered a); cbn [negb snd]; [|discriminate].
    destruct (registered_validators a) as [vs|]; [|discriminate].
    destruct (validateResponse response vs) as [result|e|] eqn:Hresult;
      cbn [snd]; try discriminate.
    destruct (valid result) eqn:Hvalid; cbn [negb snd];
      [|destruct (message_described (errors result)); discriminate].
    intros _. exists vs, result. auto.
Qed.

(** X25.  With coverage enabled, [isValidResponse] records the matched
    template, the method and the status of every response for which
    [validateResponse] returns a result and whose path matches, whatever
    the verdict: a response that fails the assertion counts as covered.
    With coverage disabled the call changes nothing at all, and in no case
    does it touch the table, the registration flag or the options. *)
Theorem isValidResponse_records_whatever_the_verdict
    response a vs result parsed pm :
  hasRegistered a = true ->
  registered_validators a = Some vs ->
  validateResponse response vs = Ok result ->
  parseResponse response = Ok parsed ->
  matchPath (res_path parsed) (obj_keys vs) = Some pm ->
  let a' := fst (isValidResponse response a) in
  (coverage_enabled (coverageOptions a) = true ->
   coverageTracker a'
   = recordCoverage (matched pm) (res_method parsed)
                    (string_of_number (res_status parsed)) (coverageTracker a))
  /\ (coverage_enabled (coverageOptions a) = false -> a' = a)
  /\ registered_validators a' = registered_validators a
  /\ hasRegistered a' = hasRegistered a
  /\ coverageOptions a' = coverageOptions a.
Proof.
  intros Hreg Hvs Hresult Hparsed Hmatch a'.
  unfold a', isValidResponse, getValidators, track_coverage.
  rewrite Hreg, Hvs, Hresult, Hparsed, Hmatch. cbn [negb].
  destruct (coverage_enabled (coverageOptions a));
    destruct (valid result); cbn [negb];
    try destruct (message_described (errors result)); cbn [fst];
    (split; [intros Hc; first [discriminate | reflexivity]|]);
    (split; [intros Hc; first [discriminate | reflexivity]|]);
    cbn [with_tracker registered_validators hasRegistered coverageOptions];
    auto.
Qed.

End AssertionOutcome.

Lemma isValidResponse_records_whatever_the_verdict_witness :
  let a := registered
             {| paths := Some [("/pets", Some (get_only [("200", no_content)]))] |} in
  let result := isValidResponse (H := plain_runtime) (get_pets (Int 302)) a in
  (exists errs, snd result = Throw (JsAssertionError errs))
  /\ coverageTracker (fst result)
     = recordCoverage (H := plain_runtime) "/pets" "GET" "302" (coverageTracker a).
Proof.
  intros a result. split; [eexists; reflexivity|].
  exact (proj1 (isValidResponse_records_whatever_the_verdict (H := plain_runtime)
                  (get_pets (Int 302)) a
                  [("/pets", [("get", {| responses := [("200", {| body := None |})] |})])]
                  _
                  {| res_method := "GET"; res_path := "/pets"; res_status := Int 302;
                     res_headers := []; res_body := JNull |}
                  {| matched := "/pets"; params := ∅ |}
                  eq_refl eq_refl eq_refl eq_refl eq_refl) eq_refl).
Defined.

(** ** Runs of the assertions *)

Section AssertionRuns.
Context `{JsRuntime}.

Lemma run_assertions_call_grows a c :
  let t := coverageTracker a in
  let t' := coverageTracker (run_assertions_call a c) in
  (exists more, allEndpoints t' = allEndpoints t ++ more)
  /\ covered t ⊆ covered t'
  /\ (exitHandlerRegistered t = true -> exitHandlerRegistered t' = true).
Proof.
  cbv zeta. destruct c as [built options | | response]; cbn [run_assertions_call].
  - unfold registerSpecs. destruct built as [vs new_entries|e];
      cbn [fst coverageTracker].
    + destruct (coverage_enabled options).
      * cbn [enableReporting registerEndpoints allEndpoints covered
               exitHandlerRegistered].
        split; [eauto|]. split; [reflexivity|]. intros Hexit.
        now rewrite Hexit, andb_false_r.
      * split; [exists []; now rewrite app_nil_r|]. split; [reflexivity | auto].
    + split; [exists []; now rewrite app_nil_r|]. split; [reflexivity | auto].
  - cbn [reset coverageTracker].
    split; [exists []; now rewrite app_nil_r|]. split; [reflexivity | auto].
  - destruct (isValidResponse_covered response a) as [Hall Hcovered].
    cbv zeta in Hall, Hcovered. split; [|split].
    + exists []. now rewrite app_nil_r.
    + destruct Hcovered as [-> | (parsed & vs & pm & _ & _ & _ & ->)];
        [reflexivity | apply union_subseteq_l].
    + unfold isValidResponse.
      destruct (negb (hasRegistered a)); [auto|].
      destruct (getValidators a) as [vs|e|]; [|auto|auto].
      destruct (validateResponse response vs) as [result|e|]; [|auto|auto].
      assert (Hkeep : exitHandlerRegistered (coverageTracker a) = true ->
                      exitHandlerRegistered
                        (coverageTracker
                           (if coverage_enabled (coverageOptions a)
                            then with_tracker a
                                   (track_coverage response vs (coverageTracker a))
                            else a)) = true).
      { destruct (coverage_enabled (coverageOptions a)); [|auto].
        cbn [with_tracker coverageTracker]. unfold track_coverage.
        destruct (parseResponse response) as [parsed|e|]; [|auto|auto].
        now destruct (matchPath (res_path parsed) (obj_keys vs)). }
      destruct (negb (valid result));
        [destruct (message_described (errors result))|]; exact Hkeep.
Qed.

(** X26.  Nothing ever takes coverage back.  Over any run of
    registrations, resets and assertions, the registered records are only
    appended to and the covered keys only grow; [reset] clears the table
    and the options but leaves the tracker as it is, and an exit handler
    once installed stays installed. *)
Theorem coverage_survives_any_run calls :
  forall a,
    run_described a calls ->
    let t := coverageTracker a in
    let t' := coverageTracker (run_assertions a calls) in
    (exists more, allEndpoints t' = allEndpoints t ++ more)
    /\ covered t ⊆ covered t'
    /\ (exitHandlerRegistered t = true -> exitHandlerRegistered t' = true)
    /\ coverageTracker (reset a) = t.
Proof.
  induction calls as [|c calls IH]; intros a Hdescribed t t'.
  - split; [exists []; now rewrite app_nil_r|]. split; [reflexivity|].
    split; [auto | reflexivity].
  - destruct Hdescribed as [_ Hdescribed].
    destruct (run_assertions_call_grows a c) as ((more & Hall) & Hcovered & Hexit).
    destruct (IH (run_assertions_call a c) Hdescribed)
      as ((more' & Hall') & Hcovered' & Hexit' & _).
    cbv zeta in *. unfold t', t, run_assertions in *. cbn [fold_left].
    split; [|split; [|split]].
    + exists (more ++ more'). rewrite Hall', Hall. now rewrite app_assoc.
    + etransitivity; [exact Hcovered | exact Hcovered'].
    + auto.
    + reflexivity.
Qed.

(** X27.  After [reset], every assertion throws the configuration error
    and changes nothing, until specs are registered again.  A registration
    whose build fails still marks the specs as registered and takes the new
    options, but keeps the table that was there: when a table had been
    registered before, assertions go on giving the verdicts of that table;
    when none had, they throw the configuration error. *)
Theorem reset_and_failed_registration response a :
  isValidResponse response (reset a)
  = (reset a, Throw (JsError not_registered))
  /\ (forall e options,
         let a' := fst (registerSpecs (BuildFailed e) options a) in
         hasRegistered a' = true
         /\ coverageOptions a' = options
         /\ registered_validators a' = registered_validators a
         /\ coverageTracker a' = coverageTracker a
         /\ snd (registerSpecs (BuildFailed e) options a) = Throw e)
  /\ (forall e options,
         snd (isValidResponse response
                (fst (registerSpecs (BuildFailed e) options (reset a))))
         = Throw (JsError not_registered)).
Proof.
  split; [reflexivity|]. split; [|reflexivity].
  intros e options a'. unfold a', registerSpecs. cbn [fst snd].
  repeat split.
Qed.

End AssertionRuns.

Lemma coverage_survives_any_run_witness :
  let a := registered default_doc in
  covered (coverageTracker a)
  ⊆ covered (coverageTracker
               (run_assertions (H := plain_runtime) a
                  [CallIsValidResponse (get_pets (Int 200)); CallReset])).
Proof.
  intros a.
  destruct (coverage_survives_any_run (H := plain_runtime)
              [CallIsValidResponse (get_pets (Int 200)); CallReset] a)
    as (_ & Hcovered & _).
  - split; [vm_compute; discriminate|]. split; exact I.
  - exact Hcovered.
Defined.
